(** * Adaptive implicit time stepping (simpleode/core/ode.py)

    A shallow embedding of the implicit ODE integrator: the Newton solver,
    the step-size controller, the scheme residual library, the scheme
    factory and the integration loop, followed by the properties proved
    about them.

    Conventions of the embedding.
    - Python floats (times, step sizes, tolerances, error norms) are
      rationals [Q]: rounding and overflow are not modelled.  Division of
      Python floats raises [ZeroDivisionError] on a zero divisor.
    - The sum [t_n + dt] that makes the next time of a trajectory is the
      one place where rounding decides what the lists hold.  The module
      [Rounded] gives the integration loops with that sum as a parameter:
      the exact sum makes them the loops of the exact embedding, and
      [float_sum], the sum of two doubles, makes them add times as the
      machine does.
    - numpy arrays are lists of [float64] values, which add the IEEE special
      values to the rationals, because numpy division by zero does not
      raise but yields inf or nan.
    - Python exceptions are values of [exn]; code that may raise returns an
      [outcome]; code that also has effects runs in the monad [M].
    - The callables a caller hands in (the residual, a Jacobian, a solve
      function, an adaptor, a post-step callback) may raise and may change
      the world, but are taken not to change in place the lists and arrays
      they are handed: the module itself never does.
    - [while] loops take a fuel argument; running out of fuel is the outcome
      [Timeout], which is not a Python behaviour. *)

From Stdlib Require Import Floats.
From Stdlib Require Import String Ascii.
From Stdlib Require Import List ZArith QArith Qabs Bool Lia Lqa.
Import ListNotations.

Set Implicit Arguments.
Local Open Scope Q_scope.

(** ** Exceptions and outcomes *)

(** The exceptions the module raises or lets through. *)
Inductive exn : Type :=
| NoConvergence                      (* sp.optimize.nonlin.NoConvergence *)
| LinAlgError                        (* scipy.linalg.LinAlgError *)
| ConvergenceFailure (new_dt : Q)    (* message built from new_dt *)
| FailedTimestepError (new_dt : Q)
| ValueError (msg : string)
| KeyError (key : string)
| ZeroDivisionError
| TypeError
| IndexError
| AttributeError
| AssertionError.

Inductive outcome (A : Type) : Type :=
| Return (a : A)
| Raise (e : exn)
| Timeout.

Arguments Return {A} a.
Arguments Raise {A} e.
Arguments Timeout {A}.

Definition obind {A B} (m : outcome A) (k : A -> outcome B) : outcome B :=
  match m with
  | Return a => k a
  | Raise e => Raise e
  | Timeout => Timeout
  end.

Declare Scope outcome_scope.
Delimit Scope outcome_scope with outcome.
Notation "x <~ m ;; k" := (obind m (fun x => k))
  (at level 61, m at next level, right associativity) : outcome_scope.

(** ** The state-and-exception monad *)

(** [M S A]: a computation over the world [S] that returns, raises or
    times out; effects done before a raise persist, as in Python. *)
Definition M (S A : Type) : Type := S -> S * outcome A.

Definition ret {S A} (a : A) : M S A := fun s => (s, Return a).
Definition raise {S A} (e : exn) : M S A := fun s => (s, Raise e).
Definition lift {S A} (o : outcome A) : M S A := fun s => (s, o).
Definition modify {S} (f : S -> S) : M S unit := fun s => (f s, Return tt).

Definition bind {S A B} (m : M S A) (k : A -> M S B) : M S B :=
  fun s =>
    match m s with
    | (s1, Return a) => k a s1
    | (s1, Raise e) => (s1, Raise e)
    | (s1, Timeout) => (s1, Timeout)
    end.

(** [try m except h]: [h e] answers [Some k] for the exceptions an
    [except] clause catches. *)
Definition try_except {S A} (m : M S A) (h : exn -> option (M S A)) : M S A :=
  fun s =>
    match m s with
    | (s1, Raise e) =>
        match h e with
        | Some k => k s1
        | None => (s1, Raise e)
        end
    | r => r
    end.

Declare Scope monad_scope.
Delimit Scope monad_scope with monad.
Notation "x <- m ;; k" := (bind m (fun x => k))
  (at level 61, m at next level, right associativity) : monad_scope.
Notation "' p <- m ;; k" := (bind m (fun x => let p := x in k))
  (at level 61, p pattern, m at next level, right associativity) : monad_scope.
Notation "m ;;; k" := (bind m (fun _ => k))
  (at level 61, right associativity) : monad_scope.

(** ** Python lists *)

(** [l[-k]] for [k >= 1]. *)
Definition idx_neg {A} (l : list A) (k : nat) : outcome A :=
  match nth_error (rev l) (pred k) with
  | Some x => Return x
  | None => Raise IndexError
  end.

(** [l[i]] for [i >= 0]. *)
Definition idx {A} (l : list A) (i : nat) : outcome A :=
  match nth_error l i with
  | Some x => Return x
  | None => Raise IndexError
  end.

(** [l[:-k]]: all but the last [k] entries (empty when there are fewer). *)
Definition drop_last {A} (k : nat) (l : list A) : list A :=
  firstn (length l - k) l.

(** [l[-k:]]: the last [k] entries (the whole list when there are fewer). *)
Definition take_last {A} (k : nat) (l : list A) : list A :=
  skipn (length l - k) l.

(** ** Python floats *)

Definition Qltb (a b : Q) : bool := negb (Qle_bool b a).

(** [a / b] on Python floats. *)
Definition qdiv (a b : Q) : outcome Q :=
  if Qeq_bool b 0 then Raise ZeroDivisionError else Return (a / b).

(** *** The sum of two floats

    A finite double is a rational number.  [float_of_Q] is the double
    nearest to a rational, ties to even, which is how Python reads a
    decimal literal, and a double is its own nearest double; [float_sum]
    is the sum of two doubles as the machine computes it.  Overflow is
    not modelled: an infinite or nan result is read as 0. *)

Definition spec_of_Z (z : Z) : spec_float :=
  match z with
  | Z0 => S754_zero false
  | Zpos p => S754_finite false p 0
  | Zneg p => S754_finite true p 0
  end.

Definition float_of_Q (q : Q) : float :=
  SF2Prim (SFdiv prec emax (spec_of_Z (Qnum q)) (spec_of_Z (Zpos (Qden q)))).

Definition Q_of_float (f : float) : Q :=
  match Prim2SF f with
  | S754_finite sign m e =>
      let v := if (0 <=? e)%Z then inject_Z (Zpos m * 2 ^ e)
               else Qmake (Zpos m) (Z.to_pos (2 ^ (- e))) in
      Qred (if sign then - v else v)
  | _ => 0
  end.

(** [a + b] on Python floats, rounded as the machine rounds it. *)
Definition float_sum (a b : Q) : Q :=
  Q_of_float (PrimFloat.add (float_of_Q a) (float_of_Q b)).

(** ** numpy float64 values and 1-D arrays *)

(** A float64 with its IEEE special values; finite values are exact
    rationals and zero is unsigned (taken as +0). *)
Inductive float64 : Type :=
| Fin (q : Q)
| PInf
| NInf
| NaN.

Definition f_neg (x : float64) : float64 :=
  match x with
  | Fin a => Fin (- a)
  | PInf => NInf
  | NInf => PInf
  | NaN => NaN
  end.

Definition f_abs (x : float64) : float64 :=
  match x with
  | Fin a => Fin (Qabs a)
  | PInf | NInf => PInf
  | NaN => NaN
  end.

Definition f_add (x y : float64) : float64 :=
  match x, y with
  | NaN, _ | _, NaN => NaN
  | Fin a, Fin b => Fin (a + b)
  | PInf, NInf | NInf, PInf => NaN
  | PInf, _ | _, PInf => PInf
  | NInf, _ | _, NInf => NInf
  end.

Definition f_sub (x y : float64) : float64 := f_add x (f_neg y).

(** The infinity with the sign of [a], nan for zero. *)
Definition inf_signed (a : Q) : float64 :=
  if Qltb 0 a then PInf else if Qltb a 0 then NInf else NaN.

Definition f_mul (x y : float64) : float64 :=
  match x, y with
  | NaN, _ | _, NaN => NaN
  | Fin a, Fin b => Fin (a * b)
  | Fin a, PInf | PInf, Fin a => inf_signed a
  | Fin a, NInf | NInf, Fin a => inf_signed (- a)
  | PInf, PInf | NInf, NInf => PInf
  | PInf, NInf | NInf, PInf => NInf
  end.

(** numpy true division: no exception on a zero divisor. *)
Definition f_div (x y : float64) : float64 :=
  match x, y with
  | NaN, _ | _, NaN => NaN
  | Fin a, Fin b => if Qeq_bool b 0 then inf_signed a else Fin (a / b)
  | Fin _, _ => Fin 0
  | PInf, Fin b => if Qltb b 0 then NInf else PInf
  | NInf, Fin b => if Qltb b 0 then PInf else NInf
  | _, _ => NaN
  end.

(** The maximum as [np.amax] folds it: nan wins. *)
Definition f_max (x y : float64) : float64 :=
  match x, y with
  | NaN, _ | _, NaN => NaN
  | PInf, _ | _, PInf => PInf
  | NInf, z | z, NInf => z
  | Fin a, Fin b => if Qle_bool a b then Fin b else Fin a
  end.

(** [x < tol] for a float64 [x] and a Python float [tol]. *)
Definition f_ltq (x : float64) (tol : Q) : bool :=
  match x with
  | Fin a => Qltb a tol
  | NInf => true
  | PInf | NaN => false
  end.

Definition vec : Type := list float64.
Definition mat : Type := list vec.

Definition broadcast_error : exn :=
  ValueError "operands could not be broadcast together".

(** An elementwise binary operation on 1-D arrays, with numpy's
    broadcasting of a length-1 operand. *)
Definition broadcast2 (f : float64 -> float64 -> float64) (a b : vec)
  : outcome vec :=
  if Nat.eqb (length a) (length b) then Return (map (fun p => f (fst p) (snd p)) (combine a b))
  else match a, b with
       | [x], _ => Return (map (f x) b)
       | _, [y] => Return (map (fun x => f x y) a)
       | _, _ => Raise broadcast_error
       end.

Definition v_add : vec -> vec -> outcome vec := broadcast2 f_add.
Definition v_sub : vec -> vec -> outcome vec := broadcast2 f_sub.
Definition v_neg (a : vec) : vec := map f_neg a.
Definition v_abs (a : vec) : vec := map f_abs a.
(** array / Python float, and Python float * array. *)
Definition v_divq (a : vec) (q : Q) : vec := map (fun x => f_div x (Fin q)) a.
Definition v_mulq (q : Q) (a : vec) : vec := map (f_mul (Fin q)) a.
(** array / numpy scalar. *)
Definition v_divf (a : vec) (d : float64) : vec := map (fun x => f_div x d) a.

(** [sp.amax(a)]: an empty array has no maximum. *)
Definition amax (a : vec) : outcome float64 :=
  match a with
  | [] => Raise (ValueError "zero-size array to reduction operation maximum which has no identity")
  | x :: rest => Return (fold_left f_max rest x)
  end.

(** [sp.array(y0, ndmin=1)] for a scalar or a sequence. *)
Inductive array_like : Type :=
| Scalar (x : float64)
| Sequence (xs : list float64).

Definition array_ndmin1 (y0 : array_like) : vec :=
  match y0 with
  | Scalar x => [x]
  | Sequence xs => xs
  end.

(** ** Values of the residual library

    The formulas of the residual library are used on numpy arrays (in the
    integration), on plain floats (in the tests) and on symbolic values;
    [Value] is the arithmetic they need of a value type. *)
Class Value (Y : Type) : Type := {
  yadd : Y -> Y -> outcome Y;
  ysub : Y -> Y -> outcome Y;
  yneg : Y -> Y;
  ymulq : Q -> Y -> Y;          (* Python float * value *)
  ydivq : Y -> Q -> outcome Y   (* value / Python float *)
}.

#[export] Instance Value_float : Value Q := {
  yadd := fun a b => Return (a + b);
  ysub := fun a b => Return (a - b);
  yneg := fun a => - a;
  ymulq := fun q a => q * a;
  ydivq := qdiv
}.

#[export] Instance Value_array : Value vec := {
  yadd := v_add;
  ysub := v_sub;
  yneg := v_neg;
  ymulq := v_mulq;
  ydivq := fun a q => Return (v_divq a q)
}.

(** ** External collaborators *)

(** Library functions the module calls: Python's float power, scipy's dense
    solve, norm and interpolation, and the helpers of [simpleode.core.utils]
    and [simpleode.algebra.two_predictor], which are not part of this file. *)
Class Numerics : Type := {
  float_pow : Q -> Q -> outcome Q;                    (* x ** p *)
  linalg_solve : mat -> vec -> outcome vec;           (* sp.linalg.solve *)
  linalg_norm2 : vec -> Q;                            (* sp.linalg.norm(., 2) *)
  barycentric_interpolate : list Q -> list vec -> Q -> outcome vec;
  ts2dts : list Q -> list Q;                          (* utils.ts2dts *)
  assert_almost_equal : Q -> Q -> bool;               (* utils.assert_almost_equal *)
  predictor_param : Type;                (* a value of p1_points ... symbolic *)
  (** The LTE estimator [tp.generate_predictor_pair_lte_est] builds from the
      scheme [tp.generate_predictor_pair_scheme] makes of [p1_points],
      [p1_pred], [p2_points], [p2_pred] and [symbolic]. *)
  predictor_pair_lte_est :
    predictor_param -> predictor_param -> predictor_param -> predictor_param ->
    predictor_param -> list Q -> list vec -> outcome vec
}.

(** ** Step-size controller *)

(* PARAMETERS *)
Definition MAX_ALLOWED_DT_SCALING_FACTOR : Q := 3.
Definition MIN_ALLOWED_DT_SCALING_FACTOR : Q := 75 # 100.
Definition TIMESTEP_FAILURE_DT_SCALING_FACTOR : Q := 5 # 10.

Definition MIN_ALLOWED_TIMESTEP : Q := 1 # 100000000.
Definition MAX_ALLOWED_TIMESTEP : Q := 100000000.

(** The functions [scale_timestep] may receive as [scaling_function]; the
    code tells [failed_timestep_scaling] apart by identity ([is]). *)
Inductive scaling_function : Type :=
| default_dt_scaling_fn
| failed_timestep_scaling_fn
| other_scaling_fn (f : option Q -> option Q -> option Z -> outcome Q).

Definition is_failed_timestep_scaling (f : scaling_function) : bool :=
  match f with
  | failed_timestep_scaling_fn => true
  | _ => false
  end.

Section Controller.
Context {N : Numerics}.

(** The [try] block of [default_dt_scaling]: [None] arguments make the
    arithmetic raise [TypeError]. *)
Definition default_dt_scaling_try
    (target_error error_estimate : option Q) (timestepper_order : option Z)
  : outcome Q :=
  (match timestepper_order with
   | None => Raise TypeError
   | Some order =>
       power <~ qdiv 1 (1 + inject_Z order) ;;
       match target_error, error_estimate with
       | Some te, Some ee =>
           ratio <~ qdiv te ee ;;
           float_pow ratio power
       | _, _ => Raise TypeError
       end
   end)%outcome.

(** Standard way of rescaling the time step to attain the target error. *)
Definition default_dt_scaling
    (target_error error_estimate : option Q) (timestepper_order : option Z)
  : outcome Q :=
  match default_dt_scaling_try target_error error_estimate timestepper_order with
  | Raise ZeroDivisionError => Return MAX_ALLOWED_DT_SCALING_FACTOR
  | r => r
  end.

(** Return scaling factor for a failed time step, ignores all input
    arguments. *)
Definition failed_timestep_scaling
    (_ _ : option Q) (_ : option Z) : outcome Q :=
  Return TIMESTEP_FAILURE_DT_SCALING_FACTOR.

Definition call_scaling (f : scaling_function)
  : option Q -> option Q -> option Z -> outcome Q :=
  match f with
  | default_dt_scaling_fn => default_dt_scaling
  | failed_timestep_scaling_fn => failed_timestep_scaling
  | other_scaling_fn g => g
  end.

(** Scale dt by a scaling factor.  The local [scaling_factor] is
    reassigned in the [elif] after [new_dt] has been computed from it. *)
Definition scale_timestep
    (dt : Q) (target_error error_norm : option Q) (order : option Z)
    (scaling : scaling_function) : outcome Q :=
  (scaling_factor <~ call_scaling scaling target_error error_norm order ;;
   let new_dt := scaling_factor * dt in
   if Qltb scaling_factor MIN_ALLOWED_DT_SCALING_FACTOR
      && negb (is_failed_timestep_scaling scaling)
   then Raise (FailedTimestepError new_dt)
   else
     let scaling_factor' :=
       if Qltb MAX_ALLOWED_DT_SCALING_FACTOR scaling_factor
       then MAX_ALLOWED_DT_SCALING_FACTOR else scaling_factor in
     if Qltb MAX_ALLOWED_TIMESTEP new_dt then Return MAX_ALLOWED_TIMESTEP
     else if Qltb new_dt MIN_ALLOWED_TIMESTEP
          then Raise (ConvergenceFailure new_dt)
          else Return new_dt)%outcome.

End Controller.

(** ** The world *)

(** What the module does to its surroundings: writes to stderr and stdout,
    draws random numbers, and keeps the derivative history [dys] of the
    run's [TrapezoidRuleResidual] object. *)
Class World (S : Type) : Type := {
  stderr_write : string -> S -> S;
  print_system : mat -> vec -> S -> S;          (* print "\n", A, b, "\n" *)
  random_uniform : Q -> Q -> S -> S * Q;
  get_dys : S -> list vec;
  set_dys : list vec -> S -> S
}.

(** ** Newton solver and helpers *)

Section Newton.
Context {N : Numerics} {S : Type} {W : World S}.
Local Open Scope monad_scope.

Definition residual_fn : Type := vec -> M S vec.
Definition jacobian_fn : Type := vec -> M S mat.
Definition solve_fn : Type := mat -> vec -> M S vec.

(** [x.copy()] with [xtemp[i] += eps]. *)
Fixpoint bump (x : vec) (i : nat) (eps : Q) : vec :=
  match x, i with
  | [], _ => []
  | a :: rest, O => f_add a (Fin eps) :: rest
  | a :: rest, Datatypes.S j => a :: bump rest j eps
  end.

(** [J[:, i] = c]: a column of length [n], or one entry broadcast. *)
Definition as_column (n : nat) (c : vec) : outcome vec :=
  if Nat.eqb (length c) n then Return c
  else match c with
       | [x] => Return (repeat x n)
       | _ => Raise broadcast_error
       end.

(** The columns of the finite-difference Jacobian, for [i] in [range]. *)
Fixpoint fd_columns (residual : residual_fn) (x : vec) (eps : Q)
    (n : nat) (range : list nat) : M S (list vec) :=
  match range with
  | [] => ret []
  | i :: rest =>
      r1 <- residual (bump x i eps) ;;
      r0 <- residual x ;;
      d <- lift (v_sub r1 r0) ;;
      c <- lift (as_column n (v_divq d eps)) ;;
      cs <- fd_columns residual x eps n rest ;;
      ret (c :: cs)
  end.

(** Row [j] of the matrix whose columns are [cols]. *)
Definition row_of (cols : list vec) (j : nat) : vec :=
  map (fun c => nth j c NaN) cols.

(** Calculate the matrix of derivatives of the residual w.r.t. input
    values by finite differencing. *)
Definition finite_diff_jacobian (residual : residual_fn) (x : vec) (eps : Q)
  : M S mat :=
  let n := length x in
  cols <- fd_columns residual x eps n (seq 0 n) ;;
  ret (map (row_of cols) (seq 0 n)).

(** [sp.amax(abs(r)) < newton_tol]. *)
Definition below_tol (r : vec) (newton_tol : Q) : outcome bool :=
  (m <~ amax (v_abs r) ;; Return (f_ltq m newton_tol))%outcome.

(** Core function of newton(...); the recursion is on [max_iter]. *)
Fixpoint _newton_rec (residual : residual_fn) (x0 : vec)
    (jacobian_func : jacobian_fn) (newton_tol : Q)
    (solve_function : solve_fn) (max_iter : nat) : M S vec :=
  match max_iter with
  | O => raise NoConvergence
  | Datatypes.S max_iter' =>
      r <- residual x0 ;;
      ok <- lift (below_tol r newton_tol) ;;
      if ok : bool then ret x0
      else
        J <- jacobian_func x0 ;;
        dx <- solve_function J r ;;
        x1 <- lift (v_sub x0 dx) ;;
        _newton_rec residual x1 jacobian_func newton_tol solve_function max_iter'
  end.

(** [_newton]: [max_iter <= 0] raises at once. *)
Definition _newton (residual : residual_fn) (x0 : vec)
    (jacobian_func : jacobian_fn) (newton_tol : Q)
    (solve_function : solve_fn) (max_iter : Z) : M S vec :=
  _newton_rec residual x0 jacobian_func newton_tol solve_function
    (Z.to_nat max_iter).

(** The solve function wrapped to deal with non-matrix cases: one degree
    of freedom is a plain numpy division by [A[0][0]]. *)
Definition wrapped_solve (solve_function : solve_fn) : solve_fn :=
  fun A b =>
    if Nat.eqb (length b) 1 then
      row <- lift (idx A 0) ;;
      a00 <- lift (idx row 0) ;;
      ret (v_divf b a00)
    else
      try_except (solve_function A b)
        (fun e => match e with
                  | LinAlgError =>
                      Some (modify (print_system A b) ;;; raise LinAlgError)
                  | _ => None
                  end).

(** The keyword arguments of [newton] other than [jacobian_func]. *)
Record newton_kwargs : Type := {
  newton_tol : Q;
  solve_function : option solve_fn;
  jacobian_fd_eps : Q;
  max_iter : Z
}.

Definition default_newton_kwargs : newton_kwargs := {|
  newton_tol := 1 # 100000000;
  solve_function := None;
  jacobian_fd_eps := 1 # 10000000000;
  max_iter := 20
|}.

(** Find the minimum of the residual function using Newton's method. *)
Definition newton (residual : residual_fn) (x0 : vec)
    (jacobian_func : option jacobian_fn) (kw : newton_kwargs) : M S vec :=
  let jacobian_func' :=
    match jacobian_func with
    | None => fun x => finite_diff_jacobian residual x (jacobian_fd_eps kw)
    | Some jf => jf
    end in
  let solve_function' :=
    match solve_function kw with
    | None => fun A b => lift (linalg_solve A b)
    | Some sf => sf
    end in
  _newton residual x0 jacobian_func' (newton_tol kw)
    (wrapped_solve solve_function') (max_iter kw).

End Newton.

(** ** Timestepper residual calculation functions *)

(** Arithmetic on values that may already have raised: operands are
    evaluated left to right, as Python does. *)
Section ValueExpressions.
Context {Y : Type} {V : Value Y}.
Local Open Scope outcome_scope.

Definition oadd (a b : outcome Y) : outcome Y := x <~ a ;; y <~ b ;; yadd x y.
Definition osub (a b : outcome Y) : outcome Y := x <~ a ;; y <~ b ;; ysub x y.
Definition oneg (a : outcome Y) : outcome Y := x <~ a ;; Return (yneg x).
Definition omul (q : outcome Q) (a : outcome Y) : outcome Y :=
  c <~ q ;; x <~ a ;; Return (ymulq c x).
Definition odiv (a : outcome Y) (q : Q) : outcome Y := x <~ a ;; ydivq x q.
End ValueExpressions.

Declare Scope py_scope.
Delimit Scope py_scope with py.
Infix "+!" := oadd (at level 50, left associativity) : py_scope.
Infix "-!" := osub (at level 50, left associativity) : py_scope.
Infix "*!" := omul (at level 40, left associativity) : py_scope.
Infix "/!" := odiv (at level 40, left associativity) : py_scope.
Notation "-! a" := (oneg a) (at level 35, right associativity) : py_scope.
Notation "$ x" := (Return x) (at level 9, format "$ x") : py_scope.

Section Formulas.
Context {Y : Type} {V : Value Y}.
Local Open Scope outcome_scope.
Local Open Scope py_scope.

(** Take a single step of the Adams-Bashforth 2 method. *)
Definition ab2_step (dt_n : Q) (y_n dy_n : Y) (dt_nm1 : Q) (dy_nm1 : Y)
  : outcome Y :=
  dtr <~ qdiv dt_n dt_nm1 ;;
  $y_n +! $(dt_n / 2) *! ($(2 + dtr) *! $dy_n -! $dtr *! $dy_nm1).

(** Take a single step of the explicit midpoint rule. *)
Definition ebdf2_step (dt_n : Q) (y_n dy_n : Y) (dt_nm1 : Q) (y_nm1 : Y)
  : outcome Y :=
  dtr <~ qdiv dt_n dt_nm1 ;;
  $(1 - dtr ^ 2) *! $y_n +! $((1 + dtr) * dt_n) *! $dy_n
    +! $(dtr ^ 2) *! $y_nm1.

(** Get dy/dt at the midpoint as used by imr. *)
Definition imr_dydt (ts : list Q) (ys : list Y) : outcome Y :=
  d <~ idx_neg ys 1 -! idx_neg ys 2 ;;
  t_np1 <~ idx_neg ts 1 ;;
  t_n <~ idx_neg ts 2 ;;
  $d /! (t_np1 - t_n).

(** Get dy/dt at time ts[-1] (allowing for varying dt).
    Gresho & Sani, pg. 715 *)
Definition bdf2_dydt (ts : list Q) (ys : list Y) : outcome Y :=
  t_np1 <~ idx_neg ts 1 ;;
  t_n <~ idx_neg ts 2 ;;
  let dt_n := t_np1 - t_n in
  t_n' <~ idx_neg ts 2 ;;
  t_nm1 <~ idx_neg ts 3 ;;
  let dt_nm1 := t_n' - t_nm1 in
  y_np1 <~ idx_neg ys 1 ;;
  y_n <~ idx_neg ys 2 ;;
  y_nm1 <~ idx_neg ys 3 ;;
  (a <~ qdiv 1 dt_n ;; b <~ qdiv 1 (dt_n + dt_nm1) ;; $(a + b)) *! $y_np1
    -! qdiv (dt_n + dt_nm1) (dt_n * dt_nm1) *! $y_n
    +! qdiv dt_n ((dt_n + dt_nm1) * dt_nm1) *! $y_nm1.

(** Get dydt at time ts[-1] to O(dt^3). *)
Definition bdf3_dydt (ts : list Q) (ys : list Y) : outcome Y :=
  t_np1 <~ idx_neg ts 1 ;;
  t_n <~ idx_neg ts 2 ;;
  let dtn := t_np1 - t_n in
  t_n' <~ idx_neg ts 2 ;;
  t_nm1 <~ idx_neg ts 3 ;;
  let dtnm1 := t_n' - t_nm1 in
  t_nm1' <~ idx_neg ts 3 ;;
  t_nm2 <~ idx_neg ts 4 ;;
  let dtnm2 := t_nm1' - t_nm2 in
  ynp1 <~ idx_neg ys 1 ;;
  yn <~ idx_neg ys 2 ;;
  ynm1 <~ idx_neg ys 3 ;;
  ynm2 <~ idx_neg ys 4 ;;
  $(dtn * (dtn + dtnm1))
     *! ((-! (-! ($ynm1 -! $ynm2) /! dtnm2 +! ($yn -! $ynm1) /! dtnm1))
           /! (dtnm1 + dtnm2)
         +! (-! ($yn -! $ynm1) /! dtnm1 +! ($ynp1 -! $yn) /! dtn)
              /! (dtn + dtnm1))
     /! (dtn + dtnm1 + dtnm2)
  +! $dtn *! (-! ($yn -! $ynm1) /! dtnm1 +! ($ynp1 -! $yn) /! dtn)
       /! (dtn + dtnm1)
  +! ($ynp1 -! $yn) /! dtn.

(** Calculate one step of "explicitBDF3", i.e. the third order analogue
    of explicit midpoint rule. *)
Definition ebdf3_step (dtn : Q) (yn dyn : Y) (dtnm1 : Q) (ynm1 : Y)
    (dtnm2 : Q) (ynm2 : Y) : outcome Y :=
  (-! ($(- dtn^3*dtnm1^2*dtnm2 - dtn^3*dtnm1*dtnm2^2
         - 2*dtn^2*dtnm1^3*dtnm2 - 3*dtn^2*dtnm1^2*dtnm2^2
         - dtn^2*dtnm1*dtnm2^3 - dtn*dtnm1^4*dtnm2
         - 2*dtn*dtnm1^3*dtnm2^2 - dtn*dtnm1^2*dtnm2^3) *! $dyn
       +! $(2*dtn^3*dtnm1*dtnm2 + dtn^3*dtnm2^2 + 3*dtn^2*dtnm1^2*dtnm2
            + 3*dtn^2*dtnm1*dtnm2^2 + dtn^2*dtnm2^3 - dtnm1^4*dtnm2
            - 2*dtnm1^3*dtnm2^2 - dtnm1^2*dtnm2^3) *! $yn
       +! $(- dtn^3*dtnm1^2 - 2*dtn^3*dtnm1*dtnm2 - dtn^3*dtnm2^2
            - dtn^2*dtnm1^3 - 3*dtn^2*dtnm1^2*dtnm2
            - 3*dtn^2*dtnm1*dtnm2^2 - dtn^2*dtnm2^3) *! $ynm1
       +! $(dtn^3*dtnm1^2 + dtn^2*dtnm1^3) *! $ynm2))
    /! (dtnm1^4*dtnm2 + 2*dtnm1^3*dtnm2^2 + dtnm1^2*dtnm2^3).

(** Get required values from ts, ys vectors and call ebdf3_step. *)
Definition ebdf3_step_wrapper (ts : list Q) (ys : list Y) (dyn : Y)
  : outcome Y :=
  t_np1 <~ idx_neg ts 1 ;;
  t_n <~ idx_neg ts 2 ;;
  let dtn := t_np1 - t_n in
  t_n' <~ idx_neg ts 2 ;;
  t_nm1 <~ idx_neg ts 3 ;;
  let dtnm1 := t_n' - t_nm1 in
  t_nm1' <~ idx_neg ts 3 ;;
  t_nm2 <~ idx_neg ts 4 ;;
  let dtnm2 := t_nm1' - t_nm2 in
  yn <~ idx_neg ys 2 ;;
  ynm1 <~ idx_neg ys 3 ;;
  ynm2 <~ idx_neg ys 4 ;;
  ebdf3_step dtn yn dyn dtnm1 ynm1 dtnm2 ynm2.

End Formulas.

Arguments newton_kwargs S : clear implicits.

Definition is_not_None {A} (x : option A) : bool :=
  match x with Some _ => true | None => false end.

Definition newline : string := String (ascii_of_nat 10) EmptyString.

(** ** Residuals and the integration loop *)

Section Integration.
Context {N : Numerics} {S : Type} {W : World S}.
Local Open Scope monad_scope.

(** The user's residual [func(t, y, dydt)]. *)
Definition base_residual : Type := Q -> vec -> vec -> M S vec.
Definition time_residual : Type :=
  base_residual -> list Q -> list vec -> M S vec.
Definition time_adaptor : Type :=
  list Q -> list vec -> option Q -> M S Q.
Definition initialisation : Type :=
  base_residual -> list Q -> list vec -> M S (list Q * list vec).
Definition post_step : Type := list Q -> list vec -> M S (Q * vec).
Definition dydt_fn : Type := Q -> vec -> M S vec.

Definition imr_residual : time_residual :=
  fun base_residual ts ys =>
    y_nph <- lift ((idx_neg ys 1 +! idx_neg ys 2) /! 2)%py ;;
    t_np1 <- lift (idx_neg ts 1) ;;
    t_n <- lift (idx_neg ts 2) ;;
    let t_nph := (t_np1 + t_n) / 2 in
    dydt_nph <- lift (imr_dydt ts ys) ;;
    base_residual t_nph y_nph dydt_nph.

Definition bdf1_residual : time_residual :=
  fun base_residual ts ys =>
    t_np1 <- lift (idx_neg ts 1) ;;
    t_n <- lift (idx_neg ts 2) ;;
    let dt_n := t_np1 - t_n in
    y_n <- lift (idx_neg ys 2) ;;
    y_np1 <- lift (idx_neg ys 1) ;;
    dydt <- lift (($y_np1 -! $y_n) /! dt_n)%py ;;
    t <- lift (idx_neg ts 1) ;;
    base_residual t y_np1 dydt.

(** Calculate residual at latest time and y-value with a bdf
    approximation for the y derivative. *)
Definition bdf_residual (dydt_func : list Q -> list vec -> outcome vec)
  : time_residual :=
  fun base_residual ts ys =>
    t <- lift (idx_neg ts 1) ;;
    y <- lift (idx_neg ys 1) ;;
    dydt <- lift (dydt_func ts ys) ;;
    base_residual t y dydt.

Definition bdf2_residual : time_residual := bdf_residual bdf2_dydt.
Definition bdf3_residual : time_residual := bdf_residual bdf3_dydt.

(** The keyword arguments of [_odeint] after [initialisation_actions];
    [newton_kw] stands for the [**kwargs] passed down to [newton]. *)
Record odeint_kwargs : Type := {
  actions_after_timestep : option post_step;
  newton_failure_reduce_step : bool;
  jacobian_func : option (Q -> vec -> M S mat);
  vary_step : bool;
  newton_kw : newton_kwargs S
}.

Definition default_odeint_kwargs : odeint_kwargs := {|
  actions_after_timestep := None;
  newton_failure_reduce_step := false;
  jacobian_func := None;
  vary_step := false;
  newton_kw := default_newton_kwargs
|}.

(** The variables of the main timestepping loop. *)
Record loop_state : Type := {
  ts_of : list Q;
  ys_of : list vec;
  dt_of : Q
}.

(** How one pass of the loop body ended: by the appends at its end, or by
    one of its two [continue] statements. *)
Inductive pass : Type :=
| Committed
| NewtonRetry
| Rejected.

Section Loop.
Variable func : base_residual.
Variable tmax : Q.
Variable residual_of : time_residual.
Variable target_error : option Q.
Variable adaptor : option time_adaptor.
Variable kw : odeint_kwargs.
(** [base_dt] of the [step_randomiser]: the [dt] argument of the call. *)
Variable base_dt : Q.

(** [create_random_time_adaptor(dt, 0.9, 1.1)()]. *)
Definition step_randomiser : M S Q :=
  fun s => let (s1, u) := random_uniform (9 # 10) (11 # 10) s in
           (s1, Return (base_dt * u)).

(** The inner [def residual(y_np1)] of a pass. *)
Definition step_residual (ts : list Q) (ys : list vec) (t_np1 : Q)
  : residual_fn :=
  fun y_np1 => residual_of func (ts ++ [t_np1]) (ys ++ [y_np1]).

(** [J_f_of_y]: the Jacobian function at [t_np1], or [None]. *)
Definition J_f_of_y (t_np1 : Q) : option jacobian_fn :=
  match jacobian_func kw with
  | Some jf => Some (fun y => jf t_np1 y)
  | None => None
  end.

(** The [try]/[except] around the Newton solve: the new state, or the
    reduced step size of a retry. *)
Definition solve_step (ts : list Q) (ys : list vec) (dt t_np1 : Q)
  : M S (vec + Q) :=
  y_n <- lift (idx_neg ys 1) ;;
  try_except
    (y_np1 <- newton (step_residual ts ys t_np1) y_n (J_f_of_y t_np1)
                (newton_kw kw) ;;
     ret (inl y_np1))
    (fun e =>
       match e with
       | NoConvergence =>
           Some (if is_not_None adaptor || newton_failure_reduce_step kw
                 then
                   dt' <- lift (scale_timestep dt None None None
                                  failed_timestep_scaling_fn) ;;
                   modify (stderr_write
                     ("Failed to converge, reducing time step." ++ newline)) ;;;
                   ret (inr dt')
                 else raise NoConvergence)
       | _ => None
       end).

(** The [try]/[except] around the adaptor: the next step size, or the
    suggested step size of a rejected step. *)
Definition adapt_step (a : time_adaptor) (ts : list Q) (ys : list vec)
    (new_t_np1 : Q) (new_y_np1 : vec) : M S (Q + Q) :=
  try_except
    (dt' <- a (ts ++ [new_t_np1]) (ys ++ [new_y_np1]) target_error ;;
     ret (inl dt'))
    (fun e =>
       match e with
       | FailedTimestepError new_dt =>
           Some (modify (stderr_write ("Rejected time step" ++ newline)) ;;;
                 ret (inr new_dt))
       | _ => None
       end).

(** One pass of the body of the main timestepping loop. *)
Definition loop_body (st : loop_state) : M S (pass * loop_state) :=
  let ts := ts_of st in
  let ys := ys_of st in
  let dt := dt_of st in
  t_n <- lift (idx_neg ts 1) ;;
  let t_np1 := t_n + dt in
  solved <- solve_step ts ys dt t_np1 ;;
  match solved with
  | inr dt' => ret (NewtonRetry, {| ts_of := ts; ys_of := ys; dt_of := dt' |})
  | inl y_np1 =>
      new <- match actions_after_timestep kw with
             | Some act => act (ts ++ [t_np1]) (ys ++ [y_np1])
             | None => ret (t_np1, y_np1)
             end ;;
      let new_t_np1 := fst new in
      let new_y_np1 := snd new in
      match adaptor with
      | Some a =>
          adapted <- adapt_step a ts ys new_t_np1 new_y_np1 ;;
          match adapted with
          | inr new_dt =>
              ret (Rejected, {| ts_of := ts; ys_of := ys; dt_of := new_dt |})
          | inl dt' =>
              ret (Committed, {| ts_of := ts ++ [new_t_np1];
                                 ys_of := ys ++ [new_y_np1];
                                 dt_of := dt' |})
          end
      | None =>
          dt' <- (if vary_step kw then step_randomiser else ret dt) ;;
          ret (Committed, {| ts_of := ts ++ [new_t_np1];
                             ys_of := ys ++ [new_y_np1];
                             dt_of := dt' |})
      end
  end.

(** [while ts[-1] < tmax: ...; return ts, ys]. *)
Fixpoint main_loop (fuel : nat) (st : loop_state)
  : M S (list Q * list vec) :=
  match fuel with
  | O => fun s => (s, Timeout)
  | Datatypes.S fuel' =>
      t_n <- lift (idx_neg (ts_of st) 1) ;;
      if Qltb t_n tmax then
        r <- loop_body st ;;
        main_loop fuel' (snd r)
      else ret (ts_of st, ys_of st)
  end.

(** [reach n st0 s0 st s]: [n] passes of the loop, each entered with
    [ts[-1] < tmax] and ended without an exception, lead from the state
    [st0] in the world [s0] to the state [st] in the world [s]. *)
Inductive reach (st0 : loop_state) (s0 : S)
  : nat -> loop_state -> S -> Prop :=
| reach_here : reach st0 s0 0 st0 s0
| reach_pass : forall n st s t k st' s',
    reach st0 s0 n st s ->
    idx_neg (ts_of st) 1 = Return t ->
    Qltb t tmax = true ->
    loop_body st s = (s', Return (k, st')) ->
    reach st0 s0 (Datatypes.S n) st' s'.

End Loop.

(** Underlying function for odeint. *)
Definition _odeint (fuel : nat) (func : base_residual)
    (tsin : list Q) (ysin : list vec) (dt tmax : Q)
    (residual_of : time_residual) (target_error : option Q)
    (adaptor : option time_adaptor)
    (initialisation_actions : option initialisation)
    (kw : odeint_kwargs) : M S (list Q * list vec) :=
  start <- match initialisation_actions with
           | Some init => init func tsin ysin
           | None => ret (tsin, ysin)
           end ;;
  (if vary_step kw
   then if is_not_None adaptor then raise AssertionError else ret tt
   else ret tt) ;;;
  main_loop func tmax residual_of target_error adaptor kw dt fuel
    {| ts_of := fst start; ys_of := snd start; dt_of := dt |}.

(** [while len(ys) < n_start: ts, ys = _odeint(...)]. *)
Fixpoint higher_order_start_loop (fuel : nat) (steps : nat) (n_start : nat)
    (func : base_residual) (ts : list Q) (ys : list vec) (dt : Q)
  : M S (list Q * list vec) :=
  match steps with
  | O => fun s => (s, Timeout)
  | Datatypes.S steps' =>
      if Nat.ltb (length ys) n_start then
        t_n <- lift (idx_neg ts 1) ;;
        r <- _odeint fuel func ts ys dt (t_n + dt) imr_residual None None None
               default_odeint_kwargs ;;
        higher_order_start_loop fuel steps' n_start func (fst r) (snd r) dt
      else ret (ts, ys)
  end.

(** Run a few steps of imr with a very small timestep ([dt=1e-6]). *)
Definition higher_order_start (fuel : nat) (n_start : nat) : initialisation :=
  fun func ts ys =>
    higher_order_start_loop fuel fuel n_start func ts ys (1 # 1000000).

(** *** The trapezoid rule residual

    [TrapezoidRuleResidual] is a class because it stores the past
    derivatives [self.dys]; they live in the world. *)

(** Calculate a step with imr to get dydt at y_n. *)
Definition _get_initial_dy (fuel : nat) (base : base_residual)
    (ts : list Q) (ys : list vec) : M S unit :=
  let temp_ts := drop_last 2 ts in
  let temp_ys := drop_last 2 ys in
  t_n <- lift (idx_neg ts 2) ;;
  t_nm1 <- lift (idx_neg ts 3) ;;
  let dt_n := 2 * (t_n - t_nm1) in
  t_last <- lift (idx_neg temp_ts 1) ;;
  r <- _odeint fuel base temp_ts temp_ys dt_n (t_last + dt_n) imr_residual
         None None None default_odeint_kwargs ;;
  let temp_ts := fst r in
  let temp_ys := snd r in
  a <- lift (idx_neg temp_ts 1) ;;
  b <- lift (idx_neg temp_ts 2) ;;
  t_n' <- lift (idx_neg ts 2) ;;
  (if assert_almost_equal ((a + b) / 2) t_n' then ret tt
   else raise AssertionError) ;;;
  dy_nph <- lift ((idx_neg temp_ys 1 -! idx_neg temp_ys 2) /! dt_n)%py ;;
  match (length ys - 1)%nat with
  | O => modify (set_dys []) ;;; raise IndexError
  | Datatypes.S k => modify (set_dys (repeat [NaN] k ++ [dy_nph]))
  end.

(** If dy_n/dt has not been calculated on this step then calculate it
    from previous values of y and dydt by inverting the trapezoid rule. *)
Definition calculate_new_dy_if_needed (ts : list Q) (ys : list vec)
  : M S unit :=
  fun s =>
    let dys := get_dys s in
    if Nat.ltb (length dys + 1)%nat (length ys) then
      (t_n <- lift (idx_neg ts 2) ;;
       t_nm1 <- lift (idx_neg ts 3) ;;
       let dt_nm1 := t_n - t_nm1 in
       dy_n <- lift (qdiv 2 dt_nm1 *! (idx_neg ys 2 -! idx_neg ys 3)
                       -! idx_neg dys 1)%py ;;
       modify (set_dys (dys ++ [dy_n]))) s
    else (s, Return tt).

(** [TrapezoidRuleResidual.__call__]. *)
Definition TrapezoidRuleResidual_call (fuel : nat) : time_residual :=
  fun base ts ys =>
    (fun s => if Nat.eqb (length (get_dys s)) 0
              then _get_initial_dy fuel base ts ys s
              else (s, Return tt)) ;;;
    t_np1 <- lift (idx_neg ts 1) ;;
    t_n <- lift (idx_neg ts 2) ;;
    let dt_n := t_np1 - t_n in
    t_np1 <- lift (idx_neg ts 1) ;;
    y_n <- lift (idx_neg ys 2) ;;
    y_np1 <- lift (idx_neg ys 1) ;;
    calculate_new_dy_if_needed ts ys ;;;
    dy_n <- (fun s => (s, idx_neg (get_dys s) 1)) ;;
    dy_np1 <- lift (qdiv 2 dt_n *! ($y_np1 -! $y_n) -! $dy_n)%py ;;
    base t_np1 y_np1 dy_np1.

(** [TrapezoidRuleResidual()]: [__init__] empties [self.dys]. *)
Definition TrapezoidRuleResidual (fuel : nat) : M S time_residual :=
  modify (set_dys []) ;;; ret (TrapezoidRuleResidual_call fuel).

(** *** Adaptive timestepping functions *)

(** An LTE calculator, called as [lte_calculator(ts, ys, **kwargs)]. *)
Definition lte_calculator : Type := list Q -> list vec -> M S vec.

(** General base function for time adaptivity function. *)
Definition general_time_adaptor (method_order : Z) (lte : lte_calculator)
  : time_adaptor :=
  fun ts ys target_error =>
    lte_est <- lte ts ys ;;
    let error_norm := linalg_norm2 lte_est in
    t_np1 <- lift (idx_neg ts 1) ;;
    t_n <- lift (idx_neg ts 2) ;;
    lift (scale_timestep (t_np1 - t_n) target_error (Some error_norm)
            (Some method_order) default_dt_scaling_fn).

(** Estimate LTE using combination of bdf2 and explicit midpoint. From
    Prinja's thesis. *)
Definition bdf2_mp_prinja_lte_estimate (ts : list Q) (ys : list vec)
  : outcome vec :=
  (t_np1 <~ idx_neg ts 1 ;;
   t_n <~ idx_neg ts 2 ;;
   let dt_n := t_np1 - t_n in
   t_n' <~ idx_neg ts 2 ;;
   t_nm1 <~ idx_neg ts 3 ;;
   let dt_nm1 := t_n' - t_nm1 in
   dtr <~ qdiv dt_n dt_nm1 ;;
   dtrinv <~ qdiv 1 dtr ;;
   y_np1 <~ idx_neg ys 1 ;;
   y_n <~ idx_neg ys 2 ;;
   y_nm1 <~ idx_neg ys 3 ;;
   dy_n <~ bdf2_dydt (drop_last 1 ts) (drop_last 1 ys) ;;
   y_np1_EMR <~ ebdf2_step dt_n y_n dy_n dt_nm1 y_nm1 ;;
   error_weight <~ qdiv (dt_nm1 + dt_n) (3 * dt_n + 2 * dt_nm1) ;;
   ($error_weight *! ($y_np1 -! $y_np1_EMR))%py)%outcome.

Definition bdf2_mp_lte_estimate : lte_calculator :=
  fun ts ys => lift (bdf2_mp_prinja_lte_estimate ts ys).

(** Calling [dydt_func]; calling [None] is a [TypeError]. *)
Definition call_dydt (dydt_func : option dydt_fn) (t : Q) (y : vec)
  : M S vec :=
  match dydt_func with
  | Some f => f t y
  | None => raise TypeError
  end.

Definition tr_ab_lte_estimate (dydt_func : option dydt_fn) : lte_calculator :=
  fun ts ys =>
    t_np1 <- lift (idx_neg ts 1) ;;
    t_n <- lift (idx_neg ts 2) ;;
    let dt_n := t_np1 - t_n in
    t_n' <- lift (idx_neg ts 2) ;;
    t_nm1 <- lift (idx_neg ts 3) ;;
    let dt_nm1 := t_n' - t_nm1 in
    dtrinv <- lift (qdiv dt_nm1 dt_n) ;;
    y_np1 <- lift (idx_neg ys 1) ;;
    y_n <- lift (idx_neg ys 2) ;;
    y_nm1 <- lift (idx_neg ys 3) ;;
    t_n'' <- lift (idx_neg ts 2) ;;
    dy_n <- call_dydt dydt_func t_n'' y_n ;;
    t_nm1' <- lift (idx_neg ts 3) ;;
    dy_nm1 <- call_dydt dydt_func t_nm1' y_nm1 ;;
    y_np1_AB2 <- lift (ab2_step dt_n y_n dy_n dt_nm1 dy_nm1) ;;
    lift (($y_np1 -! $y_np1_AB2) /! (3 * (1 + dtrinv)))%py.

(** [map(f, xs, ys)] of Python 2 for lists of equal length; a shorter
    list is padded with [None], on which the arithmetic of [f] raises. *)
Fixpoint map2_py {A B C} (f : A -> B -> outcome C) (xs : list A)
    (ys : list B) : outcome (list C) :=
  match xs, ys with
  | [], [] => Return []
  | x :: xs', y :: ys' =>
      (c <~ f x y ;; cs <~ map2_py f xs' ys' ;; Return (c :: cs))%outcome
  | _, _ => Raise TypeError
  end.

Definition interpolate_dyn (ts : list Q) (ys : list vec) : outcome vec :=
  (let ts := take_last 4 ts in
   let ys := take_last 4 ys in
   let ynp1_list := tl ys in
   let yn_list := drop_last 1 ys in
   let dts := ts2dts ts in
   imr_ts <~ map2_py (fun tn tnp1 => Return ((tn + tnp1) / 2))
               (tl ts) (drop_last 1 ts) ;;
   imr_dys <~ map2_py (fun dt (p : vec * vec) =>
                         ($(fst p) -! $(snd p)) /! dt)%py
               dts (combine ynp1_list yn_list) ;;
   t_n <~ idx_neg ts 2 ;;
   barycentric_interpolate imr_ts imr_dys t_n)%outcome.

(** Estimate lte for any second order integration method by comparing
    with the third order explicit bdf method. *)
Definition ebdf3_lte_estimate (dydt_func : option dydt_fn) : lte_calculator :=
  fun ts ys =>
    dyn <- match dydt_func with
           | None => lift (interpolate_dyn ts ys)
           | Some f =>
               t_n <- lift (idx_neg ts 2) ;;
               y_n <- lift (idx_neg ys 2) ;;
               f t_n y_n
           end ;;
    y_np1_EBDF3 <- lift (ebdf3_step_wrapper ts ys dyn) ;;
    lift (idx_neg ys 1 -! $y_np1_EBDF3)%py.

End Integration.

(** ** The scheme factory and the entry point *)

(** [str.lower()] on ASCII. *)
Definition lower_ascii (c : ascii) : ascii :=
  let n := nat_of_ascii c in
  if (Nat.leb 65 n && Nat.leb n 90)%bool then ascii_of_nat (n + 32) else c.

Fixpoint lower (s : string) : string :=
  match s with
  | EmptyString => EmptyString
  | String c rest => String (lower_ascii c) (lower rest)
  end.

Section Factory.
Context {N : Numerics} {S : Type} {W : World S}.
Local Open Scope monad_scope.
Local Open Scope string_scope.

(** A method given as a dict: the keys the factory reads. *)
Record method_dict : Type := {
  label : option string;
  dydt_func : option (@dydt_fn S);
  p1_points : option predictor_param;
  p1_pred : option predictor_param;
  p2_points : option predictor_param;
  p2_pred : option predictor_param;
  symbolic : option predictor_param
}.

(** [{'label': method}]. *)
Definition label_only (name : string) : method_dict := {|
  label := Some name;
  dydt_func := None;
  p1_points := None; p1_pred := None;
  p2_points := None; p2_pred := None;
  symbolic := None
|}.

(** The [method] argument: a name or a dict. *)
Inductive method : Type :=
| MethodName (name : string)
| MethodDict (d : method_dict).

(** The label a method carries, before lower-casing. *)
Definition method_label (m : method) : option string :=
  match m with
  | MethodName name => Some name
  | MethodDict d => label d
  end.

(** The five parameters of [imr w18], when the method has them all. *)
Definition predictor_params (m : method)
  : option (predictor_param * predictor_param * predictor_param
            * predictor_param * predictor_param) :=
  match m with
  | MethodName _ => None
  | MethodDict d =>
      match p1_points d, p1_pred d, p2_points d, p2_pred d, symbolic d with
      | Some a, Some b, Some c, Some d', Some e => Some (a, b, c, d', e)
      | _, _, _, _, _ => None
      end
  end.

(** [d[key]]. *)
Definition getitem {A} (key : string) (field : option A) : M S A :=
  match field with
  | Some v => ret v
  | None => raise (KeyError key)
  end.

Definition scheme : Type :=
  (@time_residual S * option (@time_adaptor S) * option (@initialisation S))%type.

(** Construct the functions for the named method: a time residual, a
    timestep adaptor and initialisation actions. *)
Definition _timestep_scheme_factory (fuel : nat) (m : method) : M S scheme :=
  let _method_dict :=
    match m with
    | MethodDict d => d
    | MethodName name => label_only name
    end in
  match label _method_dict with
  | None => raise AttributeError
  | Some l =>
      let label := lower l in
      if label =? "bdf2" then
        ret (bdf2_residual, None, Some (higher_order_start fuel 2))
      else if label =? "bdf3" then
        ret (bdf3_residual, None, Some (higher_order_start fuel 3))
      else if label =? "bdf2 mp" then
        let adaptor := general_time_adaptor 2 bdf2_mp_lte_estimate in
        ret (bdf2_residual, Some adaptor, Some (higher_order_start fuel 3))
      else if label =? "bdf2 ebdf3" then
        let lte_est := ebdf3_lte_estimate (dydt_func _method_dict) in
        let adaptor := general_time_adaptor 2 lte_est in
        ret (bdf2_residual, Some adaptor, Some (higher_order_start fuel 4))
      else if label =? "bdf1" then
        ret (bdf1_residual, None, None)
      else if label =? "imr" then
        ret (imr_residual, None, None)
      else if label =? "imr ebdf3" then
        let lte_est := ebdf3_lte_estimate (dydt_func _method_dict) in
        let adaptor := general_time_adaptor 2 lte_est in
        ret (imr_residual, Some adaptor, Some (higher_order_start fuel 5))
      else if label =? "imr w18" then
        a <- getitem "p1_points" (p1_points _method_dict) ;;
        b <- getitem "p1_pred" (p1_pred _method_dict) ;;
        c <- getitem "p2_points" (p2_points _method_dict) ;;
        d <- getitem "p2_pred" (p2_pred _method_dict) ;;
        e <- getitem "symbolic" (symbolic _method_dict) ;;
        let lte_est := fun ts ys => lift (predictor_pair_lte_est a b c d e ts ys) in
        let adaptor := general_time_adaptor 2 lte_est in
        ret (imr_residual, Some adaptor, Some (higher_order_start fuel 12))
      else if (label =? "trapezoid") || (label =? "tr") then
        r <- TrapezoidRuleResidual fuel ;;
        ret (r, None, Some (higher_order_start fuel 2))
      else if label =? "tr ab" then
        let adaptor :=
          general_time_adaptor 2 (tr_ab_lte_estimate (dydt_func _method_dict)) in
        r <- TrapezoidRuleResidual fuel ;;
        ret (r, Some adaptor, Some (higher_order_start fuel 2))
      else
        raise (ValueError ("Method '" ++ label ++ "' not recognised."))
  end.

(** Integrate the residual "func" with initial value "y0" to time "tmax". *)
Definition odeint (fuel : nat) (func : base_residual) (y0 : array_like)
    (tmax dt : Q) (m : method) (target_error : option Q)
    (kw : odeint_kwargs) : M S (list Q * list vec) :=
  sch <- _timestep_scheme_factory fuel m ;;
  let '(time_residual, time_adaptor, initialisation_actions) := sch in
  let ts := [0] in
  let ys := [array_ndmin1 y0] in
  _odeint fuel func ts ys dt tmax time_residual target_error time_adaptor
    initialisation_actions kw.

End Factory.

(** ** Further formulas of the residual library *)

Section FurtherFormulas.
Context {Y : Type} {V : Value Y}.
Local Open Scope outcome_scope.
Local Open Scope py_scope.

(** Take an implicit (normal) bdf2 step, must provide the derivative or
    some approximation to it.  A product [value * float] of the source is
    written [float * value]. *)
Definition ibdf2_step (dtn : Q) (yn dynp1 : Y) (dtnm1 : Q) (ynm1 : Y)
  : outcome Y :=
  ($(- dtn^2) *! $ynm1
   +! $(dtn + dtnm1) *! ($(dtn*dtnm1) *! $dynp1)
   +! $(dtn^2 + 2*dtn*dtnm1 + dtnm1^2) *! $yn)
    /! (dtnm1*(2*dtn + dtnm1)).

Definition ibdf3_step (dynp1 : Y) (dtn : Q) (yn : Y) (dtnm1 : Q) (ynm1 : Y)
    (dtnm2 : Q) (ynm2 : Y) : outcome Y :=
  ($(dtn^2 + 2*dtn*dtnm1 + dtnm1^2) *! ($(dtn^2*dtnm1) *! $ynm2)
   -! $(dtn^2*dtnm1 + dtn^2*dtnm2 + 2*dtn*dtnm1^2 + 4*dtn*dtnm1*dtnm2
        + 2*dtn*dtnm2^2 + dtnm1^3 + 3*dtnm1^2*dtnm2 + 3*dtnm1*dtnm2^2
        + dtnm2^3) *! ($(dtn^2) *! $ynm1)
   +! $(dtn^2*dtnm1 + dtn^2*dtnm2 + 2*dtn*dtnm1^2 + 3*dtn*dtnm1*dtnm2
        + dtn*dtnm2^2 + dtnm1^3 + 2*dtnm1^2*dtnm2 + dtnm1*dtnm2^2)
        *! ($(dtn*dtnm1*dtnm2) *! $dynp1)
   +! $(dtn^4 + 4*dtn^3*dtnm1 + 2*dtn^3*dtnm2 + 6*dtn^2*dtnm1^2
        + 6*dtn^2*dtnm1*dtnm2 + dtn^2*dtnm2^2 + 4*dtn*dtnm1^3
        + 6*dtn*dtnm1^2*dtnm2 + 2*dtn*dtnm1*dtnm2^2 + dtnm1^4
        + 2*dtnm1^3*dtnm2 + dtnm1^2*dtnm2^2) *! ($dtnm2 *! $yn))
    /! (dtnm1*dtnm2*(3*dtn^2*dtnm1 + 3*dtn^2*dtnm2 + 4*dtn*dtnm1^2
                     + 6*dtn*dtnm1*dtnm2 + 2*dtn*dtnm2^2 + dtnm1^3
                     + 2*dtnm1^2*dtnm2 + dtnm1*dtnm2^2)).

(** Get dydt at time ts[-1] using bdf4 approximation.  The subexpressions
    the source repeats are named once: [d1] is [(ynp1 - yn)/dtn], [q1] and
    [p1] are the differences of first divided differences at the two newest
    pairs of steps, [r1] the same one step back, [x3] and [y3] the
    differences of second divided differences. *)
Definition bdf4_dydt (ts : list Q) (ys : list Y) : outcome Y :=
  t_np1 <~ idx_neg ts 1 ;;
  t_n <~ idx_neg ts 2 ;;
  let dtn := t_np1 - t_n in
  t_n' <~ idx_neg ts 2 ;;
  t_nm1 <~ idx_neg ts 3 ;;
  let dtnm1 := t_n' - t_nm1 in
  t_nm1' <~ idx_neg ts 3 ;;
  t_nm2 <~ idx_neg ts 4 ;;
  let dtnm2 := t_nm1' - t_nm2 in
  t_nm2' <~ idx_neg ts 4 ;;
  t_nm3 <~ idx_neg ts 5 ;;
  let dtnm3 := t_nm2' - t_nm3 in
  ynp1 <~ idx_neg ys 1 ;;
  yn <~ idx_neg ys 2 ;;
  ynm1 <~ idx_neg ys 3 ;;
  ynm2 <~ idx_neg ys 4 ;;
  ynm3 <~ idx_neg ys 5 ;;
  let d1 := ($ynp1 -! $yn) /! dtn in
  let q1 := -! ($yn -! $ynm1) /! dtnm1 +! ($ynp1 -! $yn) /! dtn in
  let p1 := -! ($ynm1 -! $ynm2) /! dtnm2 +! ($yn -! $ynm1) /! dtnm1 in
  let r1 := -! ($ynm2 -! $ynm3) /! dtnm3 +! ($ynm1 -! $ynm2) /! dtnm2 in
  let x3 := (-! p1) /! (dtnm1 + dtnm2) +! q1 /! (dtn + dtnm1) in
  let y3 := (-! r1) /! (dtnm2 + dtnm3) +! p1 /! (dtnm1 + dtnm2) in
  $(dtn * (dtn + dtnm1)) *! x3 /! (dtn + dtnm1 + dtnm2)
  +! $(dtn + dtnm1 + dtnm2)
       *! ($(dtn * (dtn + dtnm1))
             *! (x3 /! (dtn + dtnm1 + dtnm2) -! y3 /! (dtnm1 + dtnm2 + dtnm3)))
       /! (dtn + dtnm1 + dtnm2 + dtnm3)
  +! $dtn *! q1 /! (dtn + dtnm1)
  +! d1.

(** [ebdf3_dynm1_step]: the step of explicit BDF3 written with the
    derivative at [ts[-3]].  Every coefficient is a sum of float quotients
    by the same denominator [den]. *)
Definition ebdf3_dynm1_step (ts : list Q) (ys : list Y) (dynm1 : Y)
  : outcome Y :=
  t_np1 <~ idx_neg ts 1 ;;
  t_n <~ idx_neg ts 2 ;;
  let dtn := t_np1 - t_n in
  t_n' <~ idx_neg ts 2 ;;
  t_nm1 <~ idx_neg ts 3 ;;
  let dtnm1 := t_n' - t_nm1 in
  t_nm1' <~ idx_neg ts 3 ;;
  t_nm2 <~ idx_neg ts 4 ;;
  let dtnm2 := t_nm1' - t_nm2 in
  yn <~ idx_neg ys 2 ;;
  ynm1 <~ idx_neg ys 3 ;;
  ynm2 <~ idx_neg ys 4 ;;
  let den := dtnm1^3*dtnm2^2 + dtnm1^2*dtnm2^3 in
  ($(- dtn^3*dtnm1^2*dtnm2) /! den -! $(dtn^3*dtnm1*dtnm2^2) /! den
   -! $(2*dtn^2*dtnm1^3*dtnm2) /! den -! $(3*dtn^2*dtnm1^2*dtnm2^2) /! den
   -! $(dtn^2*dtnm1*dtnm2^3) /! den -! $(dtn*dtnm1^4*dtnm2) /! den
   -! $(2*dtn*dtnm1^3*dtnm2^2) /! den -! $(dtn*dtnm1^2*dtnm2^3) /! den)
    *! $dynm1
  +! ($(dtn^3*dtnm2^2) /! den +! $(3*dtn^2*dtnm1*dtnm2^2) /! den
      +! $(dtn^2*dtnm2^3) /! den +! $(3*dtn*dtnm1^2*dtnm2^2) /! den
      +! $(2*dtn*dtnm1*dtnm2^3) /! den +! $(dtnm1^3*dtnm2^2) /! den
      +! $(dtnm1^2*dtnm2^3) /! den)
       *! $yn
  +! ($(dtn^3*dtnm1^2) /! den -! $(dtn^3*dtnm2^2) /! den
      +! $(2*dtn^2*dtnm1^3) /! den -! $(3*dtn^2*dtnm1*dtnm2^2) /! den
      -! $(dtn^2*dtnm2^3) /! den +! $(dtn*dtnm1^4) /! den
      -! $(3*dtn*dtnm1^2*dtnm2^2) /! den -! $(2*dtn*dtnm1*dtnm2^3) /! den)
       *! $ynm1
  +! ($(- dtn^3*dtnm1^2) /! den -! $(2*dtn^2*dtnm1^3) /! den
      -! $(dtn*dtnm1^4) /! den)
       *! $ynm2.

End FurtherFormulas.

Section FurtherEstimators.
Context {N : Numerics} {S : Type} {W : World S}.
Local Open Scope monad_scope.

(** Estimate LTE using combination of bdf2 and explicit midpoint. From
    oomph-lib and G&S. *)
Definition bdf2_mp_gs_lte_estimate (ts : list Q) (ys : list vec)
  : outcome vec :=
  (t_np1 <~ idx_neg ts 1 ;;
   t_n <~ idx_neg ts 2 ;;
   let dt_n := t_np1 - t_n in
   t_n' <~ idx_neg ts 2 ;;
   t_nm1 <~ idx_neg ts 3 ;;
   let dt_nm1 := t_n' - t_nm1 in
   dtr <~ qdiv dt_n dt_nm1 ;;
   dtrinv <~ qdiv 1 dtr ;;
   y_np1 <~ idx_neg ys 1 ;;
   y_n <~ idx_neg ys 2 ;;
   y_nm1 <~ idx_neg ys 3 ;;
   dy_n <~ bdf2_dydt (drop_last 1 ts) (drop_last 1 ys) ;;
   y_np1_EMR <~ ebdf2_step dt_n y_n dy_n dt_nm1 y_nm1 ;;
   error_weight <~ qdiv ((1 + dtrinv) ^ 2)
                     (1 + 3 * dtrinv + 4 * dtrinv ^ 2 + 2 * dtrinv ^ 3) ;;
   ($error_weight *! ($y_np1 -! $y_np1_EMR))%py)%outcome.

(** [create_random_time_adaptor(base_dt, min_scaling, max_scaling)]: the
    adaptor ignores its arguments. *)
Definition create_random_time_adaptor (base_dt min_scaling max_scaling : Q)
  : M S Q :=
  fun s => let (s1, u) := random_uniform min_scaling max_scaling s in
           (s1, Return (base_dt * u)).

End FurtherEstimators.

(** ** Explicit time stepping *)

(** How [odeint_explicit] starts: with [NotImplementedError] for a method
    it does not know, raised before anything is evaluated, or with the
    run of the chosen stepper. *)
Inductive dispatch (A : Type) : Type :=
| NotImplementedError (msg : string)
| Dispatched (run : A).

Arguments NotImplementedError {A} msg.
Arguments Dispatched {A} run.

Section Explicit.
Context {N : Numerics} {S : Type} {W : World S}.
Local Open Scope monad_scope.

(** The derivative function [func(t, y)] of the explicit steppers. *)
Definition explicit_func : Type := Q -> vec -> M S vec.

(** A stepper is called on [ts+[t_np1]] and [ys+[None]]: the last entry
    of the values is the dummy [None]. *)
Definition explicit_stepper : Type :=
  list Q -> list (option vec) -> explicit_func -> M S vec.

(** An adaptor, called as [time_adaptor(ts, ys, target_error)]. *)
Definition explicit_adaptor (T : Type) : Type :=
  list Q -> list vec -> T -> M S Q.

(** [ys[-k]] read as a value; using the dummy [None] as one is a
    [TypeError]. *)
Definition yval (ys : list (option vec)) (k : nat) : outcome vec :=
  (o <~ idx_neg ys k ;;
   match o with
   | Some y => Return y
   | None => Raise TypeError
   end)%outcome.

Definition emr_step : explicit_stepper :=
  fun ts ys func =>
    t_np1 <- lift (idx_neg ts 1) ;;
    t_n <- lift (idx_neg ts 2) ;;
    let dtn := t_np1 - t_n in
    tn <- lift (idx_neg ts 2) ;;
    yn <- lift (yval ys 2) ;;
    t_np1' <- lift (idx_neg ts 1) ;;
    let tnph := t_np1' + dtn / 2 in
    f_n <- func tn yn ;;
    ynph <- lift ($yn +! $(dtn / 2) *! $f_n)%py ;;
    f_nph <- func tnph ynph ;;
    lift ($yn +! $dtn *! $f_nph)%py.

Definition wrapped_ab2 : explicit_stepper :=
  fun ts ys func =>
    t_np1 <- lift (idx_neg ts 1) ;;
    t_n <- lift (idx_neg ts 2) ;;
    y_n <- lift (yval ys 2) ;;
    t_n1 <- lift (idx_neg ts 2) ;;
    y_n1 <- lift (yval ys 2) ;;
    dy_n <- func t_n1 y_n1 ;;
    t_n2 <- lift (idx_neg ts 2) ;;
    t_nm1 <- lift (idx_neg ts 3) ;;
    t_nm1' <- lift (idx_neg ts 3) ;;
    y_nm1 <- lift (yval ys 3) ;;
    dy_nm1 <- func t_nm1' y_nm1 ;;
    lift (ab2_step (t_np1 - t_n) y_n dy_n (t_n2 - t_nm1) dy_nm1).

(** [wrapped_ebdf2] hands the time [ts[-2]], a float, to [ebdf2_step] as
    its [y_n]; a float in array arithmetic is an array of one entry. *)
Definition wrapped_ebdf2 : explicit_stepper :=
  fun ts ys func =>
    t_np1 <- lift (idx_neg ts 1) ;;
    t_n <- lift (idx_neg ts 2) ;;
    t_as_y <- lift (idx_neg ts 2) ;;
    t_n1 <- lift (idx_neg ts 2) ;;
    y_n1 <- lift (yval ys 2) ;;
    dy_n <- func t_n1 y_n1 ;;
    t_n2 <- lift (idx_neg ts 2) ;;
    t_nm1 <- lift (idx_neg ts 3) ;;
    y_nm1 <- lift (yval ys 3) ;;
    lift (ebdf2_step (t_np1 - t_n) [Fin t_as_y] dy_n (t_n2 - t_nm1) y_nm1).

Definition wrapped_ebdf3 : explicit_stepper :=
  fun ts ys func =>
    t_np1 <- lift (idx_neg ts 1) ;;
    t_n <- lift (idx_neg ts 2) ;;
    y_n <- lift (yval ys 2) ;;
    t_n1 <- lift (idx_neg ts 2) ;;
    y_n1 <- lift (yval ys 2) ;;
    dy_n <- func t_n1 y_n1 ;;
    t_n2 <- lift (idx_neg ts 2) ;;
    t_nm1 <- lift (idx_neg ts 3) ;;
    y_nm1 <- lift (yval ys 3) ;;
    t_nm1' <- lift (idx_neg ts 3) ;;
    t_nm2 <- lift (idx_neg ts 4) ;;
    y_nm2 <- lift (yval ys 4) ;;
    lift (ebdf3_step (t_np1 - t_n) y_n dy_n (t_n2 - t_nm1) y_nm1
            (t_nm1' - t_nm2) y_nm2).

Section ExplicitLoop.
Variable T : Type.
Variable func : explicit_func.
Variable tmax : Q.
Variable stepper : explicit_stepper.
Variable target_error : T.
Variable time_adaptor : option (explicit_adaptor T).

(** One pass of the loop of [_odeint_explicit]. *)
Definition explicit_body (st : loop_state) : M S (pass * loop_state) :=
  let ts := ts_of st in
  let ys := ys_of st in
  let dt := dt_of st in
  t_n <- lift (idx_neg ts 1) ;;
  let t_np1 := t_n + dt in
  y_np1 <- stepper (ts ++ [t_np1]) (map Some ys ++ [None]) func ;;
  match time_adaptor with
  | Some a =>
      adapted <-
        try_except
          (dt' <- a (ts ++ [t_np1]) (ys ++ [y_np1]) target_error ;;
           ret (inl dt'))
          (fun e =>
             match e with
             | FailedTimestepError new_dt =>
                 Some (modify (stderr_write ("Rejected time step" ++ newline)) ;;;
                       ret (inr new_dt))
             | _ => None
             end) ;;
      match adapted with
      | inr new_dt =>
          ret (Rejected, {| ts_of := ts; ys_of := ys; dt_of := new_dt |})
      | inl dt' =>
          ret (Committed, {| ts_of := ts ++ [t_np1]; ys_of := ys ++ [y_np1];
                             dt_of := dt' |})
      end
  | None =>
      ret (Committed, {| ts_of := ts ++ [t_np1]; ys_of := ys ++ [y_np1];
                         dt_of := dt |})
  end.

Fixpoint explicit_loop (fuel : nat) (st : loop_state)
  : M S (list Q * list vec) :=
  match fuel with
  | O => fun s => (s, Timeout)
  | Datatypes.S fuel' =>
      t_n <- lift (idx_neg (ts_of st) 1) ;;
      if Qltb t_n tmax then
        r <- explicit_body st ;;
        explicit_loop fuel' (snd r)
      else ret (ts_of st, ys_of st)
  end.

End ExplicitLoop.

(** [_odeint_explicit]: the source appends to the lists it is given, in
    place, and returns them; the model returns the lists appended to. *)
Definition _odeint_explicit {T : Type} (fuel : nat) (func : explicit_func)
    (ts : list Q) (ys : list vec) (dt tmax : Q) (stepper : explicit_stepper)
    (target_error : T) (time_adaptor : option (explicit_adaptor T))
  : M S (list Q * list vec) :=
  explicit_loop func tmax stepper target_error time_adaptor fuel
    {| ts_of := ts; ys_of := ys; dt_of := dt |}.

(** [while len(ys) < n_start: ts, ys = _odeint_explicit(...)] with
    [starting_dt = 1e-6], neither target error nor adaptor. *)
Fixpoint higher_order_explicit_start_loop (fuel : nat) (steps : nat)
    (n_start : nat) (func : explicit_func) (ts : list Q) (ys : list vec)
  : M S (list Q * list vec) :=
  match steps with
  | O => fun s => (s, Timeout)
  | Datatypes.S steps' =>
      if Nat.ltb (length ys) n_start then
        t_n <- lift (idx_neg ts 1) ;;
        r <- _odeint_explicit fuel func ts ys (1 # 1000000)
               (t_n + (1 # 1000000)) emr_step (@None Q)
               (@None (explicit_adaptor (option Q))) ;;
        higher_order_explicit_start_loop fuel steps' n_start func (fst r) (snd r)
      else ret (ts, ys)
  end.

Definition higher_order_explicit_start (fuel : nat) (n_start : nat)
    (func : explicit_func) (ts : list Q) (ys : list vec)
  : M S (list Q * list vec) :=
  higher_order_explicit_start_loop fuel fuel n_start func ts ys.

(** The stepper and [n_start] of a method name; the names are compared
    as they are, without lower-casing. *)
Definition explicit_method (method : string)
  : option (explicit_stepper * nat) :=
  if String.eqb method "ab2" then Some (wrapped_ab2, 2%nat)
  else if String.eqb method "ebdf2" then Some (wrapped_ebdf2, 2%nat)
  else if String.eqb method "ebdf3" then Some (wrapped_ebdf3, 3%nat)
  else None.

(** Fairly naive implementation of constant step explicit time stepping.
    [y0] is a scalar: [ys = [sp.array([y0], ndmin=1)]].  The call of
    [_odeint_explicit] passes [time_adaptor] by position, where the
    parameter [target_error] stands, and nothing for [time_adaptor]. *)
Definition odeint_explicit (fuel : nat) (func : explicit_func) (y0 : float64)
    (dt tmax : Q) (method : string)
    (time_adaptor : option (explicit_adaptor (option Q)))
    (target_error : option Q)
  : dispatch (M S (list Q * list vec)) :=
  let ts := [0] in
  let ys := [[y0]] in
  match explicit_method method with
  | None =>
      NotImplementedError ("method " ++ method ++ " not implement (yet?)")
  | Some (stepper, n_start) =>
      Dispatched
        (r <- higher_order_explicit_start fuel n_start func ts ys ;;
         _odeint_explicit fuel func (fst r) (snd r) dt tmax stepper
           time_adaptor (@None (explicit_adaptor _)))
  end.

End Explicit.

(** ** The loops with the sum of times as a parameter

    The integration loops again, word for word, except that the sum
    [t_n + dt] of their times is the parameter [fsum]: with the exact sum
    of rationals they are the loops above, with [float_sum] they add
    their times as the machine does.  All other arithmetic is as above. *)
Module Rounded.

Section Integration.
Context {N : Numerics} {S : Type} {W : World S}.
Local Open Scope monad_scope.
(** [fsum t dt]: the float [t + dt]. *)
Variable fsum : Q -> Q -> Q.

Section Loop.
Variable func : @base_residual S.
Variable tmax : Q.
Variable residual_of : @time_residual S.
Variable target_error : option Q.
Variable adaptor : option (@time_adaptor S).
Variable kw : @odeint_kwargs S.
Variable base_dt : Q.

(** One pass of the body of the main timestepping loop. *)
Definition loop_body (st : loop_state) : M S (pass * loop_state) :=
  let ts := ts_of st in
  let ys := ys_of st in
  let dt := dt_of st in
  t_n <- lift (idx_neg ts 1) ;;
  let t_np1 := fsum t_n dt in
  solved <- solve_step func residual_of adaptor kw ts ys dt t_np1 ;;
  match solved with
  | inr dt' => ret (NewtonRetry, {| ts_of := ts; ys_of := ys; dt_of := dt' |})
  | inl y_np1 =>
      new <- match actions_after_timestep kw with
             | Some act => act (ts ++ [t_np1]) (ys ++ [y_np1])
             | None => ret (t_np1, y_np1)
             end ;;
      let new_t_np1 := fst new in
      let new_y_np1 := snd new in
      match adaptor with
      | Some a =>
          adapted <- adapt_step target_error a ts ys new_t_np1 new_y_np1 ;;
          match adapted with
          | inr new_dt =>
              ret (Rejected, {| ts_of := ts; ys_of := ys; dt_of := new_dt |})
          | inl dt' =>
              ret (Committed, {| ts_of := ts ++ [new_t_np1];
                                 ys_of := ys ++ [new_y_np1];
                                 dt_of := dt' |})
          end
      | None =>
          dt' <- (if vary_step kw then step_randomiser base_dt else ret dt) ;;
          ret (Committed, {| ts_of := ts ++ [new_t_np1];
                             ys_of := ys ++ [new_y_np1];
                             dt_of := dt' |})
      end
  end.

(** [while ts[-1] < tmax: ...; return ts, ys]. *)
Fixpoint main_loop (fuel : nat) (st : loop_state)
  : M S (list Q * list vec) :=
  match fuel with
  | O => fun s => (s, Timeout)
  | Datatypes.S fuel' =>
      t_n <- lift (idx_neg (ts_of st) 1) ;;
      if Qltb t_n tmax then
        r <- loop_body st ;;
        main_loop fuel' (snd r)
      else ret (ts_of st, ys_of st)
  end.

(** [reach n st0 s0 st s]: [n] passes of the loop, each entered with
    [ts[-1] < tmax] and ended without an exception, lead from the state
    [st0] in the world [s0] to the state [st] in the world [s]. *)
Inductive reach (st0 : loop_state) (s0 : S)
  : nat -> loop_state -> S -> Prop :=
| reach_here : reach st0 s0 0 st0 s0
| reach_pass : forall n st s t k st' s',
    reach st0 s0 n st s ->
    idx_neg (ts_of st) 1 = Return t ->
    Qltb t tmax = true ->
    loop_body st s = (s', Return (k, st')) ->
    reach st0 s0 (Datatypes.S n) st' s'.

(** [holds_along P fuel st s]: the loop started in the state [st] and the
    world [s] ends within [fuel] passes, by leaving the loop or with an
    exception, and [P] holds of [st] and of every state it reaches. *)
Fixpoint holds_along (P : loop_state -> bool) (fuel : nat)
    (st : loop_state) (s : S) : bool :=
  P st &&
  match fuel with
  | O => false
  | Datatypes.S fuel' =>
      match idx_neg (ts_of st) 1 with
      | Return t_n =>
          if Qltb t_n tmax then
            match loop_body st s with
            | (s', Return r) => holds_along P fuel' (snd r) s'
            | _ => true
            end
          else true
      | _ => true
      end
  end.

End Loop.

(** Underlying function for odeint. *)
Definition _odeint (fuel : nat) (func : @base_residual S)
    (tsin : list Q) (ysin : list vec) (dt tmax : Q)
    (residual_of : @time_residual S) (target_error : option Q)
    (adaptor : option (@time_adaptor S))
    (initialisation_actions : option (@initialisation S))
    (kw : @odeint_kwargs S) : M S (list Q * list vec) :=
  start <- match initialisation_actions with
           | Some init => init func tsin ysin
           | None => ret (tsin, ysin)
           end ;;
  (if vary_step kw
   then if is_not_None adaptor then raise AssertionError else ret tt
   else ret tt) ;;;
  main_loop func tmax residual_of target_error adaptor kw dt fuel
    {| ts_of := fst start; ys_of := snd start; dt_of := dt |}.

(** [while len(ys) < n_start: ts, ys = _odeint(...)]. *)
Fixpoint higher_order_start_loop (fuel : nat) (steps : nat) (n_start : nat)
    (func : @base_residual S) (ts : list Q) (ys : list vec) (dt : Q)
  : M S (list Q * list vec) :=
  match steps with
  | O => fun s => (s, Timeout)
  | Datatypes.S steps' =>
      if Nat.ltb (length ys) n_start then
        t_n <- lift (idx_neg ts 1) ;;
        r <- _odeint fuel func ts ys dt (fsum t_n dt) imr_residual None None
               None default_odeint_kwargs ;;
        higher_order_start_loop fuel steps' n_start func (fst r) (snd r) dt
      else ret (ts, ys)
  end.

(** Run a few steps of imr with a very small timestep ([dt=1e-6]). *)
Definition higher_order_start (fuel : nat) (n_start : nat) : @initialisation S :=
  fun func ts ys =>
    higher_order_start_loop fuel fuel n_start func ts ys (1 # 1000000).

Section ExplicitLoop.
Variable T : Type.
Variable func : @explicit_func S.
Variable tmax : Q.
Variable stepper : @explicit_stepper S.
Variable target_error : T.
Variable time_adaptor : option (@explicit_adaptor S T).

(** One pass of the loop of [_odeint_explicit]. *)
Definition explicit_body (st : loop_state) : M S (pass * loop_state) :=
  let ts := ts_of st in
  let ys := ys_of st in
  let dt := dt_of st in
  t_n <- lift (idx_neg ts 1) ;;
  let t_np1 := fsum t_n dt in
  y_np1 <- stepper (ts ++ [t_np1]) (map Some ys ++ [None]) func ;;
  match time_adaptor with
  | Some a =>
      adapted <-
        try_except
          (dt' <- a (ts ++ [t_np1]) (ys ++ [y_np1]) target_error ;;
           ret (inl dt'))
          (fun e =>
             match e with
             | FailedTimestepError new_dt =>
                 Some (modify (stderr_write ("Rejected time step" ++ newline)) ;;;
                       ret (inr new_dt))
             | _ => None
             end) ;;
      match adapted with
      | inr new_dt =>
          ret (Rejected, {| ts_of := ts; ys_of := ys; dt_of := new_dt |})
      | inl dt' =>
          ret (Committed, {| ts_of := ts ++ [t_np1]; ys_of := ys ++ [y_np1];
                             dt_of := dt' |})
      end
  | None =>
      ret (Committed, {| ts_of := ts ++ [t_np1]; ys_of := ys ++ [y_np1];
                         dt_of := dt |})
  end.

Fixpoint explicit_loop (fuel : nat) (st : loop_state)
  : M S (list Q * list vec) :=
  match fuel with
  | O => fun s => (s, Timeout)
  | Datatypes.S fuel' =>
      t_n <- lift (idx_neg (ts_of st) 1) ;;
      if Qltb t_n tmax then
        r <- explicit_body st ;;
        explicit_loop fuel' (snd r)
      else ret (ts_of st, ys_of st)
  end.

End ExplicitLoop.

Definition _odeint_explicit {T : Type} (fuel : nat) (func : @explicit_func S)
    (ts : list Q) (ys : list vec) (dt tmax : Q) (stepper : @explicit_stepper S)
    (target_error : T) (time_adaptor : option (@explicit_adaptor S T))
  : M S (list Q * list vec) :=
  explicit_loop func tmax stepper target_error time_adaptor fuel
    {| ts_of := ts; ys_of := ys; dt_of := dt |}.

(** [while len(ys) < n_start: ts, ys = _odeint_explicit(...)] with
    [starting_dt = 1e-6], neither target error nor adaptor. *)
Fixpoint higher_order_explicit_start_loop (fuel : nat) (steps : nat)
    (n_start : nat) (func : @explicit_func S) (ts : list Q) (ys : list vec)
  : M S (list Q * list vec) :=
  match steps with
  | O => fun s => (s, Timeout)
  | Datatypes.S steps' =>
      if Nat.ltb (length ys) n_start then
        t_n <- lift (idx_neg ts 1) ;;
        r <- _odeint_explicit fuel func ts ys (1 # 1000000)
               (fsum t_n (1 # 1000000)) emr_step (@None Q)
               (@None (explicit_adaptor (option Q))) ;;
        higher_order_explicit_start_loop fuel steps' n_start func (fst r) (snd r)
      else ret (ts, ys)
  end.

Definition higher_order_explicit_start (fuel : nat) (n_start : nat)
    (func : @explicit_func S) (ts : list Q) (ys : list vec)
  : M S (list Q * list vec) :=
  higher_order_explicit_start_loop fuel fuel n_start func ts ys.

(** Fairly naive implementation of constant step explicit time stepping. *)
Definition odeint_explicit (fuel : nat) (func : @explicit_func S) (y0 : float64)
    (dt tmax : Q) (method : string)
    (time_adaptor : option (@explicit_adaptor S (option Q)))
    (target_error : option Q)
  : dispatch (M S (list Q * list vec)) :=
  let ts := [0] in
  let ys := [[y0]] in
  match explicit_method method with
  | None =>
      NotImplementedError ("method " ++ method ++ " not implement (yet?)")
  | Some (stepper, n_start) =>
      Dispatched
        (r <- higher_order_explicit_start fuel n_start func ts ys ;;
         _odeint_explicit fuel func (fst r) (snd r) dt tmax stepper
           time_adaptor (@None (@explicit_adaptor S _)))
  end.

(** The time reached from [t] by [n] steps of [dt], added one by one as
    the loops do. *)
Fixpoint nth_time (t dt : Q) (n : nat) : Q :=
  match n with
  | O => t
  | Datatypes.S k => fsum (nth_time t dt k) dt
  end.

(** The [n] times that [n] steps of [dt] append after [t]. *)
Definition steps_from (t dt : Q) (n : nat) : list Q :=
  map (nth_time t dt) (seq 1 n).

End Integration.

End Rounded.

(** ** Vocabulary of the properties *)

(** A list of times is strictly increasing. *)
Definition strictly_increasing (ts : list Q) : Prop :=
  forall i j a b, (i < j)%nat ->
    nth_error ts i = Some a -> nth_error ts j = Some b -> a < b.

(** The Newton update [x - solve(J(x), G(x))] and the [k]-th Newton iterate
    from [x0], for a residual, a Jacobian and a solve without effects. *)
Definition newton_update (G : vec -> vec) (Jf : vec -> mat)
    (solve : mat -> vec -> outcome vec) (x : vec) : outcome vec :=
  (dx <~ solve (Jf x) (G x) ;; v_sub x dx)%outcome.

Fixpoint newton_iterate (G : vec -> vec) (Jf : vec -> mat)
    (solve : mat -> vec -> outcome vec) (k : nat) (x0 : vec) : outcome vec :=
  match k with
  | O => Return x0
  | Datatypes.S k' =>
      (x1 <~ newton_update G Jf solve x0 ;;
       newton_iterate G Jf solve k' x1)%outcome
  end.

(** What a failed Newton solve writes to stderr before the retry. *)
Definition failure_message : string :=
  ("Failed to converge, reducing time step." ++ newline)%string.

(** The state a retry goes on with: the lists as they were, a new [dt]. *)
Definition retry_state (st : loop_state) (dt' : Q) : loop_state :=
  {| ts_of := ts_of st; ys_of := ys_of st; dt_of := dt' |}.

(** The lists of a loop state are a trajectory: of equal length, with
    strictly increasing times. *)
Definition well_formed (st : loop_state) : Prop :=
  length (ts_of st) = length (ys_of st) /\ strictly_increasing (ts_of st).

(** The sum [fsum] of the last time and the step of a loop state is
    above the last time: the step is not absorbed. *)
Definition step_felt (fsum : Q -> Q -> Q) (st : loop_state) : bool :=
  match idx_neg (ts_of st) 1 with
  | Return t => Qltb t (fsum t (dt_of st))
  | _ => true
  end.

(** An initialisation that only extends the lists it is given. *)
Definition extending {S : Type} (init : @initialisation S) : Prop :=
  forall func ts ys s s' r,
    init func ts ys s = (s', Return r) ->
    exists ta ya, fst r = ts ++ ta /\ snd r = ys ++ ya.

(** The error of the factory for a label it does not know. *)
Definition not_recognised (label : string) : exn :=
  ValueError ("Method '" ++ label ++ "' not recognised.")%string.

(** The scheme names the specification lists as supported. *)
Definition spec_scheme_names : list string :=
  ["bdf1"; "bdf2"; "bdf3"; "bdf2-mp"; "bdf2-ebdf3"; "imr"; "imr-ebdf3";
   "imr-w18"; "trapezoid"; "tr-ab"]%string.

(** The labels the factory of the code recognises, after lower-casing. *)
Definition code_scheme_labels : list string :=
  ["bdf2"; "bdf3"; "bdf2 mp"; "bdf2 ebdf3"; "bdf1"; "imr"; "imr ebdf3";
   "imr w18"; "trapezoid"; "tr"; "tr ab"]%string.

(** A polynomial with the coefficients [cs], lowest degree first, and
    its derivative. *)
Fixpoint poly (cs : list Q) (t : Q) : Q :=
  match cs with
  | [] => 0
  | c :: rest => c + t * poly rest t
  end.

Fixpoint poly_deriv (cs : list Q) (t : Q) : Q :=
  match cs with
  | [] => 0
  | c :: rest => poly rest t + t * poly_deriv rest t
  end.

(** The values of a scalar problem: arrays of one entry. *)
Definition scalars (ys : list Q) : list vec := map (fun y => [Fin y]) ys.

(** The exact derivative of a polynomial, as a [dydt_func] without
    effects. *)
Definition poly_dydt {S : Type} (cs : list Q) : @dydt_fn S :=
  fun t _ => ret [Fin (poly_deriv cs t)].

(** The residual [a * x - b], entry by entry, without effects. *)
Definition affine_residual {S : Type} (a b : Q) : @residual_fn S :=
  fun x => ret (map (fun xi => f_sub (f_mul (Fin a) xi) (Fin b)) x).

(** The residual [dydt + lam y - c] of the linear problem
    [dy/dt = c - lam y], without effects. *)
Definition linear_residual {S : Type} (lam c : Q) : @base_residual S :=
  fun _ y dydt => lift ($dydt +! $lam *! $y -! $[Fin c])%py.

(** The derivative function [dy/dt = a + b t], without effects. *)
Definition linear_in_time {S : Type} (a b : Q) : @explicit_func S :=
  fun t _ => ret [Fin (a + b * t)].

(** The time reached from [t] by [n] steps of [dt], added one by one as
    the loops do. *)
Fixpoint nth_time (t dt : Q) (n : nat) : Q :=
  match n with
  | O => t
  | Datatypes.S k => nth_time t dt k + dt
  end.

(** The [n] times that [n] steps of [dt] append after [t]. *)
Definition steps_from (t dt : Q) (n : nat) : list Q :=
  map (nth_time t dt) (seq 1 n).

Section RunVocabulary.
Context {N : Numerics} {S : Type} {W : World S}.
Variable func : @base_residual S.
Variable residual_of : @time_residual S.
Variable target_error : option Q.
Variable adaptor : option (@time_adaptor S).
Variable kw : @odeint_kwargs S.
Variable base_dt : Q.

(** [retries st0 s0 n st s]: [n] passes in a row that each end in a
    Newton retry lead from [st0] in [s0] to [st] in [s]. *)
Inductive retries (st0 : loop_state) (s0 : S)
  : nat -> loop_state -> S -> Prop :=
| retries_none : retries st0 s0 0 st0 s0
| retries_more : forall n st s st' s',
    retries st0 s0 n st s ->
    loop_body func residual_of target_error adaptor kw base_dt st s
      = (s', Return (NewtonRetry, st')) ->
    retries st0 s0 (Datatypes.S n) st' s'.

End RunVocabulary.

(** The labels of the schemes without a timestep adaptor. *)
Definition fixed_step_labels : list string :=
  ["bdf2"; "bdf3"; "bdf1"; "imr"; "trapezoid"; "tr"]%string.

(** The number of trajectory points a fixed-step scheme asks
    [higher_order_start] for, if it has initialisation actions. *)
Definition start_points (label : string) : option nat :=
  if (label =? "bdf3")%string then Some 3%nat
  else if ((label =? "bdf2") || (label =? "trapezoid") || (label =? "tr"))%string
       then Some 2%nat else None.

(** The method names [odeint_explicit] knows. *)
Definition explicit_methods : list string := ["ab2"; "ebdf2"; "ebdf3"]%string.

Section NewtonVocabulary.
Context {N : Numerics} {S : Type} {W : World S}.

(** The Jacobian function and the solve function that [newton] hands to
    [_newton]. *)
Definition jacobian_used (residual : @residual_fn S)
    (jacobian_func : option (@jacobian_fn S)) (kw : newton_kwargs S)
  : @jacobian_fn S :=
  match jacobian_func with
  | None => fun x => finite_diff_jacobian residual x (jacobian_fd_eps kw)
  | Some jf => jf
  end.

Definition solve_used (kw : newton_kwargs S) : @solve_fn S :=
  wrapped_solve
    match solve_function kw with
    | None => fun A b => lift (linalg_solve A b)
    | Some sf => sf
    end.

Variable residual : @residual_fn S.
Variable jacobian : @jacobian_fn S.
Variable solve : @solve_fn S.
Variable tol : Q.

(** [updates k x0 s0 x s]: [k] Newton updates in a row lead from the
    iterate [x0] in the world [s0] to the iterate [x] in the world [s]:
    each of them evaluates the residual, finds that it does not meet the
    tolerance, evaluates the Jacobian, solves and subtracts, and none of
    these raises. *)
Inductive updates : nat -> vec -> S -> vec -> S -> Prop :=
| updates_none : forall x s, updates 0 x s x s
| updates_more : forall k x0 s0 s1 r s2 J s3 dx x1 x s,
    residual x0 s0 = (s1, Return r) ->
    below_tol r tol = Return false ->
    jacobian x0 s1 = (s2, Return J) ->
    solve J r s2 = (s3, Return dx) ->
    v_sub x0 dx = Return x1 ->
    updates k x1 s3 x s ->
    updates (Datatypes.S k) x0 s0 x s.

(** [call_raises x s e s']: in the update from the iterate [x] in the
    world [s], one of the three calls (of the residual; of the Jacobian
    function or of the solve function, once the residual has not met the
    tolerance) raises [e] and leaves the world [s']. *)
Definition call_raises (x : vec) (s : S) (e : exn) (s' : S) : Prop :=
  residual x s = (s', Raise e)
  \/ exists s1 r,
       residual x s = (s1, Return r) /\ below_tol r tol = Return false /\
       (jacobian x s1 = (s', Raise e)
        \/ exists s2 J, jacobian x s1 = (s2, Return J) /\
                        solve J r s2 = (s', Raise e)).

End NewtonVocabulary.

(** ** A concrete world and concrete numerics

    Executable instances of [Numerics] and [World], on which the
    definitions above can be run. *)
Module Sample.

(** The largest [r >= 0] with [r ^ k <= n], by bisection. *)
Fixpoint bisect (fuel : nat) (k n lo hi : Z) : Z :=
  match fuel with
  | O => lo
  | Datatypes.S fuel' =>
      if (hi - lo <=? 1)%Z then lo
      else let mid := ((lo + hi) / 2)%Z in
           if (mid ^ k <=? n)%Z then bisect fuel' k n mid hi
           else bisect fuel' k n lo mid
  end.

Definition iroot (k n : Z) : Z :=
  bisect (Datatypes.S (Z.to_nat (Z.log2_up (n + 1)))) k n 0 (n + 1).

(** The [k]-th root of a non-negative rational, exact when numerator
    and denominator are [k]-th powers. *)
Definition Qroot (k : positive) (x : Q) : Q :=
  let x := Qred x in
  Qmake (iroot (Zpos k) (Qnum x)) (Z.to_pos (iroot (Zpos k) (Zpos (Qden x)))).

(** [x ** p]: zero to a negative power is a [ZeroDivisionError], a
    negative number to a fractional power a [ValueError]. *)
Definition pow (x p : Q) : outcome Q :=
  let p := Qred p in
  if Qeq_bool x 0 && Qltb p 0 then Raise ZeroDivisionError
  else if Qltb x 0 && negb (Pos.eqb (Qden p) 1)
       then Raise (ValueError "negative number cannot be raised to a fractional power")
       else if Qltb x 0 then Return (Qred (x ^ Qnum p))
            else Return (Qred (Qroot (Qden p) x ^ Qnum p)).

Definition det2 (a b c d : float64) : float64 :=
  f_sub (f_mul a d) (f_mul b c).

Definition is_zero (x : float64) : bool :=
  match x with Fin q => Qeq_bool q 0 | _ => false end.

(** Dense solve of the 2-by-2 systems the examples use, by Cramer's rule;
    a singular matrix is a [LinAlgError], another shape a [ValueError]. *)
Definition solve (A : mat) (b : vec) : outcome vec :=
  match A, b with
  | [[a11; a12]; [a21; a22]], [b1; b2] =>
      let d := det2 a11 a12 a21 a22 in
      if is_zero d then Raise LinAlgError
      else Return [f_div (det2 b1 a12 b2 a22) d; f_div (det2 a11 b1 a21 b2) d]
  | _, _ => Raise (ValueError "expected a 2-by-2 system")
  end.

Definition square (x : float64) : Q :=
  match x with Fin q => q * q | _ => 0 end.

(** The Euclidean norm of an array of finite entries. *)
Definition norm2 (v : vec) : Q :=
  Qred (Qroot 2 (fold_left Qplus (map square v) 0)).

(** [tnp1 - tn] for consecutive times. *)
Definition ts2dts (ts : list Q) : list Q :=
  map (fun p => snd p - fst p) (combine (drop_last 1 ts) (tl ts)).

Definition almost_equal (a b : Q) : bool :=
  Qltb (Qabs (a - b)) (1 # 1000000000).

(** The Lagrange form of the interpolating polynomial, at [x]. *)
Definition lagrange_weight (xs : list Q) (i : nat) (x : Q) : float64 :=
  fold_left f_mul
    (map (fun j => if Nat.eqb i j then Fin 1
                   else f_div (Fin (x - nth j xs 0))
                              (Fin (nth i xs 0 - nth j xs 0)))
         (seq 0 (length xs)))
    (Fin 1).

Definition interpolate (xs : list Q) (ys : list vec) (x : Q) : outcome vec :=
  match ys with
  | [] => Raise (ValueError "no points")
  | y0 :: _ =>
      fold_left
        (fun acc i => (a <~ acc ;;
                       v_add a (map (f_mul (lagrange_weight xs i x)) (nth i ys [])))%outcome)
        (seq 0 (length xs))
        (Return (map (fun _ => Fin 0) y0))
  end.

#[global] Instance numerics : Numerics := {
  float_pow := pow;
  linalg_solve := solve;
  linalg_norm2 := norm2;
  barycentric_interpolate := interpolate;
  ts2dts := ts2dts;
  assert_almost_equal := almost_equal;
  predictor_param := unit;
  predictor_pair_lte_est := fun _ _ _ _ _ _ _ => Raise TypeError
}.

(** A world that records what is written and counts the random draws;
    every draw of [random.uniform(a, b)] is the midpoint. *)
Record world : Type := {
  stderr : list string;
  stdout : list (mat * vec);
  draws : nat;
  dys : list vec
}.

Definition empty_world : world :=
  {| stderr := []; stdout := []; draws := 0; dys := [] |}.

#[global] Instance sample_world : World world := {
  stderr_write := fun msg w =>
    {| stderr := stderr w ++ [msg]; stdout := stdout w;
       draws := draws w; dys := dys w |};
  print_system := fun A b w =>
    {| stderr := stderr w; stdout := stdout w ++ [(A, b)];
       draws := draws w; dys := dys w |};
  random_uniform := fun a b w =>
    ({| stderr := stderr w; stdout := stdout w;
        draws := Datatypes.S (draws w); dys := dys w |}, (a + b) / 2);
  get_dys := dys;
  set_dys := fun d w =>
    {| stderr := stderr w; stdout := stdout w; draws := draws w; dys := d |}
}.

(** *** Sample problems *)

(** The residual of [dy/dt = 1] up to time 1; after that a residual
    that is 1 whatever the state, so that no Newton solve converges. *)
Definition unit_slope_until_one : @base_residual world :=
  fun t y dydt =>
    if Qle_bool t 1 then lift (v_sub dydt [Fin 1]) else ret [Fin 1].

(** Residuals of a solve in one unknown: already zero, and never zero. *)
Definition zero_residual : @residual_fn world := fun _ => ret [Fin 0].
Definition one_residual : @residual_fn world := fun _ => ret [Fin 1].
Definition zero_jacobian : @jacobian_fn world := fun _ => ret [[Fin 0]].

(** A residual whose evaluation raises [NoConvergence], as the trapezoid
    rule residual does when the Newton solve of its starting step fails. *)
Definition failing_residual : @residual_fn world :=
  fun _ => raise NoConvergence.

(** The same in two unknowns. *)
Definition one_residual2 : @residual_fn world := fun _ => ret [Fin 1; Fin 1].
Definition zero_jacobian2 : @jacobian_fn world :=
  fun _ => ret [[Fin 0; Fin 0]; [Fin 0; Fin 0]].

Definition zero_cap_kwargs : newton_kwargs world := {|
  newton_tol := 1 # 100000000;
  solve_function := None;
  jacobian_fd_eps := 1 # 10000000000;
  max_iter := 0
|}.

(** [newton_failure_reduce_step=True]. *)
Definition retry_kwargs : @odeint_kwargs world := {|
  actions_after_timestep := None;
  newton_failure_reduce_step := true;
  jacobian_func := None;
  vary_step := false;
  newton_kw := default_newton_kwargs
|}.

(** An LTE calculator whose estimate is always 8e-4. *)
Definition constant_lte : @lte_calculator world :=
  fun _ _ => ret [Fin (8 # 10000)].

Definition seed (dt : Q) : loop_state :=
  {| ts_of := [0]; ys_of := [[Fin 0]]; dt_of := dt |}.

(** [odeint(unit_slope_until_one, 0.0, 1.0, dt=0.5, method='bdf1')]. *)
Definition bdf1_run : world * outcome (list Q * list vec) :=
  Eval vm_compute in
    odeint 5 unit_slope_until_one (Scalar (Fin 0)) 1 (1 # 2)
      (MethodName "bdf1") None default_odeint_kwargs empty_world.

Definition bdf1_run_times : list Q :=
  Eval vm_compute in
    match snd bdf1_run with Return r => fst r | _ => [] end.

Definition bdf1_run_values : list vec :=
  Eval vm_compute in
    match snd bdf1_run with Return r => snd r | _ => [] end.

(** *** Sample problems of the explicit integrator and of the helpers *)

(** [dy/dt = 1] for the explicit steppers. *)
Definition constant_slope : @explicit_func world := fun _ _ => ret [Fin 1].

(** [vary_step=True]. *)
Definition vary_kwargs : @odeint_kwargs world := {|
  actions_after_timestep := None;
  newton_failure_reduce_step := false;
  jacobian_func := None;
  vary_step := true;
  newton_kw := default_newton_kwargs
|}.

(** A world whose trapezoid rule residual has stored one derivative. *)
Definition one_derivative_stored : world :=
  {| stderr := []; stdout := []; draws := 0; dys := [[Fin 1]] |}.

(** The Newton solve of [2 x - 4 = 0] from 0, with the defaults. *)
Definition affine_solve : world * outcome vec :=
  Eval vm_compute in
    newton (affine_residual 2 4) [Fin 0] None default_newton_kwargs empty_world.

Definition affine_root : vec :=
  Eval vm_compute in
    match snd affine_solve with Return x => x | _ => [] end.

(** [higher_order_start(2, unit_slope_until_one, [0.0], [y0])]. *)
Definition start_run : world * outcome (list Q * list vec) :=
  Eval vm_compute in
    higher_order_start 5 2 unit_slope_until_one [0] [[Fin 0]] empty_world.

Definition start_result : list Q * list vec :=
  Eval vm_compute in
    match snd start_run with Return r => r | _ => ([], []) end.

(** [odeint_explicit(constant_slope, 1.0, 0.5, 1.0, method='ab2')]. *)
Definition explicit_run : world * outcome (list Q * list vec) :=
  Eval vm_compute in
    match odeint_explicit 10 constant_slope (Fin 1) (1 # 2) 1 "ab2" None None with
    | Dispatched run => run empty_world
    | NotImplementedError _ => (empty_world, Timeout)
    end.

Definition explicit_run_times : list Q :=
  Eval vm_compute in
    match snd explicit_run with Return r => fst r | _ => [] end.

Definition explicit_run_values : list vec :=
  Eval vm_compute in
    match snd explicit_run with Return r => snd r | _ => [] end.

(** One pass of the bdf1 loop with [vary_step=True] and [dt = 0.5]. *)
Definition vary_pass : world * outcome (pass * loop_state) :=
  Eval vm_compute in
    loop_body unit_slope_until_one bdf1_residual None None vary_kwargs
      (1 # 2) (seed (1 # 2)) empty_world.

Definition vary_pass_state : loop_state :=
  Eval vm_compute in
    match snd vary_pass with Return r => snd r | _ => seed 0 end.

(** *** Sample problems of the loops over the sum of floats *)

(** An LTE calculator whose estimate is the cube of the last step, as the
    error of a second order scheme scales. *)
Definition cubic_lte : @lte_calculator world :=
  fun ts _ =>
    (t_np1 <- lift (idx_neg ts 1) ;;
     t_n <- lift (idx_neg ts 2) ;;
     ret [Fin ((t_np1 - t_n) ^ 3)])%monad.

(** The bdf1 loop on [dy/dt = 1] from 0 to 1, adding its times as doubles,
    with [dt = 1], a target error of 1/8 and the adaptor of a second order
    scheme: the step of 1 is rejected, two steps of 0.5 are committed. *)
Definition adaptive_run : world * outcome (list Q * list vec) :=
  Eval vm_compute in
    Rounded.main_loop float_sum unit_slope_until_one 1 bdf1_residual
      (Some (1 # 8)) (Some (general_time_adaptor 2 cubic_lte))
      default_odeint_kwargs 1 5 (seed 1) empty_world.

(** The Newton solve of the first pass of that run, to [t = 1]. *)
Definition first_solve : world * outcome vec :=
  Eval vm_compute in
    newton (step_residual unit_slope_until_one bdf1_residual [0] [[Fin 0]]
              (float_sum 0 1))
      [Fin 0] (J_f_of_y default_odeint_kwargs (float_sum 0 1))
      (newton_kw default_odeint_kwargs) empty_world.

Definition first_solve_value : vec :=
  Eval vm_compute in
    match snd first_solve with Return y => y | _ => [] end.

Definition adaptive_run_times : list Q :=
  Eval vm_compute in
    match snd adaptive_run with Return r => fst r | _ => [] end.

Definition adaptive_run_values : list vec :=
  Eval vm_compute in
    match snd adaptive_run with Return r => snd r | _ => [] end.

(** The residual [y - 1] of an algebraic equation, which does not read
    the derivative. *)
Definition algebraic : @base_residual world :=
  fun _ y _ => lift (v_sub y [Fin 1]).

(** A trajectory that has come to [t = 1e9] with the step [dt = 1e-8]. *)
Definition late_seed : loop_state :=
  {| ts_of := [1000000000]; ys_of := [[Fin 1]]; dt_of := 1 # 100000000 |}.

(** The double nearest to 0.1. *)
Definition tenth : Q := Eval vm_compute in Q_of_float (float_of_Q (1 # 10)).

(** The bdf1 loop on the algebraic problem from 0 to 1 with [dt = 0.1],
    adding its times as doubles: ten steps end at 0.9999999999999999 and
    an eleventh is taken. *)
Definition double_run : world * outcome (list Q * list vec) :=
  Eval vm_compute in
    Rounded._odeint float_sum 15 algebraic [0] [[Fin 1]] tenth 1 bdf1_residual
      None None None default_odeint_kwargs empty_world.

Definition double_run_times : list Q :=
  Eval vm_compute in
    match snd double_run with Return r => fst r | _ => [] end.

Definition double_run_values : list vec :=
  Eval vm_compute in
    match snd double_run with Return r => snd r | _ => [] end.

(** The same with bdf2 and its starting step of 1e-6. *)
Definition double_start_run : world * outcome (list Q * list vec) :=
  Eval vm_compute in
    Rounded._odeint float_sum 15 algebraic [0] [[Fin 1]] tenth 1 bdf2_residual
      None None (Some (Rounded.higher_order_start float_sum 15 2))
      default_odeint_kwargs empty_world.

Definition double_start_run_times : list Q :=
  Eval vm_compute in
    match snd double_start_run with Return r => fst r | _ => [] end.

Definition double_start_run_values : list vec :=
  Eval vm_compute in
    match snd double_start_run with Return r => snd r | _ => [] end.

(** [odeint_explicit(constant_slope, 1.0, 0.1, 1.0, method='ab2')],
    adding its times as doubles. *)
Definition explicit_double_run : world * outcome (list Q * list vec) :=
  Eval vm_compute in
    match Rounded.odeint_explicit float_sum 20 constant_slope (Fin 1) tenth 1
            "ab2" None None with
    | Dispatched run => run empty_world
    | NotImplementedError _ => (empty_world, Timeout)
    end.

Definition explicit_double_run_times : list Q :=
  Eval vm_compute in
    match snd explicit_double_run with Return r => fst r | _ => [] end.

Definition explicit_double_run_values : list vec :=
  Eval vm_compute in
    match snd explicit_double_run with Return r => snd r | _ => [] end.

End Sample.

(** * Properties *)

Ltac munfold := unfold bind, ret, raise, lift, modify, try_except in *.

(** Destruct the computation that the outermost [match] of [H] runs. *)
Ltac run_in H :=
  match type of H with
  | (match ?m with _ => _ end) = _ => destruct m as [? [?|?|]] eqn:?
  end.

(** ** Python floats and lists *)

Lemma Qltb_lt (a b : Q) : Qltb a b = true <-> a < b.
Proof.
  unfold Qltb. rewrite negb_true_iff. split; intro H.
  - apply Qnot_le_lt. intro L. apply Qle_bool_iff in L. congruence.
  - destruct (Qle_bool b a) eqn:E; auto.
    apply Qle_bool_iff in E. apply Qle_not_lt in E. contradiction.
Qed.

Lemma Qltb_ge (a b : Q) : Qltb a b = false <-> b <= a.
Proof. unfold Qltb. rewrite negb_false_iff. apply Qle_bool_iff. Qed.

Lemma Qeq_bool_false (a b : Q) : ~ a == b -> Qeq_bool a b = false.
Proof.
  intro H. destruct (Qeq_bool a b) eqn:E; auto.
  apply Qeq_bool_eq in E. contradiction.
Qed.

Lemma idx_neg_last {A} (l : list A) (x : A) :
  idx_neg l 1 = Return x -> exists pre, l = pre ++ [x].
Proof.
  unfold idx_neg. cbn. destruct (rev l) as [|y r] eqn:E; cbn; [discriminate|].
  intro H. injection H as <-. exists (rev r).
  rewrite <- (rev_involutive l), E. reflexivity.
Qed.

Lemma strictly_increasing_snoc (ts : list Q) (t_n t : Q) :
  strictly_increasing ts -> idx_neg ts 1 = Return t_n -> t_n < t ->
  strictly_increasing (ts ++ [t]).
Proof.
  intros Hs Hl Ht. apply idx_neg_last in Hl as [pre ->].
  intros i j a b Hij Ha Hb.
  assert (Hlen : (j < length ((pre ++ [t_n]) ++ [t]))%nat)
    by (apply nth_error_Some; congruence).
  rewrite length_app in Hlen. cbn in Hlen.
  destruct (Nat.eq_dec j (length (pre ++ [t_n]))) as [Ej|Ej].
  - rewrite nth_error_app2 in Hb by lia. rewrite Ej, Nat.sub_diag in Hb.
    cbn in Hb. injection Hb as <-.
    rewrite nth_error_app1 in Ha by lia.
    rewrite length_app in Ej. cbn in Ej.
    destruct (Nat.eq_dec i (length pre)) as [Ei|Ei].
    + rewrite nth_error_app2 in Ha by lia. rewrite Ei, Nat.sub_diag in Ha.
      cbn in Ha. injection Ha as <-. exact Ht.
    + apply Qlt_trans with t_n; [|exact Ht].
      apply (Hs i (length pre) a t_n); [lia|exact Ha|].
      rewrite nth_error_app2 by lia. rewrite Nat.sub_diag. reflexivity.
  - rewrite nth_error_app1 in Hb by lia. rewrite nth_error_app1 in Ha by lia.
    exact (Hs i j a b Hij Ha Hb).
Qed.

Lemma strictly_increasing_singleton (t : Q) : strictly_increasing [t].
Proof.
  intros i j a b Hij Ha Hb.
  assert (j < 1)%nat by (apply (nth_error_Some [t]); congruence). lia.
Qed.

(** ** Step-size controller *)

Section ControllerProperties.
Context {N : Numerics}.

(** What [scale_timestep] does with [failed_timestep_scaling]: half the
    step, capped at the maximum, or the underflow error; the rejection
    test does not apply. *)
Lemma scale_timestep_failed (dt : Q) (te en : option Q) (order : option Z) :
  scale_timestep dt te en order failed_timestep_scaling_fn =
  let new_dt := TIMESTEP_FAILURE_DT_SCALING_FACTOR * dt in
  if Qltb MAX_ALLOWED_TIMESTEP new_dt then Return MAX_ALLOWED_TIMESTEP
  else if Qltb new_dt MIN_ALLOWED_TIMESTEP
       then Raise (ConvergenceFailure new_dt)
       else Return new_dt.
Proof. reflexivity. Qed.


(** A factor below [MIN_ALLOWED_DT_SCALING_FACTOR] from a scaling function
    other than [failed_timestep_scaling] rejects the step with
    [new_dt = factor * dt], which is not compared with the bounds. *)
Lemma scale_timestep_rejects
    (dt : Q) (te en : option Q) (order : option Z) (f : scaling_function) (sf : Q) :
  call_scaling f te en order = Return sf ->
  is_failed_timestep_scaling f = false ->
  sf < MIN_ALLOWED_DT_SCALING_FACTOR ->
  scale_timestep dt te en order f = Raise (FailedTimestepError (sf * dt)).
Proof.
  intros Hc Hf Hlt. unfold scale_timestep. rewrite Hc, Hf. cbn [obind].
  apply Qltb_lt in Hlt. rewrite Hlt. reflexivity.
Qed.

End ControllerProperties.


(** C2 (the code at a failing input): with [dt = 1e-8], a target error of
    1e-4, an error norm of 8e-4 and order 2, the error-based factor is
    [(1/8) ** (1/3) = 0.5]; the controller rejects the step and hands
    [new_dt = 5e-9], below [MIN_ALLOWED_TIMESTEP], to its caller, and a pass
    of the integration loop whose adaptor hits this case adopts 5e-9 as
    its next [dt]. *)
Theorem rejected_step_below_minimum_timestep :
  scale_timestep (N := Sample.numerics) (1 # 100000000)
    (Some (1 # 10000)) (Some (8 # 10000)) (Some 2%Z) default_dt_scaling_fn
  = Raise (FailedTimestepError (1 # 200000000))
  /\ (1 # 200000000) < MIN_ALLOWED_TIMESTEP
  /\ snd (loop_body Sample.unit_slope_until_one bdf1_residual (Some (1 # 10000))
            (Some (general_time_adaptor 2 Sample.constant_lte))
            default_odeint_kwargs 1 (Sample.seed (1 # 100000000))
            Sample.empty_world)
     = Return (Rejected, Sample.seed (1 # 200000000)).
Proof. repeat split; vm_compute; reflexivity. Qed.

(** C3 (the code at a failing input): with [dt = 1], a target error of 1,
    an error norm of 1e-6 and order 2 the factor is [1e6 ** (1/3) = 100];
    [new_dt] is computed before the factor is clamped to
    [MAX_ALLOWED_DT_SCALING_FACTOR], so the controller returns
    [100 * dt], more than [3 * dt]. *)
Theorem scaling_clamp_not_applied_to_new_dt :
  scale_timestep (N := Sample.numerics) 1
    (Some 1) (Some (1 # 1000000)) (Some 2%Z) default_dt_scaling_fn
  = Return 100
  /\ MAX_ALLOWED_DT_SCALING_FACTOR * 1 < 100.
Proof. split; vm_compute; reflexivity. Qed.

(** ** BDF2 derivative *)

(** C9: on the values of a polynomial of degree at most 2 at three strictly
    increasing times, whatever their spacing (and whatever precedes them in
    the history), [bdf2_dydt] returns the derivative of the polynomial at
    the last time, in exact rational arithmetic. *)
Theorem bdf2_dydt_exact_on_quadratics :
  forall (a b c t0 t1 t2 : Q) (pre_t pre_y : list Q),
    t0 < t1 -> t1 < t2 ->
    exists d,
      bdf2_dydt (pre_t ++ [t0; t1; t2])
        (pre_y ++ [a + b * t0 + c * t0 ^ 2; a + b * t1 + c * t1 ^ 2;
                   a + b * t2 + c * t2 ^ 2]) = Return d
      /\ d == b + 2 * c * t2.
Proof.
  intros a b c t0 t1 t2 pre_t pre_y H01 H12.
  unfold bdf2_dydt, idx_neg. rewrite !rev_app_distr.
  cbn [rev app nth_error pred obind].
  unfold omul, osub, oadd, qdiv. cbn [obind].
  assert (E1 : ~ t2 - t1 == 0) by lra.
  assert (E2 : ~ t2 - t1 + (t1 - t0) == 0) by lra.
  assert (E3 : ~ (t2 - t1) * (t1 - t0) == 0) by (intro E; nra).
  assert (E4 : ~ (t2 - t1 + (t1 - t0)) * (t1 - t0) == 0) by (intro E; nra).
  rewrite (Qeq_bool_false E1), (Qeq_bool_false E2),
    (Qeq_bool_false E3), (Qeq_bool_false E4).
  cbn. eexists. split; [reflexivity|].
  field. repeat split; lra.
Qed.

(** The times 0, 1, 3 and the polynomial [2 - t + 3 t^2]. *)
Lemma bdf2_dydt_exact_on_quadratics_witness :
  exists d,
    bdf2_dydt ([] ++ [0; 1; 3])
      ([] ++ [2 + -1 * 0 + 3 * 0 ^ 2; 2 + -1 * 1 + 3 * 1 ^ 2;
              2 + -1 * 3 + 3 * 3 ^ 2]) = Return d
    /\ d == -1 + 2 * 3 * 3.
Proof.
  apply (@bdf2_dydt_exact_on_quadratics 2 (-1) 3 0 1 3 [] []); reflexivity.
Defined.

(** ** Newton solver *)

Section NewtonProperties.
Context {N : Numerics} {S : Type} {W : World S}.

Lemma below_tol_not_NoConvergence (r : vec) (tol : Q) :
  below_tol r tol <> Raise NoConvergence.
Proof. unfold below_tol, amax. destruct (v_abs r); cbn; discriminate. Qed.

Lemma broadcast2_not_NoConvergence f (a b : vec) :
  broadcast2 f a b <> Raise NoConvergence.
Proof.
  unfold broadcast2. destruct (Nat.eqb _ _); [discriminate|].
  destruct a as [|x [|? ?]]; destruct b as [|y [|? ?]]; discriminate.
Qed.

(** A guess that meets the tolerance is returned after the one residual
    evaluation, whatever the Jacobian and solve functions are. *)
Lemma _newton_rec_converged
    (residual : residual_fn) (x0 : vec) (jf : jacobian_fn) (tol : Q)
    (sf : solve_fn) (n : nat) (s s1 : S) (r : vec) :
  residual x0 s = (s1, Return r) ->
  below_tol r tol = Return true ->
  _newton_rec residual x0 jf tol sf (Datatypes.S n) s = (s1, Return x0).
Proof.
  intros Hr Hb. cbn [_newton_rec]. munfold. rewrite Hr, Hb. reflexivity.
Qed.

Lemma newton_converged
    (residual : residual_fn) (x0 : vec) (jf : option jacobian_fn)
    (kw : newton_kwargs S) (s s1 : S) (r : vec) :
  (1 <= max_iter kw)%Z ->
  residual x0 s = (s1, Return r) ->
  below_tol r (newton_tol kw) = Return true ->
  newton residual x0 jf kw s = (s1, Return x0).
Proof.
  intros Hm Hr Hb. unfold newton, _newton.
  destruct (Z.to_nat (max_iter kw)) as [|n] eqn:E; [lia|].
  eapply _newton_rec_converged; eauto.
Qed.

Lemma newton_no_iterations
    (residual : residual_fn) (x0 : vec) (jf : option jacobian_fn)
    (kw : newton_kwargs S) (s : S) :
  (max_iter kw <= 0)%Z ->
  newton residual x0 jf kw s = (s, Raise NoConvergence).
Proof.
  intros Hm. unfold newton, _newton.
  replace (Z.to_nat (max_iter kw)) with O by lia. reflexivity.
Qed.

(** For a residual, a Jacobian and a solve without effects: the solver
    raises [NoConvergence] exactly when all [n] updates can be computed
    and none of the iterates [x0 .. x(n-1)] meets the tolerance. *)
Lemma _newton_rec_fails_iff
    (G : vec -> vec) (Jf : vec -> mat) (solve : mat -> vec -> outcome vec)
    (tol : Q) (n : nat) (x0 : vec) (s : S) :
  (forall A b, solve A b <> Raise NoConvergence) ->
  (_newton_rec (fun x => ret (G x)) x0 (fun x => ret (Jf x)) tol
     (fun A b => lift (solve A b)) n s = (s, Raise NoConvergence)
   <->
   ((exists xn, newton_iterate G Jf solve n x0 = Return xn) /\
    forall k, (k < n)%nat ->
      exists xk, newton_iterate G Jf solve k x0 = Return xk /\
                 below_tol (G xk) tol = Return false)).
Proof.
  intros Hsolve. revert x0. induction n as [|n IH]; intros x0.
  - cbn. split; [intros _|reflexivity]. split; [eauto|intros k Hk; lia].
  - cbn [_newton_rec newton_iterate]. unfold newton_update. munfold.
    destruct (below_tol (G x0) tol) as [[|]|e|] eqn:Hb.
    + split; [discriminate|]. intros [_ H].
      destruct (H O) as [xk [Hk Hk']]; [lia|].
      cbn in Hk. injection Hk as <-. congruence.
    + destruct (solve (Jf x0) (G x0)) as [dx|e|] eqn:Hs; cbn [obind].
      * destruct (v_sub x0 dx) as [x1|e|] eqn:Hx; cbn [obind].
        -- rewrite IH. split.
           ++ intros [Hn H]. split; [exact Hn|]. intros [|k] Hk.
              ** exists x0. split; [reflexivity|exact Hb].
              ** cbn [newton_iterate]. unfold newton_update.
                 rewrite Hs. cbn [obind]. rewrite Hx. cbn [obind].
                 apply H. lia.
           ++ intros [Hn H]. split; [exact Hn|]. intros k Hk.
              specialize (H (Datatypes.S k) ltac:(lia)).
              cbn [newton_iterate] in H. unfold newton_update in H.
              rewrite Hs in H. cbn [obind] in H. rewrite Hx in H. exact H.
        -- split.
           ++ intro H. injection H as ->. exfalso.
              exact (broadcast2_not_NoConvergence _ _ _ Hx).
           ++ intros [[xn H] _]. discriminate.
        -- split; [discriminate|]. intros [[xn H] _]. discriminate.
      * split.
        -- intro H. injection H as ->. exfalso. exact (Hsolve _ _ Hs).
        -- intros [[xn H] _]. discriminate.
      * split; [discriminate|]. intros [[xn H] _]. discriminate.
    + split.
      * intro H. injection H as ->. exfalso.
        exact (below_tol_not_NoConvergence _ _ Hb).
      * intros [_ H]. destruct (H O) as [xk [Hk Hk']]; [lia|].
        cbn in Hk. injection Hk as <-. congruence.
    + split; [discriminate|]. intros [_ H].
      destruct (H O) as [xk [Hk Hk']]; [lia|].
      cbn in Hk. injection Hk as <-. congruence.
Qed.

(** [NoConvergence] comes out of the solver in two ways only: after
    [n] updates, none of them from an iterate that met the tolerance; or
    out of a call of the residual, of the Jacobian function or of the
    solve function that raised it. *)
Lemma _newton_rec_no_convergence_iff
    (residual : residual_fn) (jf : jacobian_fn) (sf : solve_fn) (tol : Q)
    (n : nat) :
  forall (x0 : vec) (s s' : S),
    _newton_rec residual x0 jf tol sf n s = (s', Raise NoConvergence)
    <->
    exists k x sk,
      updates residual jf sf tol k x0 s x sk
      /\ ((k = n /\ s' = sk)
          \/ ((k < n)%nat /\ call_raises residual jf sf tol x sk NoConvergence s')).
Proof.
  induction n as [|n IH]; intros x0 s s'.
  - cbn [_newton_rec]. unfold raise. split.
    + intro H. injection H as <-. exists O, x0, s.
      split; [constructor|]. left. auto.
    + intros [k [x [sk [Hu [[-> ->]|[Hk _]]]]]]; [|lia].
      inversion Hu; subst. reflexivity.
  - cbn [_newton_rec]. unfold bind at 1.
    destruct (residual x0 s) as [s1 [r|e|]] eqn:Hres.
    2:{ split.
        - intro H. injection H as <- ->. exists O, x0, s.
          split; [constructor|]. right. split; [lia|]. left. exact Hres.
        - intros [k [x [sk [Hu Hc]]]]. inversion Hu; subst; [|congruence].
          destruct Hc as [[Hk _]|[_ [Hc|[s2 [r [Hc _]]]]]]; [lia| |congruence].
          rewrite Hres in Hc. exact Hc. }
    2:{ split; [discriminate|].
        intros [k [x [sk [Hu Hc]]]]. inversion Hu; subst; [|congruence].
        destruct Hc as [[Hk _]|[_ [Hc|[s2 [r [Hc _]]]]]]; [lia|congruence..]. }
    unfold bind at 1. unfold lift at 1.
    destruct (below_tol r tol) as [[|]|e|] eqn:Hb.
    1,3,4: split;
      [ intro H; try discriminate; injection H as _ ->; exfalso;
        exact (below_tol_not_NoConvergence _ _ Hb)
      | intros [k [x [sk [Hu Hc]]]]; inversion Hu; subst;
        [ destruct Hc as [[Hk _]|[_ [Hc|[s2 [r' [Hc [Hb' _]]]]]]];
          [lia|congruence|congruence]
        | congruence ] ].
    unfold bind at 1.
    destruct (jf x0 s1) as [s2 [J|e|]] eqn:HJ.
    2:{ split.
        - intro H. injection H as <- ->. exists O, x0, s.
          split; [constructor|]. right. split; [lia|]. right.
          exists s1, r. split; [exact Hres|]. split; [exact Hb|]. left. exact HJ.
        - intros [k [x [sk [Hu Hc]]]]. inversion Hu; subst; [|congruence].
          destruct Hc as [[Hk _]|[_ [Hc|[s1' [r' [Hc [_ Hc']]]]]]];
            [lia|congruence|].
          rewrite Hres in Hc. injection Hc as <- <-.
          destruct Hc' as [Hc'|[s3 [J [Hc' _]]]]; congruence. }
    2:{ split; [discriminate|].
        intros [k [x [sk [Hu Hc]]]]. inversion Hu; subst; [|congruence].
        destruct Hc as [[Hk _]|[_ [Hc|[s1' [r' [Hc [_ Hc']]]]]]];
          [lia|congruence|].
        rewrite Hres in Hc. injection Hc as <- <-.
        destruct Hc' as [Hc'|[s3 [J [Hc' _]]]]; congruence. }
    unfold bind at 1.
    destruct (sf J r s2) as [s3 [dx|e|]] eqn:Hs.
    2:{ split.
        - intro H. injection H as <- ->. exists O, x0, s.
          split; [constructor|]. right. split; [lia|]. right.
          exists s1, r. split; [exact Hres|]. split; [exact Hb|]. right.
          exists s2, J. auto.
        - intros [k [x [sk [Hu Hc]]]]. inversion Hu; subst; [|congruence].
          destruct Hc as [[Hk _]|[_ [Hc|[s1' [r' [Hc [_ Hc']]]]]]];
            [lia|congruence|].
          rewrite Hres in Hc. injection Hc as <- <-.
          destruct Hc' as [Hc'|[s3' [J' [Hc' Hc'']]]]; [congruence|].
          rewrite HJ in Hc'. injection Hc' as <- <-. congruence. }
    2:{ split; [discriminate|].
        intros [k [x [sk [Hu Hc]]]]. inversion Hu; subst; [|congruence].
        destruct Hc as [[Hk _]|[_ [Hc|[s1' [r' [Hc [_ Hc']]]]]]];
          [lia|congruence|].
        rewrite Hres in Hc. injection Hc as <- <-.
        destruct Hc' as [Hc'|[s3' [J' [Hc' Hc'']]]]; [congruence|].
        rewrite HJ in Hc'. injection Hc' as <- <-. congruence. }
    unfold bind at 1. unfold lift at 1.
    destruct (v_sub x0 dx) as [x1|e|] eqn:Hx.
    2,3: split;
      [ intro H; try discriminate; injection H as _ ->; exfalso;
        exact (broadcast2_not_NoConvergence _ _ _ Hx)
      | intros [k [x [sk [Hu Hc]]]]; inversion Hu; subst;
        [ destruct Hc as [[Hk _]|[_ [Hc|[s1' [r' [Hc [_ Hc']]]]]]];
          [lia|congruence|];
          rewrite Hres in Hc; injection Hc as <- <-;
          destruct Hc' as [Hc'|[s3' [J' [Hc' Hc'']]]]; [congruence|];
          rewrite HJ in Hc'; injection Hc' as <- <-; congruence
        | congruence ] ].
    rewrite IH. split.
    + intros [k [x [sk [Hu Hc]]]]. exists (Datatypes.S k), x, sk. split.
      * econstructor; eassumption.
      * destruct Hc as [[-> ->]|[Hk Hc]]; [left; auto|right; split; [lia|exact Hc]].
    + intros [k [x [sk [Hu Hc]]]]. inversion Hu; subst.
      * destruct Hc as [[Hk _]|[_ [Hc|[s1' [r' [Hc [_ Hc']]]]]]];
          [lia|congruence|].
        rewrite Hres in Hc. injection Hc as <- <-.
        destruct Hc' as [Hc'|[s3' [J' [Hc' Hc'']]]]; [congruence|].
        rewrite HJ in Hc'. injection Hc' as <- <-. congruence.
      * match goal with
        | H1 : residual x0 s = _, H2 : jf x0 _ = _, H3 : sf _ _ _ = _,
          H4 : v_sub x0 _ = _ |- _ =>
            rewrite Hres in H1; injection H1 as <- <-;
            rewrite HJ in H2; injection H2 as <- <-;
            rewrite Hs in H3; injection H3 as <- <-;
            rewrite Hx in H4; injection H4 as <-
        end.
        exists k0, x, sk. split; [assumption|].
        destruct Hc as [[Hk ->]|[Hk Hc]]; [left; split; [lia|reflexivity]|].
        right. split; [lia|exact Hc].
Qed.

(** A [LinAlgError] of the dense solve, on a system of more than one
    unknown, is printed and raised again. *)
Lemma wrapped_solve_reraises (sf : solve_fn) (A : mat) (b : vec) (s s1 : S) :
  length b <> 1%nat ->
  sf A b s = (s1, Raise LinAlgError) ->
  wrapped_solve sf A b s = (print_system A b s1, Raise LinAlgError).
Proof.
  intros Hlen Hs. unfold wrapped_solve.
  destruct (Nat.eqb_spec (length b) 1) as [E|_]; [contradiction|].
  munfold. rewrite Hs. reflexivity.
Qed.

(** More than one unknown: when the solve of the first update raises
    [LinAlgError], the solver prints the system and ends with
    [LinAlgError], not with [NoConvergence]. *)
Lemma newton_singular_jacobian
    (residual : residual_fn) (x0 : vec) (jac : jacobian_fn)
    (kw : newton_kwargs S) (s s1 s2 s3 : S) (r : vec) (J : mat) :
  (1 <= max_iter kw)%Z ->
  residual x0 s = (s1, Return r) ->
  below_tol r (newton_tol kw) = Return false ->
  length r <> 1%nat ->
  jac x0 s1 = (s2, Return J) ->
  match solve_function kw with
  | None => fun A b => lift (linalg_solve A b)
  | Some sf => sf
  end J r s2 = (s3, Raise LinAlgError) ->
  newton residual x0 (Some jac) kw s = (print_system J r s3, Raise LinAlgError).
Proof.
  intros Hm Hr Hb Hlen HJ Hs. unfold newton, _newton.
  destruct (Z.to_nat (max_iter kw)) as [|n] eqn:E; [lia|].
  cbn [_newton_rec]. unfold bind at 1. rewrite Hr.
  unfold bind at 1. unfold lift at 1. rewrite Hb.
  unfold bind at 1. rewrite HJ.
  unfold bind at 1. erewrite wrapped_solve_reraises by eassumption.
  reflexivity.
Qed.

(** One unknown: the solve is the numpy division [b / A[0][0]], which
    does not raise. *)
Lemma wrapped_solve_scalar (sf : solve_fn) (a b : float64) (s : S) :
  wrapped_solve sf [[a]] [b] s = (s, Return [f_div b a]).
Proof. reflexivity. Qed.

End NewtonProperties.



(** Two unknowns, a residual that is never zero and a zero Jacobian. *)
Lemma newton_singular_jacobian_witness :
  newton Sample.one_residual2 [Fin 0; Fin 0] (Some Sample.zero_jacobian2)
    default_newton_kwargs Sample.empty_world
  = (print_system [[Fin 0; Fin 0]; [Fin 0; Fin 0]] [Fin 1; Fin 1]
       Sample.empty_world,
     Raise LinAlgError).
Proof.
  apply (@newton_singular_jacobian _ _ _ Sample.one_residual2 [Fin 0; Fin 0]
           Sample.zero_jacobian2 default_newton_kwargs
           Sample.empty_world Sample.empty_world Sample.empty_world
           Sample.empty_world [Fin 1; Fin 1] [[Fin 0; Fin 0]; [Fin 0; Fin 0]]);
    try reflexivity; discriminate.
Defined.

(** C5 (the code at a failing input): in one unknown with a zero Jacobian
    entry the wrapped solve returns the non-finite update [inf] without an
    exception, and the solver ends with [NoConvergence], the exception of an
    exhausted iteration cap; in two unknowns the singular Jacobian ends it
    with [LinAlgError]. *)
Theorem scalar_zero_jacobian_is_no_convergence :
  wrapped_solve (fun A b => lift (linalg_solve A b)) [[Fin 0]] [Fin 1]
    Sample.empty_world
  = (Sample.empty_world, Return [PInf])
  /\ snd (newton Sample.one_residual [Fin 0] (Some Sample.zero_jacobian)
            default_newton_kwargs Sample.empty_world)
     = Raise NoConvergence
  /\ snd (newton Sample.one_residual2 [Fin 0; Fin 0] (Some Sample.zero_jacobian2)
            default_newton_kwargs Sample.empty_world)
     = Raise LinAlgError.
Proof. repeat split; vm_compute; reflexivity. Qed.

(** ** Integration loop *)

Section LoopProperties.
Context {N : Numerics} {S : Type} {W : World S}.
Variable func : @base_residual S.
Variable tmax : Q.
Variable residual_of : @time_residual S.
Variable target_error : option Q.
Variable adaptor : option (@time_adaptor S).
Variable kw : @odeint_kwargs S.
Variable base_dt : Q.

Local Abbreviation body :=
  (loop_body func residual_of target_error adaptor kw base_dt).
Local Abbreviation loop :=
  (main_loop func tmax residual_of target_error adaptor kw base_dt).
Local Abbreviation reaches :=
  (reach func tmax residual_of target_error adaptor kw base_dt).
Local Abbreviation solve := (solve_step func residual_of adaptor kw).
Local Abbreviation newton_of st t_n :=
  (newton (step_residual func residual_of (ts_of st) (ys_of st)
             (t_n + dt_of st))).

(** *** The Newton solve of a pass *)

Lemma solve_step_inv ts ys dt t s s' r :
  solve ts ys dt t s = (s', Return r) ->
  match r with
  | inl _ => True
  | inr dt' =>
      scale_timestep dt None None None failed_timestep_scaling_fn = Return dt'
      /\ is_not_None adaptor || newton_failure_reduce_step kw = true
  end.
Proof.
  unfold solve_step. munfold.
  destruct (idx_neg ys 1) as [y_n|e|]; [|discriminate..].
  destruct (newton _ _ _ _ s) as [s1 [y|e|]];
    [intro H; injection H as _ <-; exact I| |discriminate].
  destruct e; try discriminate.
  destruct (is_not_None adaptor || newton_failure_reduce_step kw); [|discriminate].
  destruct (scale_timestep dt None None None failed_timestep_scaling_fn)
    as [d|e|]; [|discriminate..].
  intro H. injection H as _ <-. auto.
Qed.

(** An exception of the Newton solve that the [except] clause does not
    handle leaves the pass. *)
Lemma solve_step_raises ts ys dt t y_n s s1 e :
  idx_neg ys 1 = Return y_n ->
  newton (step_residual func residual_of ts ys t) y_n (J_f_of_y kw t)
    (newton_kw kw) s = (s1, Raise e) ->
  match e with
  | NoConvergence => is_not_None adaptor || newton_failure_reduce_step kw = false
  | _ => True
  end ->
  solve ts ys dt t s = (s1, Raise e).
Proof.
  intros Hy Hn He. unfold solve_step. munfold. rewrite Hy, Hn.
  destruct e; try reflexivity. rewrite He. reflexivity.
Qed.

(** [NoConvergence] with the retry permitted: the step size is scaled by
    [scale_timestep] with [failed_timestep_scaling]. *)
Lemma solve_step_retries ts ys dt t y_n s s1 :
  idx_neg ys 1 = Return y_n ->
  newton (step_residual func residual_of ts ys t) y_n (J_f_of_y kw t)
    (newton_kw kw) s = (s1, Raise NoConvergence) ->
  is_not_None adaptor || newton_failure_reduce_step kw = true ->
  solve ts ys dt t s =
  match scale_timestep dt None None None failed_timestep_scaling_fn with
  | Return dt' => (stderr_write failure_message s1, Return (inr dt'))
  | Raise e => (s1, Raise e)
  | Timeout => (s1, Timeout)
  end.
Proof.
  intros Hy Hn He. unfold solve_step. munfold. rewrite Hy, Hn, He.
  destruct (scale_timestep dt None None None failed_timestep_scaling_fn);
    reflexivity.
Qed.

Lemma loop_body_solve st s t_n :
  idx_neg (ts_of st) 1 = Return t_n ->
  forall s1 e,
    solve (ts_of st) (ys_of st) (dt_of st) (t_n + dt_of st) s = (s1, Raise e) ->
    body st s = (s1, Raise e).
Proof.
  intros Ht s1 e Hs. unfold loop_body. munfold. rewrite Ht, Hs. reflexivity.
Qed.

Lemma loop_body_retry st s t_n s1 dt' :
  idx_neg (ts_of st) 1 = Return t_n ->
  solve (ts_of st) (ys_of st) (dt_of st) (t_n + dt_of st) s
    = (s1, Return (inr dt')) ->
  body st s = (s1, Return (NewtonRetry, retry_state st dt')).
Proof.
  intros Ht Hs. unfold loop_body. munfold. rewrite Ht, Hs. reflexivity.
Qed.

(** *** What a pass does to the state *)

Lemma loop_body_inv st s s' k st' :
  body st s = (s', Return (k, st')) ->
  exists t_n, idx_neg (ts_of st) 1 = Return t_n /\
  match k with
  | Committed =>
      exists new_t new_y,
        ts_of st' = ts_of st ++ [new_t] /\ ys_of st' = ys_of st ++ [new_y] /\
        (actions_after_timestep kw = None -> new_t = t_n + dt_of st) /\
        (adaptor = None -> vary_step kw = false -> dt_of st' = dt_of st)
  | NewtonRetry =>
      ts_of st' = ts_of st /\ ys_of st' = ys_of st /\
      scale_timestep (dt_of st) None None None failed_timestep_scaling_fn
        = Return (dt_of st') /\
      is_not_None adaptor || newton_failure_reduce_step kw = true
  | Rejected =>
      ts_of st' = ts_of st /\ ys_of st' = ys_of st /\ is_not_None adaptor = true
  end.
Proof.
  unfold loop_body. unfold bind at 1. unfold lift at 1.
  destruct (idx_neg (ts_of st) 1) as [t_n|e|] eqn:Ht; [|discriminate..].
  intro H. exists t_n. split; [reflexivity|].
  unfold bind at 1 in H.
  destruct (solve _ _ _ _ s) as [s1 [[y|dt']|e|]] eqn:Hs; [| |discriminate..].
  - unfold bind at 1 in H.
    match type of H with
    | (match ?m with _ => _ end) = _ =>
        destruct m as [s2 [[nt ny]|e|]] eqn:Hact
    end; [|discriminate..].
    cbn [fst snd] in H.
    destruct adaptor as [a|] eqn:Ea.
    + unfold bind at 1 in H.
      destruct (adapt_step target_error a _ _ _ _ s2) as [s3 [[d|d]|e|]];
        [| |discriminate..]; unfold ret in H; injection H as _ <- <-; cbn.
      * exists nt, ny. repeat split; [|discriminate]. intro Hn.
        rewrite Hn in Hact. unfold ret in Hact. injection Hact as _ <- _.
        reflexivity.
      * auto.
    + unfold bind at 1 in H.
      destruct (vary_step kw) eqn:Hv.
      * destruct (step_randomiser base_dt s2) as [s3 [d|e|]]; [|discriminate..].
        unfold ret in H. injection H as _ <- <-. cbn.
        exists nt, ny. repeat split; [|discriminate]. intro Hn.
        rewrite Hn in Hact. unfold ret in Hact. injection Hact as _ <- _.
        reflexivity.
      * unfold ret in H. injection H as _ <- <-. cbn.
        exists nt, ny. repeat split. intro Hn.
        rewrite Hn in Hact. unfold ret in Hact. injection Hact as _ <- _.
        reflexivity.
  - unfold ret in H. injection H as _ <- <-. cbn.
    apply solve_step_inv in Hs. destruct Hs. auto.
Qed.

(** *** Runs *)

(** The lists of a reachable state extend the lists of the first one. *)
Lemma reach_extends st0 s0 n st s :
  reaches st0 s0 n st s ->
  exists ta ya, ts_of st = ts_of st0 ++ ta /\ ys_of st = ys_of st0 ++ ya.
Proof.
  induction 1 as [|n st s t k st' s' Hr IH Ht Hlt Hb].
  - exists [], []. rewrite !app_nil_r. auto.
  - destruct IH as [ta [ya [Ea Eb]]].
    apply loop_body_inv in Hb as [t_n [_ Hk]].
    destruct k.
    + destruct Hk as [nt [ny [E1 [E2 _]]]].
      exists (ta ++ [nt]), (ya ++ [ny]).
      rewrite E1, E2, Ea, Eb, !app_assoc. auto.
    + destruct Hk as [E1 [E2 _]]. exists ta, ya. rewrite E1, E2. auto.
    + destruct Hk as [E1 [E2 _]]. exists ta, ya. rewrite E1, E2. auto.
Qed.

(** Fixed-step runs keep their step size. *)
Lemma reach_fixed_dt st0 s0 n st s :
  adaptor = None -> vary_step kw = false ->
  newton_failure_reduce_step kw = false ->
  reaches st0 s0 n st s -> dt_of st = dt_of st0.
Proof.
  intros Ha Hv Hf. induction 1 as [|n st s t k st' s' Hr IH Ht Hlt Hb]; [reflexivity|].
  apply loop_body_inv in Hb as [t_n [_ Hk]]. destruct k.
  - destruct Hk as [nt [ny [_ [_ [_ Hd]]]]]. rewrite (Hd Ha Hv). exact IH.
  - destruct Hk as [_ [_ [_ Hp]]]. rewrite Ha, Hf in Hp. discriminate.
  - destruct Hk as [_ [_ Hp]]. rewrite Ha in Hp. discriminate.
Qed.

Lemma main_loop_reach st0 s0 n st s :
  reaches st0 s0 n st s ->
  forall fuel, loop (n + fuel) st0 s0 = loop fuel st s.
Proof.
  induction 1 as [|n st s t k st' s' Hr IH Ht Hlt Hb]; intro fuel; [reflexivity|].
  replace (Datatypes.S n + fuel)%nat with (n + Datatypes.S fuel)%nat by lia.
  rewrite IH. cbn [main_loop]. munfold. rewrite Ht, Hlt, Hb. reflexivity.
Qed.

(** A returned trajectory is the one of a reachable state whose last
    time is not below [tmax]. *)
Lemma main_loop_returns fuel :
  forall st0 s0 m st s, reaches st0 s0 m st s ->
  forall s' ts ys, loop fuel st s = (s', Return (ts, ys)) ->
  exists n st', reaches st0 s0 n st' s' /\ ts = ts_of st' /\ ys = ys_of st'
                /\ exists t, idx_neg ts 1 = Return t /\ tmax <= t.
Proof.
  induction fuel as [|fuel IH]; intros st0 s0 m st s Hr s' ts ys H; [discriminate|].
  cbn [main_loop] in H. unfold bind at 1 in H. unfold lift at 1 in H.
  destruct (idx_neg (ts_of st) 1) as [t|e|] eqn:Ht; [|discriminate..].
  destruct (Qltb t tmax) eqn:Hlt.
  - unfold bind at 1 in H.
    destruct (body st s) as [s1 [[k st1]|e|]] eqn:Hb; [|discriminate..].
    cbn [snd] in H. eapply IH; [|exact H]. eapply reach_pass; eauto.
  - unfold ret in H. injection H as <- <- <-.
    exists m, st. repeat split; auto. exists t. split; auto.
    apply Qltb_ge. exact Hlt.
Qed.

(** A pass that raises ends the loop with that exception. *)
Lemma main_loop_raises st0 s0 n st s t e s' :
  reaches st0 s0 n st s ->
  idx_neg (ts_of st) 1 = Return t -> Qltb t tmax = true ->
  body st s = (s', Raise e) ->
  forall fuel, (n < fuel)%nat -> loop fuel st0 s0 = (s', Raise e).
Proof.
  intros Hr Ht Hlt Hb fuel Hf.
  replace fuel with (n + Datatypes.S (fuel - n - 1))%nat by lia.
  rewrite (main_loop_reach Hr). cbn [main_loop]. munfold.
  rewrite Ht, Hlt, Hb. reflexivity.
Qed.

End LoopProperties.

Section LoopClaims.
Context {N : Numerics} {S : Type} {W : World S}.
Variable func : @base_residual S.
Variable tmax : Q.
Variable residual_of : @time_residual S.
Variable target_error : option Q.
Variable adaptor : option (@time_adaptor S).
Variable kw : @odeint_kwargs S.
Variable base_dt : Q.

Local Abbreviation body :=
  (loop_body func residual_of target_error adaptor kw base_dt).
Local Abbreviation loop :=
  (main_loop func tmax residual_of target_error adaptor kw base_dt).
Local Abbreviation reaches :=
  (reach func tmax residual_of target_error adaptor kw base_dt).
Local Abbreviation solve := (solve_step func residual_of adaptor kw).
Local Abbreviation newton_at st t_n y_n :=
  (newton (step_residual func residual_of (ts_of st) (ys_of st)
             (t_n + dt_of st))
          y_n (J_f_of_y kw (t_n + dt_of st)) (newton_kw kw)).

(** A pass whose Newton solve raises an exception that is not handled
    raises it. *)
Lemma loop_body_newton_raises st s s1 t_n y_n e :
  idx_neg (ts_of st) 1 = Return t_n ->
  idx_neg (ys_of st) 1 = Return y_n ->
  newton_at st t_n y_n s = (s1, Raise e) ->
  match e with
  | NoConvergence => is_not_None adaptor || newton_failure_reduce_step kw = false
  | _ => True
  end ->
  body st s = (s1, Raise e).
Proof.
  intros Ht Hy Hn He. eapply loop_body_solve; [exact Ht|].
  eapply solve_step_raises; eassumption.
Qed.

(** A pass whose Newton solve does not converge, with the retry
    permitted. *)
Lemma loop_body_newton_failure st s s1 t_n y_n :
  idx_neg (ts_of st) 1 = Return t_n ->
  idx_neg (ys_of st) 1 = Return y_n ->
  newton_at st t_n y_n s = (s1, Raise NoConvergence) ->
  is_not_None adaptor || newton_failure_reduce_step kw = true ->
  body st s =
  match scale_timestep (dt_of st) None None None failed_timestep_scaling_fn with
  | Return dt' =>
      (stderr_write failure_message s1, Return (NewtonRetry, retry_state st dt'))
  | Raise e => (s1, Raise e)
  | Timeout => (s1, Timeout)
  end.
Proof.
  intros Ht Hy Hn Hp.
  assert (Hs :
    solve (ts_of st) (ys_of st) (dt_of st) (t_n + dt_of st) s =
    match scale_timestep (dt_of st) None None None failed_timestep_scaling_fn with
    | Return dt' => (stderr_write failure_message s1, Return (inr dt'))
    | Raise e => (s1, Raise e)
    | Timeout => (s1, Timeout)
    end) by (eapply solve_step_retries; eassumption).
  destruct (scale_timestep (dt_of st) None None None failed_timestep_scaling_fn)
    as [d|e|].
  - eapply loop_body_retry; eassumption.
  - eapply loop_body_solve; eassumption.
  - unfold loop_body. munfold. rewrite Ht, Hs. reflexivity.
Qed.

(** A pass whose adaptor raises anything but [FailedTimestepError]
    raises it. *)
Lemma loop_body_adaptor_raises st s s1 s2 t_n y_np1 a e :
  idx_neg (ts_of st) 1 = Return t_n ->
  solve (ts_of st) (ys_of st) (dt_of st) (t_n + dt_of st) s
    = (s1, Return (inl y_np1)) ->
  actions_after_timestep kw = None ->
  adaptor = Some a ->
  a (ts_of st ++ [t_n + dt_of st]) (ys_of st ++ [y_np1]) target_error s1
    = (s2, Raise e) ->
  (forall d, e <> FailedTimestepError d) ->
  body st s = (s2, Raise e).
Proof.
  intros Ht Hs Hact Ha Had He. unfold loop_body. munfold.
  rewrite Ht, Hs, Hact, Ha. cbn [fst snd]. unfold adapt_step. munfold.
  rewrite Had. destruct e; try reflexivity. exfalso. exact (He _ eq_refl).
Qed.

(** C6, amended: when the Newton solve of a pass does not converge and the
    retry is permitted (an adaptor is given, or
    [newton_failure_reduce_step]), the pass scales [dt] by the fixed
    factor 0.5, whatever the adaptor and the target error are.  If
    [0.5 dt] lies in [1e-8, 1e8] the same interval is retried with
    [0.5 dt]; if it exceeds 1e8 the retry uses 1e8; if it is below 1e-8
    the pass raises [ConvergenceFailure] and nothing is retried.  In no
    case does the pass end as a rejected step or raise
    [FailedTimestepError]. *)
Theorem newton_failure_retry_step :
  forall (st : loop_state) (s s1 : S) (t_n : Q) (y_n : vec),
    idx_neg (ts_of st) 1 = Return t_n ->
    idx_neg (ys_of st) 1 = Return y_n ->
    newton_at st t_n y_n s = (s1, Raise NoConvergence) ->
    is_not_None adaptor || newton_failure_reduce_step kw = true ->
    let half := TIMESTEP_FAILURE_DT_SCALING_FACTOR * dt_of st in
    let retry := fun dt' =>
      (stderr_write failure_message s1,
       Return (NewtonRetry, retry_state st dt')) in
    TIMESTEP_FAILURE_DT_SCALING_FACTOR == 1 # 2
    /\ (MIN_ALLOWED_TIMESTEP <= half -> half <= MAX_ALLOWED_TIMESTEP ->
        body st s = retry half)
    /\ (MAX_ALLOWED_TIMESTEP < half -> body st s = retry MAX_ALLOWED_TIMESTEP)
    /\ (half < MIN_ALLOWED_TIMESTEP ->
        body st s = (s1, Raise (ConvergenceFailure half)))
    /\ (forall st', snd (body st s) <> Return (Rejected, st'))
    /\ (forall d, snd (body st s) <> Raise (FailedTimestepError d)).
Proof.
  intros st s s1 t_n y_n Ht Hy Hn Hp half retry.
  assert (Hb :
    body st s =
    match scale_timestep (dt_of st) None None None failed_timestep_scaling_fn with
    | Return dt' =>
        (stderr_write failure_message s1, Return (NewtonRetry, retry_state st dt'))
    | Raise e => (s1, Raise e)
    | Timeout => (s1, Timeout)
    end) by (eapply loop_body_newton_failure; eassumption).
  rewrite scale_timestep_failed in Hb. cbv zeta in Hb. fold half in Hb.
  split; [reflexivity|].
  destruct (Qltb MAX_ALLOWED_TIMESTEP half) eqn:Hmax;
    [|destruct (Qltb half MIN_ALLOWED_TIMESTEP) eqn:Hmin].
  - apply Qltb_lt in Hmax.
    assert (Hlow : MIN_ALLOWED_TIMESTEP < half).
    { eapply Qlt_trans; [|exact Hmax]. reflexivity. }
    repeat split.
    + intros _ Hle. exfalso. apply (Qlt_not_le _ _ Hmax Hle).
    + intros _. exact Hb.
    + intros Hlt. exfalso. apply (Qlt_irrefl half).
      eapply Qlt_trans; eassumption.
    + intros st'. rewrite Hb. discriminate.
    + intros d. rewrite Hb. discriminate.
  - apply Qltb_ge in Hmax. apply Qltb_lt in Hmin. repeat split.
    + intros Hle _. exfalso. apply (Qlt_not_le _ _ Hmin Hle).
    + intros Hlt. exfalso. apply (Qlt_not_le _ _ Hlt Hmax).
    + intros _. exact Hb.
    + intros st'. rewrite Hb. discriminate.
    + intros d. rewrite Hb. discriminate.
  - apply Qltb_ge in Hmax, Hmin. repeat split.
    + intros _ _. exact Hb.
    + intros Hlt. exfalso. apply (Qlt_not_le _ _ Hlt Hmax).
    + intros Hlt. exfalso. apply (Qlt_not_le _ _ Hlt Hmin).
    + intros st'. rewrite Hb. discriminate.
    + intros d. rewrite Hb. discriminate.
Qed.


End LoopClaims.

(** Witness and counterexample of C6, on a Newton solve of the sample
    problem after time 1, where it cannot converge. *)

(** C6 (the claim at [dt = 1e-8]): the Newton solve does not converge and
    the retry is permitted, but [0.5 dt] is below [MIN_ALLOWED_TIMESTEP]:
    the pass raises [ConvergenceFailure] and the interval is not retried. *)
Lemma newton_failure_retry_underflow :
  snd (newton (step_residual Sample.unit_slope_until_one bdf1_residual
                 [2] [[Fin 0]] (2 + (1 # 100000000)))
         [Fin 0] (J_f_of_y Sample.retry_kwargs (2 + (1 # 100000000)))
         (newton_kw Sample.retry_kwargs) Sample.empty_world)
  = Raise NoConvergence
  /\ is_not_None (@None (@time_adaptor Sample.world))
       || newton_failure_reduce_step Sample.retry_kwargs = true
  /\ snd (loop_body Sample.unit_slope_until_one bdf1_residual None None
            Sample.retry_kwargs 1
            {| ts_of := [2]; ys_of := [[Fin 0]]; dt_of := 1 # 100000000 |}
            Sample.empty_world)
     = Raise (ConvergenceFailure
                (TIMESTEP_FAILURE_DT_SCALING_FACTOR * (1 # 100000000))).
Proof. repeat split; vm_compute; reflexivity. Qed.

(** The same solve with [dt = 1]: the pass retries with [0.5 * 1]. *)
Lemma newton_failure_retry_step_witness :
  loop_body Sample.unit_slope_until_one bdf1_residual None None
    Sample.retry_kwargs 1
    {| ts_of := [2]; ys_of := [[Fin 0]]; dt_of := 1 |} Sample.empty_world
  = (stderr_write failure_message Sample.empty_world,
     Return (NewtonRetry,
             retry_state {| ts_of := [2]; ys_of := [[Fin 0]]; dt_of := 1 |}
               (TIMESTEP_FAILURE_DT_SCALING_FACTOR * 1))).
Proof.
  apply (proj1 (proj2
    (@newton_failure_retry_step _ _ _ Sample.unit_slope_until_one bdf1_residual
       None None Sample.retry_kwargs 1
       {| ts_of := [2]; ys_of := [[Fin 0]]; dt_of := 1 |}
       Sample.empty_world Sample.empty_world 2 [Fin 0]
       eq_refl eq_refl
       ltac:(vm_compute; reflexivity) eq_refl)));
    vm_compute; discriminate.
Defined.



(** ** The integration loop over the sum of floats *)

(** With the exact sum the loops are the loops of the exact embedding. *)
Lemma exact_sum_loop_body {N : Numerics} {S : Type} {W : World S}
      func residual_of te adaptor (kw : @odeint_kwargs S) base_dt :
  Rounded.loop_body Qplus func residual_of te adaptor kw base_dt
  = loop_body func residual_of te adaptor kw base_dt.
Proof. reflexivity. Qed.

Lemma exact_sum_odeint {N : Numerics} {S : Type} {W : World S} fuel :
  Rounded._odeint Qplus fuel = @_odeint N S W fuel.
Proof. reflexivity. Qed.

Lemma exact_sum_higher_order_start {N : Numerics} {S : Type} {W : World S}
      fuel n_start :
  Rounded.higher_order_start Qplus fuel n_start
  = @higher_order_start N S W fuel n_start.
Proof. reflexivity. Qed.

Lemma exact_sum_odeint_explicit {S : Type} {W : World S} fuel :
  Rounded.odeint_explicit Qplus fuel = odeint_explicit (S := S) fuel.
Proof. reflexivity. Qed.

Section RoundedLoop.
Context {N : Numerics} {S : Type} {W : World S}.
Variable fsum : Q -> Q -> Q.
Variable func : @base_residual S.
Variable tmax : Q.
Variable residual_of : @time_residual S.
Variable target_error : option Q.
Variable adaptor : option (@time_adaptor S).
Variable kw : @odeint_kwargs S.
Variable base_dt : Q.

Local Abbreviation body :=
  (Rounded.loop_body fsum func residual_of target_error adaptor kw base_dt).
Local Abbreviation loop :=
  (Rounded.main_loop fsum func tmax residual_of target_error adaptor kw base_dt).
Local Abbreviation reaches :=
  (Rounded.reach fsum func tmax residual_of target_error adaptor kw base_dt).
Local Abbreviation along :=
  (Rounded.holds_along fsum func tmax residual_of target_error adaptor kw
     base_dt).
Local Abbreviation newton_at st t_n y_n :=
  (newton (step_residual func residual_of (ts_of st) (ys_of st)
             (fsum t_n (dt_of st)))
          y_n (J_f_of_y kw (fsum t_n (dt_of st))) (newton_kw kw)).

Lemma rounded_loop_body_inv st s s' k st' :
  body st s = (s', Return (k, st')) ->
  exists t_n, idx_neg (ts_of st) 1 = Return t_n /\
  match k with
  | Committed =>
      exists new_t new_y,
        ts_of st' = ts_of st ++ [new_t] /\ ys_of st' = ys_of st ++ [new_y] /\
        (actions_after_timestep kw = None -> new_t = fsum t_n (dt_of st)) /\
        (adaptor = None -> vary_step kw = false -> dt_of st' = dt_of st)
  | NewtonRetry =>
      ts_of st' = ts_of st /\ ys_of st' = ys_of st /\
      scale_timestep (dt_of st) None None None failed_timestep_scaling_fn
        = Return (dt_of st') /\
      is_not_None adaptor || newton_failure_reduce_step kw = true
  | Rejected =>
      ts_of st' = ts_of st /\ ys_of st' = ys_of st /\ is_not_None adaptor = true
  end.
Proof.
  unfold Rounded.loop_body. unfold bind at 1. unfold lift at 1.
  destruct (idx_neg (ts_of st) 1) as [t_n|e|] eqn:Ht; [|discriminate..].
  intro H. exists t_n. split; [reflexivity|].
  unfold bind at 1 in H.
  destruct (solve_step func residual_of adaptor kw _ _ _ _ s)
    as [s1 [[y|dt']|e|]] eqn:Hs; [| |discriminate..].
  - unfold bind at 1 in H.
    match type of H with
    | (match ?m with _ => _ end) = _ =>
        destruct m as [s2 [[nt ny]|e|]] eqn:Hact
    end; [|discriminate..].
    cbn [fst snd] in H.
    destruct adaptor as [a|] eqn:Ea.
    + unfold bind at 1 in H.
      destruct (adapt_step target_error a _ _ _ _ s2) as [s3 [[d|d]|e|]];
        [| |discriminate..]; unfold ret in H; injection H as _ <- <-; cbn.
      * exists nt, ny. repeat split; [|discriminate]. intro Hn.
        rewrite Hn in Hact. unfold ret in Hact. injection Hact as _ <- _.
        reflexivity.
      * auto.
    + unfold bind at 1 in H.
      destruct (vary_step kw) eqn:Hv.
      * destruct (step_randomiser base_dt s2) as [s3 [d|e|]]; [|discriminate..].
        unfold ret in H. injection H as _ <- <-. cbn.
        exists nt, ny. repeat split; [|discriminate]. intro Hn.
        rewrite Hn in Hact. unfold ret in Hact. injection Hact as _ <- _.
        reflexivity.
      * unfold ret in H. injection H as _ <- <-. cbn.
        exists nt, ny. repeat split. intro Hn.
        rewrite Hn in Hact. unfold ret in Hact. injection Hact as _ <- _.
        reflexivity.
  - unfold ret in H. injection H as _ <- <-. cbn.
    apply solve_step_inv in Hs. destruct Hs. auto.
Qed.

Lemma rounded_reach_extends st0 s0 n st s :
  reaches st0 s0 n st s ->
  exists ta ya, ts_of st = ts_of st0 ++ ta /\ ys_of st = ys_of st0 ++ ya.
Proof.
  induction 1 as [|n st s t k st' s' Hr IH Ht Hlt Hb].
  - exists [], []. rewrite !app_nil_r. auto.
  - destruct IH as [ta [ya [Ea Eb]]].
    apply rounded_loop_body_inv in Hb as [t_n [_ Hk]].
    destruct k.
    + destruct Hk as [nt [ny [E1 [E2 _]]]].
      exists (ta ++ [nt]), (ya ++ [ny]).
      rewrite E1, E2, Ea, Eb, !app_assoc. auto.
    + destruct Hk as [E1 [E2 _]]. exists ta, ya. rewrite E1, E2. auto.
    + destruct Hk as [E1 [E2 _]]. exists ta, ya. rewrite E1, E2. auto.
Qed.

Lemma rounded_main_loop_reach st0 s0 n st s :
  reaches st0 s0 n st s ->
  forall fuel, loop (n + fuel) st0 s0 = loop fuel st s.
Proof.
  induction 1 as [|n st s t k st' s' Hr IH Ht Hlt Hb]; intro fuel; [reflexivity|].
  replace (Datatypes.S n + fuel)%nat with (n + Datatypes.S fuel)%nat by lia.
  rewrite IH. cbn [Rounded.main_loop]. munfold. rewrite Ht, Hlt, Hb. reflexivity.
Qed.

Lemma rounded_main_loop_returns fuel :
  forall st0 s0 m st s, reaches st0 s0 m st s ->
  forall s' ts ys, loop fuel st s = (s', Return (ts, ys)) ->
  exists n st', reaches st0 s0 n st' s' /\ ts = ts_of st' /\ ys = ys_of st'
                /\ exists t, idx_neg ts 1 = Return t /\ tmax <= t.
Proof.
  induction fuel as [|fuel IH]; intros st0 s0 m st s Hr s' ts ys H; [discriminate|].
  cbn [Rounded.main_loop] in H. unfold bind at 1 in H. unfold lift at 1 in H.
  destruct (idx_neg (ts_of st) 1) as [t|e|] eqn:Ht; [|discriminate..].
  destruct (Qltb t tmax) eqn:Hlt.
  - unfold bind at 1 in H.
    destruct (body st s) as [s1 [[k st1]|e|]] eqn:Hb; [|discriminate..].
    cbn [snd] in H. eapply IH; [|exact H]. eapply Rounded.reach_pass; eauto.
  - unfold ret in H. injection H as <- <- <-.
    exists m, st. repeat split; auto. exists t. split; auto.
    apply Qltb_ge. exact Hlt.
Qed.

Lemma rounded_main_loop_raises st0 s0 n st s t e s' :
  reaches st0 s0 n st s ->
  idx_neg (ts_of st) 1 = Return t -> Qltb t tmax = true ->
  body st s = (s', Raise e) ->
  forall fuel, (n < fuel)%nat -> loop fuel st0 s0 = (s', Raise e).
Proof.
  intros Hr Ht Hlt Hb fuel Hf.
  replace fuel with (n + Datatypes.S (fuel - n - 1))%nat by lia.
  rewrite (rounded_main_loop_reach Hr). cbn [Rounded.main_loop]. munfold.
  rewrite Ht, Hlt, Hb. reflexivity.
Qed.

(** The first pass of a run of at least one pass. *)
Lemma rounded_reach_first st0 s0 m st s :
  reaches st0 s0 m st s ->
  forall n, m = Datatypes.S n ->
  exists t k st1 s1,
    idx_neg (ts_of st0) 1 = Return t /\ Qltb t tmax = true
    /\ body st0 s0 = (s1, Return (k, st1))
    /\ reaches st1 s1 n st s.
Proof.
  induction 1 as [|m st s t k st' s' Hr IH Ht Hlt Hb]; intros n E; [discriminate|].
  injection E as ->. destruct n as [|n].
  - inversion Hr; subst. exists t, k, st', s'. repeat split; auto. constructor.
  - destruct (IH n eq_refl) as [t0 [k0 [st1 [s1 [H1 [H2 [H3 H4]]]]]]].
    exists t0, k0, st1, s1. repeat split; auto.
    eapply Rounded.reach_pass; eauto.
Qed.

(** What [holds_along] computes holds of every state the loop reaches. *)
Lemma rounded_holds_along_sound (P : loop_state -> bool) fuel :
  forall st0 s0, along P fuel st0 s0 = true ->
  forall n st s, reaches st0 s0 n st s -> P st = true.
Proof.
  induction fuel as [|fuel IH]; intros st0 s0 H n st s Hr.
  - cbn in H. apply andb_true_iff in H as [_ H]. discriminate.
  - cbn [Rounded.holds_along] in H. apply andb_true_iff in H as [HP H].
    destruct n as [|n].
    + inversion Hr; subst. exact HP.
    + destruct (rounded_reach_first Hr eq_refl)
        as [t [k [st1 [s1 [H1 [H2 [H3 H4]]]]]]].
      rewrite H1, H2, H3 in H. cbn [snd] in H.
      exact (IH _ _ H _ _ _ H4).
Qed.

(** A pass whose Newton solve returns and whose adaptor raises
    [FailedTimestepError] ends as a rejected step: the lists stay as they
    were and the step size is the one the exception carries. *)
Lemma rounded_loop_body_rejected st s s1 s2 t_n y_n y_np1 a d :
  actions_after_timestep kw = None ->
  idx_neg (ts_of st) 1 = Return t_n ->
  idx_neg (ys_of st) 1 = Return y_n ->
  newton_at st t_n y_n s = (s1, Return y_np1) ->
  adaptor = Some a ->
  a (ts_of st ++ [fsum t_n (dt_of st)]) (ys_of st ++ [y_np1]) target_error s1
    = (s2, Raise (FailedTimestepError d)) ->
  body st s = (stderr_write ("Rejected time step" ++ newline) s2,
               Return (Rejected, retry_state st d)).
Proof.
  intros Hact Ht Hy Hn Ha Had. unfold Rounded.loop_body, solve_step. munfold.
  rewrite Ht, Hy, Hn, Hact, Ha. cbn [fst snd]. unfold adapt_step. munfold.
  rewrite Had. reflexivity.
Qed.

(** A pass whose Newton solve does not converge, with the retry
    permitted. *)
Lemma rounded_loop_body_newton_failure st s s1 t_n y_n :
  idx_neg (ts_of st) 1 = Return t_n ->
  idx_neg (ys_of st) 1 = Return y_n ->
  newton_at st t_n y_n s = (s1, Raise NoConvergence) ->
  is_not_None adaptor || newton_failure_reduce_step kw = true ->
  body st s =
  match scale_timestep (dt_of st) None None None failed_timestep_scaling_fn with
  | Return dt' =>
      (stderr_write failure_message s1, Return (NewtonRetry, retry_state st dt'))
  | Raise e => (s1, Raise e)
  | Timeout => (s1, Timeout)
  end.
Proof.
  intros Ht Hy Hn Hp. unfold Rounded.loop_body, solve_step. munfold.
  rewrite Ht, Hy, Hn, Hp.
  destruct (scale_timestep (dt_of st) None None None failed_timestep_scaling_fn);
    reflexivity.
Qed.


End RoundedLoop.


(** C7 (the claim on a step that the time absorbs): at [t = 1e9] the
    positive step [dt = 1e-8] is less than half the spacing of the doubles,
    so the sum of the doubles is [1e9] again; the pass commits it, and the
    times of the state reached are not strictly increasing. *)
Lemma absorbed_step_repeats_a_time :
  0 < dt_of Sample.late_seed
  /\ actions_after_timestep (@default_odeint_kwargs Sample.world) = None
  /\ well_formed Sample.late_seed
  /\ float_sum 1000000000 (1 # 100000000) = 1000000000
  /\ exists st s,
       Rounded.reach float_sum Sample.algebraic 1000000001 bdf1_residual None
         None default_odeint_kwargs (1 # 100000000) Sample.late_seed
         Sample.empty_world 1 st s
       /\ ts_of st = [1000000000; 1000000000]
       /\ dt_of st = dt_of Sample.late_seed
       /\ ~ strictly_increasing (ts_of st).
Proof.
  split; [reflexivity|]. split; [reflexivity|].
  split; [split; [reflexivity|apply strictly_increasing_singleton]|].
  split; [vm_compute; reflexivity|].
  exists {| ts_of := [1000000000; 1000000000]; ys_of := [[Fin 1]; [Fin 1]];
            dt_of := 1 # 100000000 |}, Sample.empty_world.
  split; [|split; [reflexivity|split; [reflexivity|]]].
  - eapply Rounded.reach_pass with (k := Committed);
      [apply Rounded.reach_here|reflexivity|reflexivity|].
    vm_compute. reflexivity.
  - intro H. specialize (H 0%nat 1%nat 1000000000 1000000000).
    cbn in H. specialize (H ltac:(lia) eq_refl eq_refl). discriminate.
Qed.

(** ** Scheme factory and entry point *)

Section FactoryProperties.
Context {N : Numerics} {S : Type} {W : World S}.

Lemma _odeint_extends fuel func tsin ysin dt tmax residual_of target_error
      adaptor (init : option (@initialisation S)) kw s s' ts ys :
  match init with Some i => extending i | None => True end ->
  _odeint fuel func tsin ysin dt tmax residual_of target_error adaptor init kw s
    = (s', Return (ts, ys)) ->
  exists ta ya, ts = tsin ++ ta /\ ys = ysin ++ ya.
Proof.
  intros Hinit H. unfold _odeint in H. unfold bind at 1 in H.
  run_in H; [|discriminate..].
  assert (Hstart : exists ta ya, fst a = tsin ++ ta /\ snd a = ysin ++ ya).
  { destruct init as [i|].
    - eapply Hinit; eassumption.
    - unfold ret in Heqp. injection Heqp as _ <-. exists [], [].
      rewrite !app_nil_r. auto. }
  unfold bind at 1 in H. run_in H; [|discriminate..].
  destruct (main_loop_returns fuel (reach_here _ _ _ _ _ _ _ _ _) H)
    as [n [st' [Hr [-> [-> _]]]]].
  apply reach_extends in Hr as [ta [ya [E1 E2]]]. cbn in E1, E2.
  destruct Hstart as [ta0 [ya0 [F1 F2]]].
  exists (ta0 ++ ta), (ya0 ++ ya). rewrite E1, E2, F1, F2, !app_assoc. auto.
Qed.

Lemma higher_order_start_loop_extends fuel steps :
  forall n_start func ts ys dt s s' r,
    higher_order_start_loop fuel steps n_start func ts ys dt s = (s', Return r) ->
    exists ta ya, fst r = ts ++ ta /\ snd r = ys ++ ya.
Proof.
  induction steps as [|steps IH]; intros n_start func ts ys dt s s' r H;
    [discriminate|].
  cbn [higher_order_start_loop] in H.
  destruct (Nat.ltb (length ys) n_start).
  - unfold bind at 1 in H. unfold lift at 1 in H.
    destruct (idx_neg ts 1) as [t_n|e|]; [|discriminate..].
    unfold bind at 1 in H. run_in H; [|discriminate..].
    destruct a as [ts1 ys1].
    apply _odeint_extends in Heqp as [ta [ya [-> ->]]]; [|exact I].
    apply IH in H as [ta' [ya' [E1 E2]]]. cbn [fst snd] in E1, E2.
    exists (ta ++ ta'), (ya ++ ya'). rewrite E1, E2, !app_assoc. auto.
  - unfold ret in H. injection H as _ <-. exists [], [].
    rewrite !app_nil_r. auto.
Qed.

Lemma higher_order_start_extending fuel n :
  extending (higher_order_start (S := S) fuel n).
Proof.
  intros func ts ys s s' r H. unfold higher_order_start in H.
  eapply higher_order_start_loop_extends; eassumption.
Qed.

(** The initialisation actions of every scheme only extend the lists. *)
Lemma factory_initialisation fuel m (s s' : S) r a i :
  _timestep_scheme_factory fuel m s = (s', Return (r, a, i)) ->
  match i with Some init => extending init | None => True end.
Proof.
  unfold _timestep_scheme_factory.
  destruct (label _) as [l|]; [|discriminate].
  repeat match goal with
         | |- context [if ?b then _ else _] => destruct b
         end;
    munfold; unfold getitem, TrapezoidRuleResidual; munfold;
    repeat match goal with
           | |- context [match ?o with Some _ => _ | None => _ end] => destruct o
           end;
    intro H; try discriminate; inversion H; subst;
    try exact I; apply higher_order_start_extending.
Qed.

(** An exception of the factory is the outcome of [odeint], in the world
    the factory left. *)
Lemma odeint_setup_error fuel func y0 tmax dt m te kw (s s' : S) e :
  _timestep_scheme_factory fuel m s = (s', Raise e) ->
  odeint fuel func y0 tmax dt m te kw s = (s', Raise e).
Proof. intro H. unfold odeint. munfold. rewrite H. reflexivity. Qed.

(** A method given by name behaves as the dict with that label only. *)
Lemma factory_label fuel (m : @method N S) l :
  method_label m = Some l ->
  exists d, _timestep_scheme_factory fuel m
            = _timestep_scheme_factory fuel (MethodDict d)
            /\ label d = Some l
            /\ predictor_params m = predictor_params (MethodDict d).
Proof.
  destruct m as [name|d]; cbn; intro H.
  - injection H as ->. exists (label_only l). repeat split.
  - exists d. repeat split. exact H.
Qed.

Ltac label_cases l Hnot :=
  repeat match goal with
    | |- context [String.eqb (lower l) ?x] =>
        let E := fresh "E" in
        let F := fresh "F" in
        assert (E : String.eqb (lower l) x = false)
          by (apply String.eqb_neq; intro F; apply Hnot; rewrite F; cbn; tauto);
        rewrite E; clear E
    end.

Lemma factory_unknown_label fuel (m : @method N S) l (s : S) :
  method_label m = Some l ->
  ~ In (lower l) code_scheme_labels ->
  _timestep_scheme_factory fuel m s = (s, Raise (not_recognised (lower l))).
Proof.
  intros Hl Hnot. destruct (@factory_label fuel m l Hl) as [d [-> [Hd _]]].
  unfold _timestep_scheme_factory. rewrite Hd.
  label_cases l Hnot. reflexivity.
Qed.

Lemma factory_known_label fuel (m : @method N S) l (s : S) :
  method_label m = Some l ->
  In (lower l) code_scheme_labels ->
  lower l <> "imr w18"%string ->
  exists sch s', _timestep_scheme_factory fuel m s = (s', Return sch).
Proof.
  intros Hl Hin Hw. destruct (@factory_label fuel m l Hl) as [d [-> [Hd _]]].
  unfold _timestep_scheme_factory. rewrite Hd.
  cbn in Hin.
  repeat (destruct Hin as [Hin|Hin];
          [try (rewrite <- Hin; eexists; eexists; reflexivity)|]);
    [|contradiction].
  exfalso. apply Hw. symmetry. exact Hin.
Qed.

Lemma factory_w18 fuel (m : @method N S) l (s : S) :
  method_label m = Some l ->
  lower l = "imr w18"%string ->
  match predictor_params m with
  | Some _ => exists sch, _timestep_scheme_factory fuel m s = (s, Return sch)
  | None =>
      exists key, _timestep_scheme_factory fuel m s = (s, Raise (KeyError key))
  end.
Proof.
  intros Hl Hw. destruct (@factory_label fuel m l Hl) as [d [-> [Hd ->]]].
  unfold _timestep_scheme_factory. rewrite Hd, Hw. cbn [predictor_params].
  destruct (p1_points d), (p1_pred d), (p2_points d), (p2_pred d), (symbolic d);
    eexists; reflexivity.
Qed.

(** C8, amended: the factory lower-cases the label and compares it with
    the labels of the code, which are written with spaces: bdf2, bdf3,
    "bdf2 mp", "bdf2 ebdf3", bdf1, imr, "imr ebdf3", "imr w18", trapezoid,
    tr and "tr ab".  For each of them but "imr w18" the construction
    succeeds and yields the triple of residual, adaptor and initialisation;
    for "imr w18" it succeeds when the method is a dict with the five
    predictor parameters and raises [KeyError] otherwise; for every other
    label it raises [ValueError].  Both errors are the outcome of [odeint]
    in an unchanged world, whatever the residual and the other arguments
    are: no step was attempted and no trajectory was produced. *)
Theorem scheme_factory_labels :
  forall (fuel : nat) (m : @method N S) (l : string) (s : S),
    method_label m = Some l ->
    (In (lower l) code_scheme_labels -> lower l <> "imr w18"%string ->
     exists (sch : scheme) (s' : S),
       _timestep_scheme_factory fuel m s = (s', Return sch))
    /\ (lower l = "imr w18"%string ->
        match predictor_params m with
        | Some _ =>
            exists sch : scheme,
              _timestep_scheme_factory fuel m s = (s, Return sch)
        | None =>
            exists key,
              _timestep_scheme_factory fuel m s = (s, Raise (KeyError key))
              /\ forall func y0 tmax dt te kw,
                   odeint fuel func y0 tmax dt m te kw s
                   = (s, Raise (KeyError key))
        end)
    /\ (~ In (lower l) code_scheme_labels ->
        _timestep_scheme_factory fuel m s
          = (s, Raise (not_recognised (lower l)))
        /\ forall func y0 tmax dt te kw,
             odeint fuel func y0 tmax dt m te kw s
             = (s, Raise (not_recognised (lower l)))).
Proof.
  intros fuel m l s Hl. split; [|split].
  - intros Hin Hw. eapply factory_known_label; eassumption.
  - intros Hw. pose proof (@factory_w18 fuel m l s Hl Hw) as H.
    destruct (predictor_params m); [exact H|].
    destruct H as [key H]. exists key. split; [exact H|].
    intros. apply odeint_setup_error. exact H.
  - intros Hnot. pose proof (@factory_unknown_label fuel m l s Hl Hnot) as H.
    split; [exact H|]. intros. apply odeint_setup_error. exact H.
Qed.

(** C10: a trajectory that [odeint] returns starts with the time 0 and
    with the initial value as an array; [odeint] has no argument for
    another initial time. *)
Theorem odeint_starts_at_zero :
  forall (fuel : nat) (func : base_residual) (y0 : array_like) (tmax dt : Q)
         (m : @method N S) (target_error : option Q) (kw : odeint_kwargs)
         (s s' : S) (ts : list Q) (ys : list vec),
    odeint fuel func y0 tmax dt m target_error kw s = (s', Return (ts, ys)) ->
    exists ta ya, ts = 0 :: ta /\ ys = array_ndmin1 y0 :: ya.
Proof.
  intros fuel func y0 tmax dt m te kw s s' ts ys H.
  unfold odeint in H. unfold bind at 1 in H. run_in H; [|discriminate..].
  destruct a as [[r a] i].
  apply factory_initialisation in Heqp.
  apply _odeint_extends in H as [ta [ya [-> ->]]]; [|exact Heqp].
  exists ta, ya. auto.
Qed.

End FactoryProperties.

(** C8 (the claim at a name of the specification's list): "bdf2-mp", with a
    hyphen, is not a label of the code and the factory raises
    [ValueError]. *)
Lemma hyphenated_scheme_name_rejected :
  In "bdf2-mp"%string spec_scheme_names
  /\ _timestep_scheme_factory 5 (MethodName "bdf2-mp") Sample.empty_world
     = (Sample.empty_world, Raise (not_recognised "bdf2-mp")).
Proof. split; [cbn; tauto|reflexivity]. Qed.

(** The label "BDF2 mp": lower-cased it is a label of the code. *)
Lemma scheme_factory_labels_witness :
  exists (sch : scheme) (s' : Sample.world),
    _timestep_scheme_factory 5 (MethodName "BDF2 mp") Sample.empty_world
    = (s', Return sch).
Proof.
  apply (proj1 (@scheme_factory_labels _ _ _ 5%nat (MethodName "BDF2 mp")
                  "BDF2 mp"%string Sample.empty_world eq_refl));
    [cbn; tauto|discriminate].
Defined.

(** The fixed-step bdf1 run of the sample problem. *)
Lemma odeint_starts_at_zero_witness :
  exists ta ya,
    Sample.bdf1_run_times = 0 :: ta
    /\ Sample.bdf1_run_values = array_ndmin1 (Scalar (Fin 0)) :: ya.
Proof.
  apply (@odeint_starts_at_zero _ _ _ 5%nat Sample.unit_slope_until_one
           (Scalar (Fin 0)) 1 (1 # 2) (MethodName "bdf1") None
           default_odeint_kwargs Sample.empty_world Sample.empty_world).
  vm_compute. reflexivity.
Defined.

(** * Further properties *)

(** ** Exactness of the formulas on polynomials *)

(** Rewrites the tests of the float divisions whose divisor is seen not
    to be zero. *)
Ltac q_nonzero :=
  repeat match goal with
  | |- context [Qeq_bool ?x 0] =>
      let E := fresh "E" in
      assert (E : ~ x == 0) by (first [lra | intro; nra]);
      rewrite (Qeq_bool_false E)
  end.

(** Runs a formula of the residual library on floats. *)
Ltac formula_steps :=
  unfold omul, osub, oadd, odiv, oneg;
  cbn [obind ysub yadd ydivq yneg ymulq Value_float];
  unfold qdiv;
  repeat (progress q_nonzero; cbn [obind]).

(** Runs a formula of the residual library on arrays of one entry. *)
Ltac array_steps :=
  unfold omul, osub, oadd, odiv, oneg;
  cbn [obind ysub yadd ydivq yneg ymulq Value_array Value_float
       v_add v_sub v_neg v_mulq v_divq broadcast2 length Nat.eqb map combine
       fst snd f_add f_sub f_mul f_neg f_div];
  unfold qdiv;
  repeat (progress q_nonzero; cbn [obind]).

Lemma Qdiv_pos (a b : Q) : 0 < a -> 0 < b -> 0 < a / b.
Proof.
  intros Ha Hb. apply Qlt_shift_div_l; [exact Hb|]. rewrite Qmult_0_l. exact Ha.
Qed.

Lemma Qabs_zero (x : Q) : x == 0 -> Qabs x == 0.
Proof. intro H. rewrite H. reflexivity. Qed.

Lemma idx_neg_snoc {A} (l : list A) (x : A) : idx_neg (l ++ [x]) 1 = Return x.
Proof. unfold idx_neg. rewrite rev_app_distr. reflexivity. Qed.

(** X3: on the values of a polynomial of degree at most 3 at four strictly
    increasing times, [bdf3_dydt] returns the derivative of the polynomial
    at the last time. *)
Theorem bdf3_dydt_exact_on_cubics :
  forall (cs : list Q) (t0 t1 t2 t3 : Q) (pre_t pre_y : list Q),
    (length cs <= 4)%nat ->
    t0 < t1 -> t1 < t2 -> t2 < t3 ->
    exists dy,
      bdf3_dydt (pre_t ++ [t0; t1; t2; t3])
        (pre_y ++ map (poly cs) [t0; t1; t2; t3]) = Return dy
      /\ dy == poly_deriv cs t3.
Proof.
  intros cs t0 t1 t2 t3 pre_t pre_y Hlen H01 H12 H23.
  unfold bdf3_dydt, idx_neg. rewrite !rev_app_distr.
  cbn [map rev app nth_error pred obind].
  formula_steps.
  eexists. split; [reflexivity|].
  do 5 (destruct cs as [|? cs]; [cbn [poly poly_deriv]; field; repeat split; lra|]).
  cbn [length] in Hlen. lia.
Qed.

(** The times 0, 1, 3, 4 and the polynomial [1 + 2 t + 3 t^2 + 4 t^3]. *)
Lemma bdf3_dydt_exact_on_cubics_witness :
  exists dy,
    bdf3_dydt ([] ++ [0; 1; 3; 4]) ([] ++ map (poly [1; 2; 3; 4]) [0; 1; 3; 4])
      = Return dy
    /\ dy == poly_deriv [1; 2; 3; 4] 4.
Proof.
  apply (@bdf3_dydt_exact_on_cubics [1; 2; 3; 4] 0 1 3 4 [] []);
    [cbn; lia|reflexivity..].
Defined.

(** X4: on the values of a polynomial of degree at most 4 at five strictly
    increasing times, [bdf4_dydt] returns the derivative of the polynomial
    at the last time. *)
Theorem bdf4_dydt_exact_on_quartics :
  forall (cs : list Q) (t0 t1 t2 t3 t4 : Q) (pre_t pre_y : list Q),
    (length cs <= 5)%nat ->
    t0 < t1 -> t1 < t2 -> t2 < t3 -> t3 < t4 ->
    exists dy,
      bdf4_dydt (pre_t ++ [t0; t1; t2; t3; t4])
        (pre_y ++ map (poly cs) [t0; t1; t2; t3; t4]) = Return dy
      /\ dy == poly_deriv cs t4.
Proof.
  intros cs t0 t1 t2 t3 t4 pre_t pre_y Hlen H01 H12 H23 H34.
  unfold bdf4_dydt, idx_neg. rewrite !rev_app_distr.
  cbn [map rev app nth_error pred obind].
  formula_steps.
  eexists. split; [reflexivity|].
  do 6 (destruct cs as [|? cs]; [cbn [poly poly_deriv]; field; repeat split; lra|]).
  cbn [length] in Hlen. lia.
Qed.

(** The times 0, 1, 3, 4, 6 and the polynomial [t^4 - t]. *)
Lemma bdf4_dydt_exact_on_quartics_witness :
  exists dy,
    bdf4_dydt ([] ++ [0; 1; 3; 4; 6])
      ([] ++ map (poly [0; -1; 0; 0; 1]) [0; 1; 3; 4; 6]) = Return dy
    /\ dy == poly_deriv [0; -1; 0; 0; 1] 6.
Proof.
  apply (@bdf4_dydt_exact_on_quartics [0; -1; 0; 0; 1] 0 1 3 4 6 [] []);
    [cbn; lia|reflexivity..].
Defined.

(** X5: [ibdf2_step] inverts [bdf2_dydt]: from the derivative that
    [bdf2_dydt] gives at the last of three values and the two values before
    it, the step returns the last value. *)
Theorem ibdf2_step_inverts_bdf2_dydt :
  forall (y0 y1 y2 t0 t1 t2 : Q) (pre_t pre_y : list Q),
    t0 < t1 -> t1 < t2 ->
    exists d y,
      bdf2_dydt (pre_t ++ [t0; t1; t2]) (pre_y ++ [y0; y1; y2]) = Return d
      /\ ibdf2_step (t2 - t1) y1 d (t1 - t0) y0 = Return y
      /\ y == y2.
Proof.
  intros y0 y1 y2 t0 t1 t2 pre_t pre_y H01 H12.
  unfold bdf2_dydt, ibdf2_step, idx_neg. rewrite !rev_app_distr.
  cbn [map rev app nth_error pred obind].
  formula_steps.
  eexists. eexists. split; [reflexivity|].
  formula_steps. split; [reflexivity|].
  field. repeat split; lra.
Qed.

Lemma ibdf2_step_inverts_bdf2_dydt_witness :
  exists d y,
    bdf2_dydt ([] ++ [0; 1; 3]) ([] ++ [5; -2; 7]) = Return d
    /\ ibdf2_step (3 - 1) (-2) d (1 - 0) 5 = Return y
    /\ y == 7.
Proof.
  apply (@ibdf2_step_inverts_bdf2_dydt 5 (-2) 7 0 1 3 [] []); reflexivity.
Defined.

Lemma ibdf3_denominator_positive (r q p : Q) :
  0 < r -> 0 < q -> 0 < p ->
  0 < q * p * (3 * r ^ 2 * q + 3 * r ^ 2 * p + 4 * r * q ^ 2 + 6 * r * q * p
               + 2 * r * p ^ 2 + q ^ 3 + 2 * q ^ 2 * p + q * p ^ 2).
Proof.
  intros Hr Hq Hp.
  assert (0 < r * r * q) by (repeat apply Qmult_lt_0_compat; auto).
  assert (0 < r * r * p) by (repeat apply Qmult_lt_0_compat; auto).
  assert (0 < r * q * q) by (repeat apply Qmult_lt_0_compat; auto).
  assert (0 < r * q * p) by (repeat apply Qmult_lt_0_compat; auto).
  assert (0 < r * p * p) by (repeat apply Qmult_lt_0_compat; auto).
  assert (0 < q * q * q) by (repeat apply Qmult_lt_0_compat; auto).
  assert (0 < q * q * p) by (repeat apply Qmult_lt_0_compat; auto).
  assert (0 < q * p * p) by (repeat apply Qmult_lt_0_compat; auto).
  apply Qmult_lt_0_compat; [apply Qmult_lt_0_compat; auto|].
  simpl Qpower. lra.
Qed.

(** X6: [ibdf3_step] inverts [bdf3_dydt] in the same way, on four
    values. *)
Theorem ibdf3_step_inverts_bdf3_dydt :
  forall (y0 y1 y2 y3 t0 t1 t2 t3 : Q) (pre_t pre_y : list Q),
    t0 < t1 -> t1 < t2 -> t2 < t3 ->
    exists d y,
      bdf3_dydt (pre_t ++ [t0; t1; t2; t3]) (pre_y ++ [y0; y1; y2; y3]) = Return d
      /\ ibdf3_step d (t3 - t2) y2 (t2 - t1) y1 (t1 - t0) y0 = Return y
      /\ y == y3.
Proof.
  intros y0 y1 y2 y3 t0 t1 t2 t3 pre_t pre_y H01 H12 H23.
  unfold bdf3_dydt, ibdf3_step, idx_neg. rewrite !rev_app_distr.
  cbn [map rev app nth_error pred obind].
  formula_steps.
  eexists. eexists. split; [reflexivity|].
  unfold omul, osub, oadd, odiv, oneg;
  cbn [obind ysub yadd ydivq yneg ymulq Value_float];
  unfold qdiv.
  assert (Hden := @ibdf3_denominator_positive (t3 - t2) (t2 - t1) (t1 - t0)
                    ltac:(lra) ltac:(lra) ltac:(lra)).
  match goal with
  | |- context [Qeq_bool ?x 0] => assert (Eden : ~ x == 0) by lra
  end.
  rewrite (Qeq_bool_false Eden). cbn [obind].
  split; [reflexivity|].
  field. repeat split; try lra.
  intro H. apply Eden. rewrite H. ring.
Qed.

Lemma ibdf3_step_inverts_bdf3_dydt_witness :
  exists d y,
    bdf3_dydt ([] ++ [0; 1; 3; 4]) ([] ++ [5; -2; 7; 1]) = Return d
    /\ ibdf3_step d (4 - 3) 7 (3 - 1) (-2) (1 - 0) 5 = Return y
    /\ y == 1.
Proof.
  apply (@ibdf3_step_inverts_bdf3_dydt 5 (-2) 7 1 0 1 3 4 [] []); reflexivity.
Defined.

(** X7: from the value and the derivative of a polynomial of degree at
    most 2 at [t1] and its value at [t0], [ebdf2_step] returns the value of
    the polynomial at [t2], wherever [t2] is. *)
Theorem ebdf2_step_exact_on_quadratics :
  forall (cs : list Q) (t0 t1 t2 : Q),
    (length cs <= 3)%nat -> ~ t0 == t1 ->
    exists y,
      ebdf2_step (t2 - t1) (poly cs t1) (poly_deriv cs t1) (t1 - t0) (poly cs t0)
        = Return y
      /\ y == poly cs t2.
Proof.
  intros cs t0 t1 t2 Hlen H01.
  unfold ebdf2_step. formula_steps.
  eexists. split; [reflexivity|].
  do 4 (destruct cs as [|? cs]; [cbn [poly poly_deriv]; field; repeat split; lra|]).
  cbn [length] in Hlen. lia.
Qed.

Lemma ebdf2_step_exact_on_quadratics_witness :
  exists y,
    ebdf2_step (3 - 1) (poly [2; -1; 3] 1) (poly_deriv [2; -1; 3] 1) (1 - 0)
      (poly [2; -1; 3] 0) = Return y
    /\ y == poly [2; -1; 3] 3.
Proof.
  apply (@ebdf2_step_exact_on_quadratics [2; -1; 3] 0 1 3);
    [cbn; lia|discriminate].
Defined.

(** X8: from the value of a polynomial of degree at most 2 at [t1] and its
    derivatives at [t1] and [t0], [ab2_step] returns its value at [t2]. *)
Theorem ab2_step_exact_on_quadratics :
  forall (cs : list Q) (t0 t1 t2 : Q),
    (length cs <= 3)%nat -> ~ t0 == t1 ->
    exists y,
      ab2_step (t2 - t1) (poly cs t1) (poly_deriv cs t1) (t1 - t0)
        (poly_deriv cs t0) = Return y
      /\ y == poly cs t2.
Proof.
  intros cs t0 t1 t2 Hlen H01.
  unfold ab2_step. formula_steps.
  eexists. split; [reflexivity|].
  do 4 (destruct cs as [|? cs]; [cbn [poly poly_deriv]; field; repeat split; lra|]).
  cbn [length] in Hlen. lia.
Qed.

Lemma ab2_step_exact_on_quadratics_witness :
  exists y,
    ab2_step (3 - 1) (poly [2; -1; 3] 1) (poly_deriv [2; -1; 3] 1) (1 - 0)
      (poly_deriv [2; -1; 3] 0) = Return y
    /\ y == poly [2; -1; 3] 3.
Proof.
  apply (@ab2_step_exact_on_quadratics [2; -1; 3] 0 1 3);
    [cbn; lia|discriminate].
Defined.

Lemma ebdf3_denominator_nonzero (q p : Q) :
  0 < q -> 0 < p -> ~ q ^ 4 * p + 2 * q ^ 3 * p ^ 2 + q ^ 2 * p ^ 3 == 0.
Proof.
  intros Hq Hp.
  assert (0 < q * q * q * q * p) by (repeat apply Qmult_lt_0_compat; auto).
  assert (0 < q * q * q * p * p) by (repeat apply Qmult_lt_0_compat; auto).
  assert (0 < q * q * p * p * p) by (repeat apply Qmult_lt_0_compat; auto).
  simpl Qpower. lra.
Qed.

Lemma ebdf3_dynm1_denominator_nonzero (q p : Q) :
  0 < q -> 0 < p -> ~ q ^ 3 * p ^ 2 + q ^ 2 * p ^ 3 == 0.
Proof.
  intros Hq Hp.
  assert (0 < q * q * q * p * p) by (repeat apply Qmult_lt_0_compat; auto).
  assert (0 < q * q * p * p * p) by (repeat apply Qmult_lt_0_compat; auto).
  simpl Qpower. lra.
Qed.

(** X9: on the values of a polynomial of degree at most 3 at three
    strictly increasing times, both forms of the explicit BDF3 step return
    the value of the polynomial at the new time, whatever the new time and
    the dummy last entry of the values are: [ebdf3_step_wrapper] from the
    derivative at the newest of the three times, [ebdf3_dynm1_step] from the
    derivative at the middle one. *)
Theorem ebdf3_steps_exact_on_cubics :
  forall (cs : list Q) (t0 t1 t2 t3 y3 : Q) (pre_t pre_y : list Q),
    (length cs <= 4)%nat ->
    t0 < t1 -> t1 < t2 ->
    exists y y',
      ebdf3_step_wrapper (pre_t ++ [t0; t1; t2; t3])
        (pre_y ++ map (poly cs) [t0; t1; t2] ++ [y3]) (poly_deriv cs t2)
        = Return y
      /\ ebdf3_dynm1_step (pre_t ++ [t0; t1; t2; t3])
           (pre_y ++ map (poly cs) [t0; t1; t2] ++ [y3]) (poly_deriv cs t1)
         = Return y'
      /\ y == poly cs t3 /\ y' == poly cs t3.
Proof.
  intros cs t0 t1 t2 t3 y3 pre_t pre_y Hlen H01 H12.
  unfold ebdf3_step_wrapper, ebdf3_step, ebdf3_dynm1_step, idx_neg.
  rewrite !rev_app_distr.
  cbn [map rev app nth_error pred obind].
  unfold omul, osub, oadd, odiv, oneg;
  cbn [obind ysub yadd ydivq yneg ymulq Value_float];
  unfold qdiv.
  assert (Eden := @ebdf3_denominator_nonzero (t2 - t1) (t1 - t0)
                    ltac:(lra) ltac:(lra)).
  assert (Eden' := @ebdf3_dynm1_denominator_nonzero (t2 - t1) (t1 - t0)
                     ltac:(lra) ltac:(lra)).
  rewrite (Qeq_bool_false Eden), !(Qeq_bool_false Eden'). cbn [obind].
  eexists. eexists. split; [reflexivity|]. split; [reflexivity|].
  split.
  - do 5 (destruct cs as [|? cs]; [cbn [poly poly_deriv]; field; exact Eden|]).
    cbn [length] in Hlen. lia.
  - do 5 (destruct cs as [|? cs]; [cbn [poly poly_deriv]; field; exact Eden'|]).
    cbn [length] in Hlen. lia.
Qed.

Lemma ebdf3_steps_exact_on_cubics_witness :
  exists y y',
    ebdf3_step_wrapper ([] ++ [0; 1; 3; 4])
      ([] ++ map (poly [1; 2; 3; 4]) [0; 1; 3] ++ [0]) (poly_deriv [1; 2; 3; 4] 3)
      = Return y
    /\ ebdf3_dynm1_step ([] ++ [0; 1; 3; 4])
         ([] ++ map (poly [1; 2; 3; 4]) [0; 1; 3] ++ [0])
         (poly_deriv [1; 2; 3; 4] 1)
       = Return y'
    /\ y == poly [1; 2; 3; 4] 4 /\ y' == poly [1; 2; 3; 4] 4.
Proof.
  apply (@ebdf3_steps_exact_on_cubics [1; 2; 3; 4] 0 1 3 4 0 [] []);
    [cbn; lia|reflexivity..].
Defined.

(** X10: on two values of a polynomial of degree at most 2, [imr_dydt]
    returns the derivative of the polynomial at the midpoint of the two
    times. *)
Theorem imr_dydt_exact_at_midpoint :
  forall (cs : list Q) (t0 t1 : Q) (pre_t pre_y : list Q),
    (length cs <= 3)%nat -> ~ t0 == t1 ->
    exists d,
      imr_dydt (pre_t ++ [t0; t1]) (pre_y ++ map (poly cs) [t0; t1]) = Return d
      /\ d == poly_deriv cs ((t1 + t0) / 2).
Proof.
  intros cs t0 t1 pre_t pre_y Hlen H01.
  unfold imr_dydt, idx_neg. rewrite !rev_app_distr.
  cbn [map rev app nth_error pred obind].
  formula_steps.
  eexists. split; [reflexivity|].
  do 4 (destruct cs as [|? cs]; [cbn [poly poly_deriv]; field; repeat split; lra|]).
  cbn [length] in Hlen. lia.
Qed.

Lemma imr_dydt_exact_at_midpoint_witness :
  exists d,
    imr_dydt ([] ++ [1; 3]) ([] ++ map (poly [2; -1; 3]) [1; 3]) = Return d
    /\ d == poly_deriv [2; -1; 3] ((3 + 1) / 2).
Proof.
  apply (@imr_dydt_exact_at_midpoint [2; -1; 3] 1 3 [] []);
    [cbn; lia|discriminate].
Defined.

(** ** Local truncation error estimates *)

Lemma gs_weight_denominator_positive (r : Q) :
  0 < r -> 0 < 1 + 3 * r + 4 * r ^ 2 + 2 * r ^ 3.
Proof.
  intro Hr.
  assert (0 < r * r) by (apply Qmult_lt_0_compat; auto).
  assert (0 < r * r * r) by (repeat apply Qmult_lt_0_compat; auto).
  simpl Qpower. lra.
Qed.

(** Unfolds the two estimates of the bdf2 and midpoint pair on a history
    that ends in four scalar values. *)
Ltac mp_estimates pre_t pre_y :=
  unfold bdf2_mp_prinja_lte_estimate, bdf2_mp_gs_lte_estimate, bdf2_dydt,
    ebdf2_step, drop_last, idx_neg;
  rewrite !length_app; cbn [length scalars map];
  replace (length pre_t + 4 - 1)%nat with (length pre_t + 3)%nat by lia;
  replace (length pre_y + 4 - 1)%nat with (length pre_y + 3)%nat by lia;
  rewrite !firstn_app, !firstn_all2 by lia;
  replace (length pre_t + 3 - length pre_t)%nat with 3%nat by lia;
  replace (length pre_y + 3 - length pre_y)%nat with 3%nat by lia;
  cbn [firstn]; rewrite !rev_app_distr;
  cbn [rev app nth_error pred obind].



(** X12: when the last two steps are equal, the two estimates agree on
    every scalar history. *)
Theorem bdf2_mp_estimates_agree_on_equal_steps :
  forall (y0 y1 y2 y3 t0 t1 t2 t3 : Q) (pre_t : list Q) (pre_y : list vec),
    t0 < t1 -> t1 < t2 -> t2 < t3 -> t3 - t2 == t2 - t1 ->
    exists e1 e2,
      bdf2_mp_prinja_lte_estimate (pre_t ++ [t0; t1; t2; t3])
        (pre_y ++ scalars [y0; y1; y2; y3]) = Return [Fin e1]
      /\ bdf2_mp_gs_lte_estimate (pre_t ++ [t0; t1; t2; t3])
           (pre_y ++ scalars [y0; y1; y2; y3]) = Return [Fin e2]
      /\ e1 == e2.
Proof.
  intros y0 y1 y2 y3 t0 t1 t2 t3 pre_t pre_y H01 H12 H23 Heq.
  mp_estimates pre_t pre_y.
  assert (Hr : 0 < (t3 - t2) / (t2 - t1)) by (apply Qdiv_pos; lra).
  assert (Hri : 0 < 1 / ((t3 - t2) / (t2 - t1))) by (apply Qdiv_pos; lra).
  assert (Hg := gs_weight_denominator_positive Hri).
  array_steps. array_steps.
  eexists. eexists. split; [reflexivity|]. split; [reflexivity|].
  assert (D1 : ~ t2 - t1 == 0) by lra.
  assert (R1 : (t3 - t2) / (t2 - t1) == 1) by (rewrite Heq; field; exact D1).
  assert (R2 : 1 / ((t3 - t2) / (t2 - t1)) == 1) by (rewrite R1; reflexivity).
  assert (W1 : (t2 - t1 + (t3 - t2)) / (3 * (t3 - t2) + 2 * (t2 - t1)) == 2 # 5).
  { rewrite Heq. field. lra. }
  rewrite W1, R2. apply Qmult_comp; reflexivity.
Qed.

Lemma bdf2_mp_estimates_agree_on_equal_steps_witness :
  exists e1 e2,
    bdf2_mp_prinja_lte_estimate ([] ++ [0; 1; 3; 5])
      ([] ++ scalars [5; -2; 7; 1]) = Return [Fin e1]
    /\ bdf2_mp_gs_lte_estimate ([] ++ [0; 1; 3; 5])
         ([] ++ scalars [5; -2; 7; 1]) = Return [Fin e2]
    /\ e1 == e2.
Proof.
  apply (@bdf2_mp_estimates_agree_on_equal_steps 5 (-2) 7 1 0 1 3 5 [] []);
    reflexivity.
Defined.

Section EstimatorProperties.
Context {N : Numerics} {S : Type} {W : World S}.



End EstimatorProperties.



(** ** Newton solver: what a returned point satisfies *)

Section NewtonFurther.
Context {N : Numerics} {S : Type} {W : World S}.

Lemma _newton_rec_sound (residual : residual_fn) (jf : jacobian_fn) (tol : Q)
    (sf : solve_fn) (n : nat) :
  forall (x0 x : vec) (s s' : S),
    _newton_rec residual x0 jf tol sf n s = (s', Return x) ->
    exists s1 r, residual x s1 = (s', Return r)
                 /\ below_tol r tol = Return true.
Proof.
  induction n as [|n IH]; intros x0 x s s' H; [discriminate|].
  cbn [_newton_rec] in H. unfold bind at 1 in H.
  destruct (residual x0 s) as [s1 [r|e|]] eqn:Hr; [|discriminate..].
  unfold bind at 1 in H. unfold lift at 1 in H.
  destruct (below_tol r tol) as [[|]|e|] eqn:Hb; [| |discriminate..].
  - unfold ret in H. injection H as <- <-. eauto.
  - unfold bind at 1 in H. run_in H; [|discriminate..].
    unfold bind at 1 in H. run_in H; [|discriminate..].
    unfold bind at 1 in H. unfold lift at 1 in H.
    destruct (v_sub x0 a0) as [x1|e|]; [|discriminate..].
    eapply IH. exact H.
Qed.

(** X15: a point that [newton] returns met the tolerance at the last
    thing the solver did: the residual was evaluated at that point, its
    largest absolute entry was below [newton_tol], and the world returned
    is the one that evaluation left.  A return needs [max_iter >= 1]. *)
Theorem newton_returns_converged_point :
  forall (residual : residual_fn) (x0 : vec) (jf : option jacobian_fn)
         (kw : newton_kwargs S) (s s' : S) (x : vec),
    newton residual x0 jf kw s = (s', Return x) ->
    (1 <= max_iter kw)%Z
    /\ exists s1 r, residual x s1 = (s', Return r)
                    /\ below_tol r (newton_tol kw) = Return true.
Proof.
  intros residual x0 jf kw s s' x H. unfold newton, _newton in H. split.
  - destruct (Z.to_nat (max_iter kw)) eqn:E; [discriminate|lia].
  - eapply _newton_rec_sound. exact H.
Qed.

(** The finite-difference Jacobian of a residual of one unknown. *)
Lemma scalar_fd_jacobian (residual : residual_fn) (g : Q -> Q) (x eps : Q) (s : S) :
  (forall x s, residual [Fin x] s = (s, Return [Fin (g x)])) ->
  ~ eps == 0 ->
  finite_diff_jacobian residual [Fin x] eps s
  = (s, Return [[Fin ((g (x + eps) + - g x) / eps)]]).
Proof.
  intros Hres Heps. unfold finite_diff_jacobian.
  cbn [length seq fd_columns bump f_add]. unfold bind at 1. unfold bind at 1.
  rewrite Hres. unfold bind at 1. rewrite Hres.
  munfold.
  cbn [map f_sub f_mul f_neg f_add v_sub broadcast2 length Nat.eqb combine
       fst snd v_divq f_div].
  rewrite (Qeq_bool_false Heps). reflexivity.
Qed.

(** A residual of one unknown that is affine, [g x == a x - b] with
    [a <> 0]: the finite-difference Jacobian is [a] and the first update
    lands on the root. *)
Lemma newton_scalar_affine (residual : residual_fn) (g : Q -> Q)
    (a b x0 : Q) (kw : newton_kwargs S) (s : S) :
  (forall x s, residual [Fin x] s = (s, Return [Fin (g x)])) ->
  (forall x, g x == a * x - b) ->
  ~ a == 0 -> ~ jacobian_fd_eps kw == 0 -> 0 < newton_tol kw ->
  (2 <= max_iter kw)%Z ->
  exists x,
    newton residual [Fin x0] None kw s = (s, Return [Fin x])
    /\ (x == b / a \/ (x = x0 /\ Qabs (a * x0 - b) < newton_tol kw)).
Proof.
  intros Hres Hg Ha Heps Htol Hit.
  unfold newton, _newton.
  destruct (Z.to_nat (max_iter kw)) as [|[|n]] eqn:E; [lia..|].
  cbn [_newton_rec].
  unfold bind at 1. rewrite Hres.
  unfold bind at 1. unfold lift at 1.
  unfold below_tol at 1.
  cbn [v_abs map amax fold_left obind f_abs f_ltq].
  destruct (Qltb (Qabs (g x0)) (newton_tol kw)) eqn:Hb.
  - exists x0. split; [reflexivity|]. right. split; [reflexivity|].
    apply Qltb_lt in Hb. rewrite <- Hg. exact Hb.
  - unfold bind at 1. rewrite (@scalar_fd_jacobian residual g x0 _ s Hres Heps).
    unfold bind at 1. rewrite wrapped_solve_scalar.
    set (J := (g (x0 + jacobian_fd_eps kw) + - g x0) / jacobian_fd_eps kw).
    assert (HJ : J == a) by (unfold J; rewrite !Hg; field; exact Heps).
    assert (HJ0 : ~ J == 0) by (rewrite HJ; exact Ha).
    cbn [f_div]. rewrite (Qeq_bool_false HJ0).
    unfold bind at 1. unfold lift at 1.
    cbn [f_sub f_neg f_add v_sub broadcast2 length Nat.eqb combine map fst snd].
    set (x1 := x0 + - (g x0 / J)).
    assert (Hx1 : x1 == b / a) by (unfold x1; rewrite HJ, Hg; field; exact Ha).
    unfold bind at 1. rewrite Hres.
    unfold bind at 1. unfold lift at 1.
    unfold below_tol at 1.
    cbn [v_abs map amax fold_left obind f_abs f_ltq].
    assert (Hz : Qabs (g x1) == 0).
    { apply Qabs_zero. rewrite Hg, Hx1. field. exact Ha. }
    assert (Hlt : Qltb (Qabs (g x1)) (newton_tol kw) = true).
    { apply Qltb_lt. rewrite Hz. exact Htol. }
    rewrite Hlt. exists x1. split; [reflexivity|]. left. exact Hx1.
Qed.


End NewtonFurther.

(** The solve of [2 x - 4 = 0] from 0 with the defaults. *)
Lemma newton_returns_converged_point_witness :
  (1 <= max_iter (default_newton_kwargs (S := Sample.world)))%Z
  /\ exists s1 r,
       affine_residual 2 4 Sample.affine_root s1 = (fst Sample.affine_solve, Return r)
       /\ below_tol r (newton_tol (default_newton_kwargs (S := Sample.world)))
          = Return true.
Proof.
  apply (@newton_returns_converged_point _ _ _ (affine_residual 2 4) [Fin 0] None
           default_newton_kwargs Sample.empty_world (fst Sample.affine_solve)
           Sample.affine_root).
  vm_compute. reflexivity.
Defined.


(** ** Step-size controller: zero divisions and rejected steps *)

Section ControllerFurther.
Context {N : Numerics}.

Lemma order_power_defined (order : Z) :
  order <> (-1)%Z ->
  qdiv 1 (1 + inject_Z order) = Return (1 / (1 + inject_Z order)).
Proof.
  intro H. unfold qdiv. rewrite Qeq_bool_false; [reflexivity|].
  intro E. apply H. apply inject_Z_injective.
  change (inject_Z (-1)) with (- (1)). lra.
Qed.

(** X17: [default_dt_scaling] never raises [ZeroDivisionError].  With the
    order -1 it returns [MAX_ALLOWED_DT_SCALING_FACTOR] whatever the errors
    are, [None] included, since the power is computed first; with an error
    estimate of zero it returns [MAX_ALLOWED_DT_SCALING_FACTOR] for every
    order; and [scale_timestep] then returns three times [dt] when that
    lies within the allowed time steps. *)
Theorem default_dt_scaling_zero_division :
  (forall te ee order, default_dt_scaling te ee order <> Raise ZeroDivisionError)
  /\ (forall te ee, default_dt_scaling te ee (Some (-1)%Z)
                    = Return MAX_ALLOWED_DT_SCALING_FACTOR)
  /\ (forall te ee order, ee == 0 ->
        default_dt_scaling (Some te) (Some ee) (Some order)
        = Return MAX_ALLOWED_DT_SCALING_FACTOR)
  /\ (forall dt te ee order, ee == 0 ->
        MIN_ALLOWED_TIMESTEP <= MAX_ALLOWED_DT_SCALING_FACTOR * dt ->
        MAX_ALLOWED_DT_SCALING_FACTOR * dt <= MAX_ALLOWED_TIMESTEP ->
        scale_timestep dt (Some te) (Some ee) (Some order) default_dt_scaling_fn
        = Return (MAX_ALLOWED_DT_SCALING_FACTOR * dt)).
Proof.
  assert (Hzero : forall te ee order, ee == 0 ->
            default_dt_scaling (Some te) (Some ee) (Some order)
            = Return MAX_ALLOWED_DT_SCALING_FACTOR).
  { intros te ee order He. unfold default_dt_scaling, default_dt_scaling_try.
    destruct (Z.eq_dec order (-1)) as [->|Hne]; [reflexivity|].
    rewrite (order_power_defined Hne). cbn [obind].
    unfold qdiv. apply Qeq_bool_iff in He. rewrite He. reflexivity. }
  split; [|split; [|split]].
  - intros te ee order. unfold default_dt_scaling.
    destruct (default_dt_scaling_try te ee order) as [x|[]|]; discriminate.
  - intros te ee. reflexivity.
  - exact Hzero.
  - intros dt te ee order He Hmin Hmax. unfold scale_timestep.
    cbn [call_scaling]. rewrite (Hzero te ee order He). cbn [obind].
    replace (Qltb MAX_ALLOWED_DT_SCALING_FACTOR MIN_ALLOWED_DT_SCALING_FACTOR)
      with false by reflexivity.
    cbn [andb]. apply Qltb_ge in Hmin, Hmax. rewrite Hmin, Hmax. reflexivity.
Qed.

(** X18: when [scale_timestep] rejects a step of positive size with the
    default scaling, the step size it hands over for the retry is the
    scaling factor times [dt] and is less than
    [MIN_ALLOWED_DT_SCALING_FACTOR * dt]; the float power is taken not to
    raise [FailedTimestepError] itself. *)
Theorem rejected_step_is_shortened :
  forall (dt : Q) (te en : option Q) (order : option Z) (d : Q),
    (forall x p d', float_pow x p <> Raise (FailedTimestepError d')) ->
    0 < dt ->
    scale_timestep dt te en order default_dt_scaling_fn
      = Raise (FailedTimestepError d) ->
    d < MIN_ALLOWED_DT_SCALING_FACTOR * dt
    /\ exists factor, default_dt_scaling te en order = Return factor
                      /\ d = factor * dt.
Proof.
  intros dt te en order d Hpow Hdt H. unfold scale_timestep in H.
  cbn [call_scaling is_failed_timestep_scaling negb] in H.
  destruct (default_dt_scaling te en order) as [sf|e|] eqn:Hs; cbn [obind] in H.
  - rewrite andb_true_r in H.
    destruct (Qltb sf MIN_ALLOWED_DT_SCALING_FACTOR) eqn:Hlt.
    + injection H as <-. apply Qltb_lt in Hlt. split; [|eauto].
      apply Qmult_lt_compat_r; assumption.
    + destruct (Qltb MAX_ALLOWED_TIMESTEP (sf * dt)); [discriminate|].
      destruct (Qltb (sf * dt) MIN_ALLOWED_TIMESTEP); discriminate.
  - exfalso. injection H as ->. unfold default_dt_scaling in Hs.
    unfold default_dt_scaling_try in Hs.
    destruct order as [o|]; [|discriminate].
    unfold qdiv in Hs.
    destruct (Qeq_bool (1 + inject_Z o) 0); cbn [obind] in Hs; [discriminate|].
    destruct te as [t|]; [|discriminate]. destruct en as [e|]; [|discriminate].
    destruct (Qeq_bool e 0); cbn [obind] in Hs; [discriminate|].
    destruct (float_pow (t / e) (1 / (1 + inject_Z o))) as [x|[]|] eqn:Hp;
      try discriminate.
    injection Hs as ->. exact (Hpow _ _ _ Hp).
  - discriminate.
Qed.

End ControllerFurther.

(** An error estimate of zero with [dt = 1]. *)
Lemma default_dt_scaling_zero_division_witness :
  scale_timestep (N := Sample.numerics) 1 (Some 1) (Some 0) (Some 2%Z)
    default_dt_scaling_fn
  = Return (MAX_ALLOWED_DT_SCALING_FACTOR * 1).
Proof.
  apply (proj2 (proj2 (proj2 (@default_dt_scaling_zero_division Sample.numerics)))
           1 1 0 2%Z); [reflexivity|discriminate|discriminate].
Defined.

(** [dt = 1e-8] with a target error of 1e-4 and an error norm of 8e-4:
    the factor is 0.5. *)
Lemma rejected_step_is_shortened_witness :
  (1 # 200000000) < MIN_ALLOWED_DT_SCALING_FACTOR * (1 # 100000000)
  /\ exists factor,
       default_dt_scaling (N := Sample.numerics) (Some (1 # 10000))
         (Some (8 # 10000)) (Some 2%Z) = Return factor
       /\ (1 # 200000000) = factor * (1 # 100000000).
Proof.
  apply (@rejected_step_is_shortened Sample.numerics (1 # 100000000)
           (Some (1 # 10000)) (Some (8 # 10000)) (Some 2%Z) (1 # 200000000)).
  - intros x p d'. cbn [float_pow Sample.numerics]. unfold Sample.pow.
    repeat match goal with |- context [if ?b then _ else _] => destruct b end;
      discriminate.
  - reflexivity.
  - vm_compute. reflexivity.
Defined.

(** ** Fixed-step runs *)

Lemma steps_from_snoc (t dt : Q) (n : nat) :
  steps_from t dt (Datatypes.S n)
  = steps_from t dt n ++ [nth_time t dt n + dt].
Proof. unfold steps_from. rewrite seq_S, map_app. reflexivity. Qed.

Lemma steps_from_last (ts : list Q) (t dt : Q) (n : nat) :
  idx_neg ts 1 = Return t ->
  idx_neg (ts ++ steps_from t dt n) 1 = Return (nth_time t dt n).
Proof.
  intro H. destruct n as [|n].
  - unfold steps_from. cbn. rewrite app_nil_r. exact H.
  - rewrite steps_from_snoc, app_assoc. apply idx_neg_snoc.
Qed.

Lemma nth_time_shift (t dt : Q) (k : nat) :
  nth_time t dt (Datatypes.S k) = nth_time (t + dt) dt k.
Proof.
  induction k as [|k IH]; [reflexivity|].
  cbn [nth_time] in *. rewrite IH. reflexivity.
Qed.

Lemma steps_from_cons (t dt : Q) (n : nat) :
  steps_from t dt (Datatypes.S n) = (t + dt) :: steps_from (t + dt) dt n.
Proof.
  unfold steps_from. cbn [seq map nth_time]. f_equal.
  rewrite <- seq_shift, map_map. apply map_ext. intro k. apply nth_time_shift.
Qed.

(** The accumulated time is [t + n dt] in exact arithmetic. *)
Lemma nth_time_closed_form (t dt : Q) (n : nat) :
  nth_time t dt n == t + inject_Z (Z.of_nat n) * dt.
Proof.
  induction n as [|n IH].
  - cbn. ring.
  - cbn [nth_time]. rewrite IH, Nat2Z.inj_succ. unfold Z.succ.
    rewrite inject_Z_plus. ring.
Qed.

Section FixedStep.
Context {N : Numerics} {S : Type} {W : World S}.
Variable func : @base_residual S.
Variable tmax : Q.
Variable residual_of : @time_residual S.
Variable target_error : option Q.
Variable kw : @odeint_kwargs S.
Variable base_dt : Q.
Hypothesis no_vary : vary_step kw = false.
Hypothesis no_retry : newton_failure_reduce_step kw = false.
Hypothesis no_actions : actions_after_timestep kw = None.

Local Abbreviation loop :=
  (main_loop func tmax residual_of target_error None kw base_dt).
Local Abbreviation reaches :=
  (reach func tmax residual_of target_error None kw base_dt).

(** Without adaptor, retry, random steps and post-step actions every pass
    commits the time [t + dt]. *)
Lemma reach_fixed_step st0 s0 n st s t0 :
  idx_neg (ts_of st0) 1 = Return t0 ->
  reaches st0 s0 n st s ->
  ts_of st = ts_of st0 ++ steps_from t0 (dt_of st0) n
  /\ (exists ya, ys_of st = ys_of st0 ++ ya /\ length ya = n)
  /\ dt_of st = dt_of st0
  /\ forall k, (k < n)%nat -> nth_time t0 (dt_of st0) k < tmax.
Proof.
  intros Ht0 Hr.
  induction Hr as [|n st s t k st' s' Hr IH Ht Hlt Hb].
  - split; [|split; [|split]].
    + unfold steps_from. cbn. rewrite app_nil_r. reflexivity.
    + exists []. rewrite app_nil_r. auto.
    + reflexivity.
    + intros k Hk. lia.
  - destruct IH as [Ets [[ya [Eys Hya]] [Edt Hbelow]]].
    apply loop_body_inv in Hb as [t_n [Htn Hk]].
    rewrite Htn in Ht. injection Ht as ->.
    rewrite Ets in Htn. erewrite steps_from_last in Htn by exact Ht0.
    injection Htn as <-.
    destruct k.
    + destruct Hk as [nt [ny [E1 [E2 [Hn Hd]]]]].
      specialize (Hn no_actions). specialize (Hd eq_refl no_vary). subst nt.
      split; [|split; [|split]].
      * rewrite E1, Ets, steps_from_snoc, Edt, app_assoc. reflexivity.
      * exists (ya ++ [ny]). rewrite E2, Eys, length_app, Hya, app_assoc. cbn.
        split; [reflexivity|lia].
      * congruence.
      * intros j Hj. destruct (Nat.eq_dec j n) as [->|Hne].
        -- apply Qltb_lt. exact Hlt.
        -- apply Hbelow. lia.
    + destruct Hk as [_ [_ [_ Hp]]]. rewrite no_retry in Hp. discriminate.
    + destruct Hk as [_ [_ Hp]]. discriminate.
Qed.

Lemma main_loop_fixed_step fuel st0 (s0 s' : S) ts ys t0 :
  idx_neg (ts_of st0) 1 = Return t0 ->
  loop fuel st0 s0 = (s', Return (ts, ys)) ->
  exists n ya,
    ts = ts_of st0 ++ steps_from t0 (dt_of st0) n
    /\ ys = ys_of st0 ++ ya /\ length ya = n
    /\ tmax <= nth_time t0 (dt_of st0) n
    /\ forall k, (k < n)%nat -> nth_time t0 (dt_of st0) k < tmax.
Proof.
  intros Ht0 H.
  destruct (main_loop_returns fuel (reach_here _ _ _ _ _ _ _ st0 s0) H)
    as [n [st' [Hr [-> [-> [t [Ht Hle]]]]]]].
  destruct (reach_fixed_step Ht0 Hr) as [Ets [[ya [Eys Hya]] [_ Hbelow]]].
  exists n, ya. repeat split; auto.
  rewrite Ets in Ht. erewrite steps_from_last in Ht by exact Ht0.
  injection Ht as <-. exact Hle.
Qed.

End FixedStep.

Section EntryFurther.
Context {N : Numerics} {S : Type} {W : World S}.

(** Each call of the starting loop takes exactly one step. *)
Lemma start_one_step fuel func ts ys (dt t_n : Q) (s s' : S) r :
  0 < dt ->
  idx_neg ts 1 = Return t_n ->
  _odeint fuel func ts ys dt (t_n + dt) imr_residual None None None
    default_odeint_kwargs s = (s', Return r) ->
  exists y, r = (ts ++ [t_n + dt], ys ++ [y]).
Proof.
  intros Hdt Ht H. destruct r as [ts' ys']. unfold _odeint in H.
  unfold bind at 1 in H. unfold ret at 1 in H.
  unfold bind at 1 in H. cbn [default_odeint_kwargs vary_step] in H.
  unfold ret at 1 in H. cbn [fst snd] in H.
  eapply main_loop_fixed_step in H; try reflexivity; [|exact Ht].
  cbn [ts_of ys_of dt_of] in H.
  destruct H as [n [ya [E1 [E2 [E3 [E4 E5]]]]]].
  destruct n as [|[|n]].
  - cbn in E4. exfalso. lra.
  - destruct ya as [|y [|? ?]]; cbn in E3; try lia.
    exists y. rewrite E1, E2. reflexivity.
  - specialize (E5 1%nat ltac:(lia)). cbn in E5. exfalso. lra.
Qed.

Lemma start_loop_steps fuel steps n_start func dt :
  0 < dt ->
  forall ts ys (s s' : S) r,
    higher_order_start_loop fuel steps n_start func ts ys dt s
      = (s', Return r) ->
    length (snd r) = Nat.max (length ys) n_start
    /\ (exists ya, snd r = ys ++ ya)
    /\ forall t0, idx_neg ts 1 = Return t0 ->
         fst r = ts ++ steps_from t0 dt (n_start - length ys).
Proof.
  intro Hdt.
  induction steps as [|steps IH]; intros ts ys s s' r H; [discriminate|].
  cbn [higher_order_start_loop] in H.
  destruct (Nat.ltb_spec (length ys) n_start) as [Hlt|Hge].
  - unfold bind at 1 in H. unfold lift at 1 in H.
    destruct (idx_neg ts 1) as [t_n|e|] eqn:Ht; [|discriminate..].
    unfold bind at 1 in H. run_in H; [|discriminate..].
    eapply start_one_step in Heqp; [|exact Hdt|exact Ht].
    destruct Heqp as [y ->].
    cbn [fst snd] in H. apply IH in H as [E1 [[ya E2] E3]].
    split; [|split].
    + rewrite E1, length_app. cbn. lia.
    + exists (y :: ya). rewrite E2, <- app_assoc. reflexivity.
    + intros t0 Ht0. injection Ht0 as <-.
      rewrite (E3 (t_n + dt)).
      * rewrite length_app. cbn [length].
        replace (n_start - length ys)%nat
          with (Datatypes.S (n_start - (length ys + 1)))%nat by lia.
        rewrite steps_from_cons, <- app_assoc. reflexivity.
      * unfold idx_neg. rewrite rev_app_distr. reflexivity.
  - unfold ret in H. injection H as _ <-. cbn [fst snd].
    split; [lia|split].
    + exists []. rewrite app_nil_r. reflexivity.
    + intros t0 _. replace (n_start - length ys)%nat with O by lia.
      unfold steps_from. cbn. rewrite app_nil_r. reflexivity.
Qed.

(** X19: when [higher_order_start] returns, the history has
    [max(len(ys), n_start)] values: every call of [_odeint] in its loop
    takes exactly one step of 1e-6, so the given lists are extended by the
    [n_start - len(ys)] times [t + 1e-6], [t + 1e-6 + 1e-6], ... and as
    many values, and are returned unchanged when they are long enough. *)
Theorem higher_order_start_fills_history :
  forall fuel n_start func ts ys (s s' : S) r,
    higher_order_start fuel n_start func ts ys s = (s', Return r) ->
    length (snd r) = Nat.max (length ys) n_start
    /\ (exists ya, snd r = ys ++ ya)
    /\ forall t0, idx_neg ts 1 = Return t0 ->
         fst r = ts ++ steps_from t0 (1 # 1000000) (n_start - length ys).
Proof.
  intros fuel n_start func ts ys s s' r H. unfold higher_order_start in H.
  eapply start_loop_steps; [|exact H]. reflexivity.
Qed.

(** X20: [_odeint] returns at the first committed time that is not below
    [tmax]: the last time of a returned trajectory is at least [tmax];
    when the last time given is already at least [tmax] (and there are no
    initialisation actions) the lists are returned as they are, with no
    effect, and an empty list of times is an [IndexError]. *)
Theorem odeint_loop_stops_at_the_horizon :
  forall fuel func tsin ysin dt tmax residual_of target_error adaptor kw (s : S),
    (forall (init : option initialisation) s' ts ys,
        _odeint fuel func tsin ysin dt tmax residual_of target_error adaptor
          init kw s = (s', Return (ts, ys)) ->
        exists t, idx_neg ts 1 = Return t /\ tmax <= t)
    /\ (vary_step kw && is_not_None adaptor = false ->
        forall t, idx_neg tsin 1 = Return t -> tmax <= t ->
          _odeint (Datatypes.S fuel) func tsin ysin dt tmax residual_of
            target_error adaptor None kw s = (s, Return (tsin, ysin)))
    /\ (vary_step kw && is_not_None adaptor = false ->
        tsin = [] ->
        _odeint (Datatypes.S fuel) func tsin ysin dt tmax residual_of
          target_error adaptor None kw s = (s, Raise IndexError)).
Proof.
  intros fuel func tsin ysin dt tmax residual_of target_error adaptor kw s.
  assert (Hassert : vary_step kw && is_not_None adaptor = false ->
    (if vary_step kw
     then if is_not_None adaptor then raise AssertionError else ret tt
     else ret tt) s = (s, Return tt)).
  { intro Hv. destruct (vary_step kw); [|reflexivity].
    cbn in Hv. rewrite Hv. reflexivity. }
  split; [|split].
  - intros init s' ts ys H.
    unfold _odeint in H. unfold bind at 1 in H. run_in H; [|discriminate..].
    unfold bind at 1 in H. run_in H; [|discriminate..].
    destruct (main_loop_returns fuel (reach_here _ _ _ _ _ _ _ _ _) H)
      as [n [st' [_ [_ [_ Ht]]]]].
    exact Ht.
  - intros Hv t Ht Hle. unfold _odeint. unfold bind at 1. unfold ret at 1.
    unfold bind at 1. rewrite (Hassert Hv). cbn [fst snd main_loop ts_of ys_of].
    munfold. rewrite Ht. apply Qltb_ge in Hle. rewrite Hle. reflexivity.
  - intros Hv ->. unfold _odeint. unfold bind at 1. unfold ret at 1.
    unfold bind at 1. rewrite (Hassert Hv). reflexivity.
Qed.

Lemma factory_fixed_step_scheme fuel (m : @method N S) l (s : S) :
  method_label m = Some l ->
  In (lower l) fixed_step_labels ->
  exists r s', _timestep_scheme_factory fuel m s
    = (s', Return (r, None,
                   option_map (higher_order_start fuel) (start_points (lower l)))).
Proof.
  intros Hl Hin. destruct (@factory_label _ _ _ fuel m l Hl) as [d [-> [Hd _]]].
  unfold _timestep_scheme_factory. rewrite Hd.
  cbn in Hin.
  repeat (destruct Hin as [Hin|Hin];
          [rewrite <- Hin; eexists; eexists; reflexivity|]).
  contradiction.
Qed.

(** X21: for the schemes without a timestep adaptor (bdf2, bdf3, bdf1,
    imr, trapezoid, tr) the outcome of [odeint] and the world it leaves do
    not depend on [target_error]. *)
Theorem fixed_step_schemes_ignore_target_error :
  forall (fuel : nat) (func : base_residual) (y0 : array_like) (tmax dt : Q)
         (m : @method N S) (l : string) (te te' : option Q) (kw : odeint_kwargs)
         (s : S),
    method_label m = Some l ->
    In (lower l) fixed_step_labels ->
    odeint fuel func y0 tmax dt m te kw s = odeint fuel func y0 tmax dt m te' kw s.
Proof.
  intros fuel func y0 tmax dt m l te te' kw s Hl Hin.
  destruct (@factory_fixed_step_scheme fuel m l s Hl Hin) as [r [s' H]].
  unfold odeint, bind. rewrite H. reflexivity.
Qed.

End EntryFurther.

(** The starting run of the sample problem for a two-point scheme. *)
Lemma higher_order_start_fills_history_witness :
  length (snd Sample.start_result) = Nat.max (length [[Fin 0]]) 2
  /\ (exists ya, snd Sample.start_result = [[Fin 0]] ++ ya)
  /\ forall t0, idx_neg [0] 1 = Return t0 ->
       fst Sample.start_result
       = [0] ++ steps_from t0 (1 # 1000000) (2 - length [[Fin 0]]).
Proof.
  apply (@higher_order_start_fills_history _ _ _ 5%nat 2%nat
           Sample.unit_slope_until_one [0] [[Fin 0]] Sample.empty_world
           (fst Sample.start_run) Sample.start_result).
  vm_compute. reflexivity.
Defined.

(** The fixed-step bdf1 run of the sample problem ends at time 1. *)
Lemma odeint_loop_stops_at_the_horizon_witness :
  exists t, idx_neg Sample.bdf1_run_times 1 = Return t /\ 1 <= t.
Proof.
  apply (proj1 (@odeint_loop_stops_at_the_horizon _ _ _ 5%nat
                  Sample.unit_slope_until_one [0] [[Fin 0]] (1 # 2) 1
                  bdf1_residual None None default_odeint_kwargs
                  Sample.empty_world)
           None (fst Sample.bdf1_run) Sample.bdf1_run_times
           Sample.bdf1_run_values).
  vm_compute. reflexivity.
Defined.

Lemma fixed_step_schemes_ignore_target_error_witness :
  odeint 5 Sample.unit_slope_until_one (Scalar (Fin 0)) 1 (1 # 2)
    (MethodName "bdf1") None default_odeint_kwargs Sample.empty_world
  = odeint 5 Sample.unit_slope_until_one (Scalar (Fin 0)) 1 (1 # 2)
      (MethodName "bdf1") (Some (1 # 1000)) default_odeint_kwargs
      Sample.empty_world.
Proof.
  apply (@fixed_step_schemes_ignore_target_error _ _ _ 5%nat
           Sample.unit_slope_until_one (Scalar (Fin 0)) 1 (1 # 2)
           (MethodName "bdf1") "bdf1"%string None (Some (1 # 1000))
           default_odeint_kwargs Sample.empty_world eq_refl).
  cbn. tauto.
Defined.

(** ** Fixed-step runs over the sum of floats *)

Section RoundedTimes.
Variable fsum : Q -> Q -> Q.

Local Abbreviation time := (Rounded.nth_time fsum).
Local Abbreviation steps := (Rounded.steps_from fsum).

Lemma rounded_steps_from_snoc (t dt : Q) (n : nat) :
  steps t dt (Datatypes.S n) = steps t dt n ++ [fsum (time t dt n) dt].
Proof. unfold Rounded.steps_from. rewrite seq_S, map_app. reflexivity. Qed.

Lemma rounded_steps_from_last (ts : list Q) (t dt : Q) (n : nat) :
  idx_neg ts 1 = Return t ->
  idx_neg (ts ++ steps t dt n) 1 = Return (time t dt n).
Proof.
  intro H. destruct n as [|n].
  - unfold Rounded.steps_from. cbn. rewrite app_nil_r. exact H.
  - rewrite rounded_steps_from_snoc, app_assoc. apply idx_neg_snoc.
Qed.

Lemma rounded_nth_time_shift (t dt : Q) (k : nat) :
  time t dt (Datatypes.S k) = time (fsum t dt) dt k.
Proof.
  induction k as [|k IH]; [reflexivity|].
  cbn [Rounded.nth_time] in *. rewrite IH. reflexivity.
Qed.

Lemma rounded_steps_from_cons (t dt : Q) (n : nat) :
  steps t dt (Datatypes.S n) = fsum t dt :: steps (fsum t dt) dt n.
Proof.
  unfold Rounded.steps_from. cbn [seq map Rounded.nth_time]. f_equal.
  rewrite <- seq_shift, map_map. apply map_ext. intro k.
  apply rounded_nth_time_shift.
Qed.

(** With the exact sum the times are the exact ones. *)
Lemma exact_nth_time (t dt : Q) (n : nat) :
  Rounded.nth_time Qplus t dt n = nth_time t dt n.
Proof. induction n as [|n IH]; [reflexivity|]. cbn. rewrite IH. reflexivity. Qed.

End RoundedTimes.

Section RoundedFixedStep.
Context {N : Numerics} {S : Type} {W : World S}.
Variable fsum : Q -> Q -> Q.
Variable func : @base_residual S.
Variable tmax : Q.
Variable residual_of : @time_residual S.
Variable target_error : option Q.
Variable kw : @odeint_kwargs S.
Variable base_dt : Q.
Hypothesis no_vary : vary_step kw = false.
Hypothesis no_retry : newton_failure_reduce_step kw = false.
Hypothesis no_actions : actions_after_timestep kw = None.

Local Abbreviation loop :=
  (Rounded.main_loop fsum func tmax residual_of target_error None kw base_dt).
Local Abbreviation reaches :=
  (Rounded.reach fsum func tmax residual_of target_error None kw base_dt).
Local Abbreviation time := (Rounded.nth_time fsum).
Local Abbreviation steps := (Rounded.steps_from fsum).

Lemma rounded_reach_fixed_step st0 s0 n st s t0 :
  idx_neg (ts_of st0) 1 = Return t0 ->
  reaches st0 s0 n st s ->
  ts_of st = ts_of st0 ++ steps t0 (dt_of st0) n
  /\ (exists ya, ys_of st = ys_of st0 ++ ya /\ length ya = n)
  /\ dt_of st = dt_of st0
  /\ forall k, (k < n)%nat -> time t0 (dt_of st0) k < tmax.
Proof.
  intros Ht0 Hr.
  induction Hr as [|n st s t k st' s' Hr IH Ht Hlt Hb].
  - split; [|split; [|split]].
    + unfold Rounded.steps_from. cbn. rewrite app_nil_r. reflexivity.
    + exists []. rewrite app_nil_r. auto.
    + reflexivity.
    + intros k Hk. lia.
  - destruct IH as [Ets [[ya [Eys Hya]] [Edt Hbelow]]].
    apply rounded_loop_body_inv in Hb as [t_n [Htn Hk]].
    rewrite Htn in Ht. injection Ht as ->.
    rewrite Ets in Htn. erewrite rounded_steps_from_last in Htn by exact Ht0.
    injection Htn as <-.
    destruct k.
    + destruct Hk as [nt [ny [E1 [E2 [Hn Hd]]]]].
      specialize (Hn no_actions). specialize (Hd eq_refl no_vary). subst nt.
      split; [|split; [|split]].
      * rewrite E1, Ets, rounded_steps_from_snoc, Edt, app_assoc. reflexivity.
      * exists (ya ++ [ny]). rewrite E2, Eys, length_app, Hya, app_assoc. cbn.
        split; [reflexivity|lia].
      * congruence.
      * intros j Hj. destruct (Nat.eq_dec j n) as [->|Hne].
        -- apply Qltb_lt. exact Hlt.
        -- apply Hbelow. lia.
    + destruct Hk as [_ [_ [_ Hp]]]. rewrite no_retry in Hp. discriminate.
    + destruct Hk as [_ [_ Hp]]. discriminate.
Qed.

Lemma rounded_main_loop_fixed_step fuel st0 (s0 s' : S) ts ys t0 :
  idx_neg (ts_of st0) 1 = Return t0 ->
  loop fuel st0 s0 = (s', Return (ts, ys)) ->
  exists n ya,
    ts = ts_of st0 ++ steps t0 (dt_of st0) n
    /\ ys = ys_of st0 ++ ya /\ length ya = n
    /\ tmax <= time t0 (dt_of st0) n
    /\ forall k, (k < n)%nat -> time t0 (dt_of st0) k < tmax.
Proof.
  intros Ht0 H.
  destruct (rounded_main_loop_returns fuel
              (Rounded.reach_here _ _ _ _ _ _ _ _ st0 s0) H)
    as [n [st' [Hr [-> [-> [t [Ht Hle]]]]]]].
  destruct (rounded_reach_fixed_step Ht0 Hr) as [Ets [[ya [Eys Hya]] [_ Hbelow]]].
  exists n, ya. repeat split; auto.
  rewrite Ets in Ht. erewrite rounded_steps_from_last in Ht by exact Ht0.
  injection Ht as <-. exact Hle.
Qed.

End RoundedFixedStep.

Section RoundedEntry.
Context {N : Numerics} {S : Type} {W : World S}.
Variable fsum : Q -> Q -> Q.

Local Abbreviation time := (Rounded.nth_time fsum).
Local Abbreviation steps := (Rounded.steps_from fsum).

(** A call of the starting loop takes one step, or none when the sum
    [t_n + dt] is not above [t_n]. *)
Lemma rounded_start_one_step fuel func ts ys (dt t_n : Q) (s s' : S) r :
  idx_neg ts 1 = Return t_n ->
  Rounded._odeint fsum fuel func ts ys dt (fsum t_n dt) imr_residual None None
    None default_odeint_kwargs s = (s', Return r) ->
  r = (ts, ys) \/ exists y, r = (ts ++ [fsum t_n dt], ys ++ [y]).
Proof.
  intros Ht H. destruct r as [ts' ys']. unfold Rounded._odeint in H.
  unfold bind at 1 in H. unfold ret at 1 in H.
  unfold bind at 1 in H. cbn [default_odeint_kwargs vary_step] in H.
  unfold ret at 1 in H. cbn [fst snd] in H.
  eapply rounded_main_loop_fixed_step in H; try reflexivity; [|exact Ht].
  cbn [ts_of ys_of dt_of] in H.
  destruct H as [n [ya [E1 [E2 [E3 [E4 E5]]]]]].
  destruct n as [|[|n]].
  - left. destruct ya; [|discriminate].
    rewrite E1, E2. unfold Rounded.steps_from. cbn. rewrite !app_nil_r.
    reflexivity.
  - right. destruct ya as [|y [|? ?]]; cbn in E3; try lia.
    exists y. rewrite E1, E2. reflexivity.
  - specialize (E5 1%nat ltac:(lia)). cbn in E5. exfalso.
    exact (Qlt_irrefl _ E5).
Qed.

Lemma rounded_start_loop_steps fuel steps' n_start func dt :
  forall ts ys (s s' : S) r,
    Rounded.higher_order_start_loop fsum fuel steps' n_start func ts ys dt s
      = (s', Return r) ->
    length (snd r) = Nat.max (length ys) n_start
    /\ (exists ya, snd r = ys ++ ya)
    /\ forall t0, idx_neg ts 1 = Return t0 ->
         fst r = ts ++ steps t0 dt (n_start - length ys).
Proof.
  induction steps' as [|steps' IH]; intros ts ys s s' r H; [discriminate|].
  cbn [Rounded.higher_order_start_loop] in H.
  destruct (Nat.ltb_spec (length ys) n_start) as [Hlt|Hge].
  - unfold bind at 1 in H. unfold lift at 1 in H.
    destruct (idx_neg ts 1) as [t_n|e|] eqn:Ht; [|discriminate..].
    unfold bind at 1 in H. run_in H; [|discriminate..].
    eapply rounded_start_one_step in Heqp; [|exact Ht].
    destruct Heqp as [->|[y ->]].
    + cbn [fst snd] in H. apply IH in H. rewrite Ht in H. exact H.
    + cbn [fst snd] in H. apply IH in H as [E1 [[ya E2] E3]].
      split; [|split].
      * rewrite E1, length_app. cbn. lia.
      * exists (y :: ya). rewrite E2, <- app_assoc. reflexivity.
      * intros t0 Ht0. injection Ht0 as <-.
        rewrite (E3 (fsum t_n dt)).
        -- rewrite length_app. cbn [length].
           replace (n_start - length ys)%nat
             with (Datatypes.S (n_start - (length ys + 1)))%nat by lia.
           rewrite rounded_steps_from_cons, <- app_assoc. reflexivity.
        -- unfold idx_neg. rewrite rev_app_distr. reflexivity.
  - unfold ret in H. injection H as _ <-. cbn [fst snd].
    split; [lia|split].
    + exists []. rewrite app_nil_r. reflexivity.
    + intros t0 _. replace (n_start - length ys)%nat with O by lia.
      unfold Rounded.steps_from. cbn. rewrite app_nil_r. reflexivity.
Qed.


End RoundedEntry.


(** ** Passes of the loop: retries, random steps, backward Euler *)

Section PassFurther.
Context {N : Numerics} {S : Type} {W : World S}.

Lemma retry_power_positive (n : nat) : 0 < inject_Z (2 ^ Z.of_nat n).
Proof.
  change 0 with (inject_Z 0). rewrite <- Zlt_Qlt. apply Z.pow_pos_nonneg; lia.
Qed.

(** X23: [n] passes in a row that end in a Newton retry leave the
    trajectory as it was and at least halve the step each time:
    [2^n dt_n <= dt_0]; after at least one retry the step is not below
    [MIN_ALLOWED_TIMESTEP], so [2^n MIN_ALLOWED_TIMESTEP <= dt_0] bounds the
    number of retries in a row by the step the first pass started with. *)
Theorem newton_retries_halve_the_step :
  forall func residual_of target_error adaptor kw base_dt
         (st0 : loop_state) (s0 : S) (n : nat) (st : loop_state) (s : S),
    retries func residual_of target_error adaptor kw base_dt st0 s0 n st s ->
    ts_of st = ts_of st0 /\ ys_of st = ys_of st0
    /\ inject_Z (2 ^ Z.of_nat n) * dt_of st <= dt_of st0
    /\ ((1 <= n)%nat ->
        MIN_ALLOWED_TIMESTEP <= dt_of st
        /\ inject_Z (2 ^ Z.of_nat n) * MIN_ALLOWED_TIMESTEP <= dt_of st0).
Proof.
  intros func residual_of target_error adaptor kw base_dt st0 s0 n st s Hr.
  assert (Main : ts_of st = ts_of st0 /\ ys_of st = ys_of st0
    /\ inject_Z (2 ^ Z.of_nat n) * dt_of st <= dt_of st0
    /\ ((1 <= n)%nat -> MIN_ALLOWED_TIMESTEP <= dt_of st)).
  { induction Hr as [|n st s st' s' Hr IH Hb].
    - split; [reflexivity|split; [reflexivity|split]].
      + cbn. rewrite Qmult_1_l. apply Qle_refl.
      + lia.
    - destruct IH as [Ets [Eys [Hle _]]].
      apply loop_body_inv in Hb as [t_n [_ [E1 [E2 [Hsc _]]]]].
      rewrite scale_timestep_failed in Hsc. cbv zeta in Hsc.
      pose proof (retry_power_positive n) as P.
      assert (E : inject_Z (2 ^ Z.of_nat (Datatypes.S n))
                  == 2 * inject_Z (2 ^ Z.of_nat n)).
      { rewrite Nat2Z.inj_succ, Z.pow_succ_r by lia.
        rewrite inject_Z_mult. reflexivity. }
      assert (Hhalf : dt_of st' <= (1 # 2) * dt_of st
                      /\ MIN_ALLOWED_TIMESTEP <= dt_of st').
      { destruct (Qltb MAX_ALLOWED_TIMESTEP
                    (TIMESTEP_FAILURE_DT_SCALING_FACTOR * dt_of st)) eqn:Hmax.
        - injection Hsc as Hsc. rewrite <- Hsc. apply Qltb_lt in Hmax.
          unfold TIMESTEP_FAILURE_DT_SCALING_FACTOR, MAX_ALLOWED_TIMESTEP,
            MIN_ALLOWED_TIMESTEP in *.
          split; [|discriminate]. lra.
        - destruct (Qltb (TIMESTEP_FAILURE_DT_SCALING_FACTOR * dt_of st)
                      MIN_ALLOWED_TIMESTEP) eqn:Hmin; [discriminate|].
          injection Hsc as Hsc. rewrite <- Hsc. apply Qltb_ge in Hmin.
          unfold TIMESTEP_FAILURE_DT_SCALING_FACTOR, MIN_ALLOWED_TIMESTEP in *.
          split; [lra|exact Hmin]. }
      destruct Hhalf as [Hh Hm].
      split; [congruence|split; [congruence|split]].
      + rewrite E.
        apply Qle_trans with (inject_Z (2 ^ Z.of_nat n) * dt_of st); [|exact Hle].
        nra.
      + intros _. exact Hm. }
  destruct Main as [Ets [Eys [Hle Hmin]]].
  split; [exact Ets|split; [exact Eys|split; [exact Hle|]]].
  intro H. split; [exact (Hmin H)|].
  pose proof (retry_power_positive n) as P.
  specialize (Hmin H).
  apply Qle_trans with (inject_Z (2 ^ Z.of_nat n) * dt_of st); [|exact Hle].
  nra.
Qed.

(** The step of [create_random_time_adaptor] is [base_dt] scaled by the
    draw: for draws within their range it lies between
    [min_scaling * base_dt] and [max_scaling * base_dt]. *)
Lemma create_random_time_adaptor_range (base_dt lo hi : Q) (s s' : S) (d : Q) :
  (forall a b w, a <= b ->
     a <= snd (random_uniform a b w) /\ snd (random_uniform a b w) <= b) ->
  0 <= base_dt -> lo <= hi ->
  create_random_time_adaptor base_dt lo hi s = (s', Return d) ->
  lo * base_dt <= d /\ d <= hi * base_dt.
Proof.
  intros Hu Hb Hlh H. unfold create_random_time_adaptor in H.
  destruct (Hu lo hi s Hlh) as [L U].
  destruct (random_uniform lo hi s) as [s1 u]. cbn [snd] in L, U.
  injection H as _ <-. split; nra.
Qed.

(** X24: with [vary_step] the step size after a committed pass is the
    [dt] of the call scaled by a draw from [0.9, 1.1], not the step of the
    pass scaled: for draws within their range and [dt >= 0] it lies
    between [0.9 dt] and [1.1 dt] however many passes came before.  No
    pass is rejected, and a Newton retry needs
    [newton_failure_reduce_step]. *)
Theorem vary_step_stays_near_base_dt :
  forall func residual_of target_error kw base_dt st (s s' : S) k st',
    vary_step kw = true ->
    (forall a b w, a <= b ->
       a <= snd (random_uniform a b w) /\ snd (random_uniform a b w) <= b) ->
    0 <= base_dt ->
    loop_body func residual_of target_error None kw base_dt st s
      = (s', Return (k, st')) ->
    match k with
    | Committed =>
        (9 # 10) * base_dt <= dt_of st' /\ dt_of st' <= (11 # 10) * base_dt
    | NewtonRetry => newton_failure_reduce_step kw = true
    | Rejected => False
    end.
Proof.
  intros func residual_of target_error kw base_dt st s s' k st' Hv Hu Hb H.
  pose proof H as Hinv. apply loop_body_inv in Hinv as [t_n [_ Hk]].
  destruct k.
  - unfold loop_body in H. unfold bind at 1 in H. unfold lift at 1 in H.
    destruct (idx_neg (ts_of st) 1) as [t|e|]; [|discriminate..].
    unfold bind at 1 in H. run_in H; [|discriminate..].
    destruct a as [y|dt']; [|discriminate].
    unfold bind at 1 in H. run_in H; [|discriminate..].
    rewrite Hv in H. unfold bind at 1 in H.
    change (step_randomiser base_dt)
      with (create_random_time_adaptor base_dt (9 # 10) (11 # 10)) in H.
    destruct (create_random_time_adaptor base_dt (9 # 10) (11 # 10) s1)
      as [s3 [d|e|]] eqn:Hr; [|discriminate..].
    unfold ret in H. injection H as _ <-. cbn [dt_of].
    eapply create_random_time_adaptor_range; [exact Hu|exact Hb| |exact Hr].
    discriminate.
  - destruct Hk as [_ [_ [_ Hp]]]. exact Hp.
  - destruct Hk as [_ [_ Hp]]. discriminate.
Qed.

(** X25: [calculate_new_dy_if_needed], on a scalar history whose store
    of derivatives ends in [d0]: when the store is behind, it appends the
    derivative [d1] with [(d0 + d1) / 2 == (y1 - y0) / (t1 - t0)], the
    trapezoid rule of the step before the one being solved, and otherwise
    it leaves the store as it is. *)
Theorem calculate_new_dy_inverts_trapezoid_rule :
  forall (t0 t1 t2 y0 y1 d0 : Q) (y2 : vec) (pre_t : list Q)
         (pre_y pre_d : list vec) (s : S),
    get_dys s = pre_d ++ [[Fin d0]] ->
    ~ t0 == t1 ->
    ((length pre_d <= length pre_y)%nat ->
     exists d1,
       calculate_new_dy_if_needed (pre_t ++ [t0; t1; t2])
         (pre_y ++ [[Fin y0]; [Fin y1]; y2]) s
       = (set_dys (get_dys s ++ [[Fin d1]]) s, Return tt)
       /\ (d0 + d1) / 2 == (y1 - y0) / (t1 - t0))
    /\ ((length pre_y < length pre_d)%nat ->
        calculate_new_dy_if_needed (pre_t ++ [t0; t1; t2])
          (pre_y ++ [[Fin y0]; [Fin y1]; y2]) s = (s, Return tt)).
Proof.
  intros t0 t1 t2 y0 y1 d0 y2 pre_t pre_y pre_d s Hd H01.
  unfold calculate_new_dy_if_needed. rewrite Hd, !length_app. cbn [length].
  split; intro Hlen.
  - destruct (Nat.ltb_spec (length pre_d + 1 + 1) (length pre_y + 3)) as [_|F];
      [|lia].
    unfold idx_neg. rewrite !rev_app_distr. cbn [rev app nth_error pred].
    munfold. array_steps. array_steps.
    eexists. split; [reflexivity|]. field. lra.
  - destruct (Nat.ltb_spec (length pre_d + 1 + 1) (length pre_y + 3)) as [F|_];
      [lia|reflexivity].
Qed.


End PassFurther.

(** The retry of the sample problem beyond time 1, from [dt = 1]. *)
Lemma newton_retries_halve_the_step_witness :
  ts_of (retry_state {| ts_of := [2]; ys_of := [[Fin 0]]; dt_of := 1 |}
           (TIMESTEP_FAILURE_DT_SCALING_FACTOR * 1)) = [2]
  /\ ys_of (retry_state {| ts_of := [2]; ys_of := [[Fin 0]]; dt_of := 1 |}
              (TIMESTEP_FAILURE_DT_SCALING_FACTOR * 1)) = [[Fin 0]]
  /\ inject_Z (2 ^ Z.of_nat 1)
     * dt_of (retry_state {| ts_of := [2]; ys_of := [[Fin 0]]; dt_of := 1 |}
                (TIMESTEP_FAILURE_DT_SCALING_FACTOR * 1)) <= 1
  /\ ((1 <= 1)%nat ->
      MIN_ALLOWED_TIMESTEP
      <= dt_of (retry_state {| ts_of := [2]; ys_of := [[Fin 0]]; dt_of := 1 |}
                  (TIMESTEP_FAILURE_DT_SCALING_FACTOR * 1))
      /\ inject_Z (2 ^ Z.of_nat 1) * MIN_ALLOWED_TIMESTEP <= 1).
Proof.
  apply (@newton_retries_halve_the_step _ _ _ Sample.unit_slope_until_one
           bdf1_residual None None Sample.retry_kwargs 1
           {| ts_of := [2]; ys_of := [[Fin 0]]; dt_of := 1 |}
           Sample.empty_world 1%nat
           (retry_state {| ts_of := [2]; ys_of := [[Fin 0]]; dt_of := 1 |}
              (TIMESTEP_FAILURE_DT_SCALING_FACTOR * 1))
           (stderr_write failure_message Sample.empty_world)).
  eapply retries_more; [apply retries_none|].
  vm_compute. reflexivity.
Defined.

(** A pass of the sample problem with [vary_step]; the draws of the
    sample world are midpoints. *)
Lemma vary_step_stays_near_base_dt_witness :
  (9 # 10) * (1 # 2) <= dt_of Sample.vary_pass_state
  /\ dt_of Sample.vary_pass_state <= (11 # 10) * (1 # 2).
Proof.
  apply (@vary_step_stays_near_base_dt _ _ _ Sample.unit_slope_until_one
           bdf1_residual None Sample.vary_kwargs (1 # 2) (Sample.seed (1 # 2))
           Sample.empty_world (fst Sample.vary_pass) Committed
           Sample.vary_pass_state eq_refl).
  - intros a b w Hab. cbn [random_uniform Sample.sample_world snd].
    split; [apply Qle_shift_div_l|apply Qle_shift_div_r]; try reflexivity; lra.
  - discriminate.
  - vm_compute. reflexivity.
Defined.

(** One stored derivative, and the history 0, 1, 3 of [t^2]. *)
Lemma calculate_new_dy_inverts_trapezoid_rule_witness :
  exists d1,
    calculate_new_dy_if_needed ([] ++ [0; 1; 3])
      ([] ++ [[Fin 0]; [Fin 1]; [Fin 9]]) Sample.one_derivative_stored
    = (set_dys (get_dys Sample.one_derivative_stored ++ [[Fin d1]])
         Sample.one_derivative_stored, Return tt)
    /\ (1 + d1) / 2 == (1 - 0) / (1 - 0).
Proof.
  refine (proj1 (@calculate_new_dy_inverts_trapezoid_rule _ _ 0 1 3 0 1 1
                   [Fin 9] [] [] [] Sample.one_derivative_stored _ _) _);
    [reflexivity|discriminate|cbn; lia].
Defined.


(** ** Explicit time stepping *)

Section ExplicitProperties.
Context {N : Numerics} {S : Type} {W : World S}.

(** X27: [odeint_explicit] starts a run exactly for the method names
    ab2, ebdf2 and ebdf3, compared as they are written, and for every other
    name it ends with [NotImplementedError] before anything is evaluated;
    and what it does depends neither on [time_adaptor] nor on
    [target_error]: the adaptor is handed on in the place of the target
    error, and the loop is run without one. *)
Theorem odeint_explicit_methods :
  forall fuel (func : @explicit_func S) y0 dt tmax method a te,
    (In method explicit_methods ->
       exists run, odeint_explicit fuel func y0 dt tmax method a te
                   = Dispatched run)
    /\ (~ In method explicit_methods ->
        odeint_explicit fuel func y0 dt tmax method a te
        = NotImplementedError
            ("method " ++ method ++ " not implement (yet?)")%string)
    /\ (forall a' te',
          odeint_explicit fuel func y0 dt tmax method a te
          = odeint_explicit fuel func y0 dt tmax method a' te').
Proof.
  intros fuel func y0 dt tmax method a te. split; [|split].
  - unfold odeint_explicit, explicit_method.
    intros [<-|[<-|[<-|[]]]]; cbn; eexists; reflexivity.
  - unfold odeint_explicit, explicit_method. intro Hn.
    repeat match goal with
    | |- context [String.eqb method ?x] =>
        destruct (String.eqb_spec method x) as [->|_];
          [exfalso; apply Hn; cbn; tauto|]
    end.
    reflexivity.
  - intros a' te'. reflexivity.
Qed.

(** X29: [wrapped_ebdf2] hands the time [ts[-2]] to [ebdf2_step] in the
    place of the value [ys[-2]], which reaches the result through [func]
    only: on a scalar history the step is
    [(1 - r^2) t1 + (1 + r) (t2 - t1) f + r^2 y0] with
    [r = (t2 - t1) / (t1 - t0)] and [f = func(t1, y1)]; with equal steps
    the time has the coefficient zero and the step is the midpoint rule
    [y0 + 2 (t2 - t1) f]. *)
Theorem wrapped_ebdf2_uses_the_time_as_value :
  forall (func : explicit_func) (t0 t1 t2 y0 y1 f : Q) (pre_t : list Q)
         (pre_y : list (option vec)) (s s' : S),
    ~ t0 == t1 ->
    func t1 [Fin y1] s = (s', Return [Fin f]) ->
    exists y,
      wrapped_ebdf2 (pre_t ++ [t0; t1; t2])
        (pre_y ++ [Some [Fin y0]; Some [Fin y1]; None]) func s
      = (s', Return [Fin y])
      /\ y == (1 - ((t2 - t1) / (t1 - t0)) ^ 2) * t1
              + (1 + (t2 - t1) / (t1 - t0)) * (t2 - t1) * f
              + ((t2 - t1) / (t1 - t0)) ^ 2 * y0
      /\ (t2 - t1 == t1 - t0 -> y == y0 + 2 * (t2 - t1) * f).
Proof.
  intros func t0 t1 t2 y0 y1 f pre_t pre_y s s' H01 Hf.
  unfold wrapped_ebdf2, yval, idx_neg, ebdf2_step.
  rewrite !rev_app_distr. cbn [rev app nth_error pred obind].
  munfold. rewrite Hf.
  array_steps. array_steps.
  eexists. split; [reflexivity|]. split.
  - reflexivity.
  - intro Heq. rewrite Heq. field. lra.
Qed.

(** X30: [emr_step] evaluates the derivative the second time at
    [ts[-1] + dtn/2], half a step beyond the end of the step: on
    [dy/dt = a + b t] it returns
    [y0 + dtn (a + b (t1 + dtn / 2))], which is the exact solution at [t1]
    plus [b dtn^2]. *)
Theorem emr_step_samples_beyond_the_step :
  forall (a b t0 t1 y0 : Q) (pre_t : list Q) (pre_y : list (option vec)) (s : S),
    exists y,
      emr_step (pre_t ++ [t0; t1]) (pre_y ++ [Some [Fin y0]; None])
        (linear_in_time a b) s
      = (s, Return [Fin y])
      /\ y == y0 + (t1 - t0) * (a + b * (t1 + (t1 - t0) / 2))
      /\ y == (y0 + a * (t1 - t0) + b * (t1 ^ 2 - t0 ^ 2) / 2)
              + b * (t1 - t0) ^ 2.
Proof.
  intros a b t0 t1 y0 pre_t pre_y s.
  unfold emr_step, yval, idx_neg, linear_in_time.
  rewrite !rev_app_distr. cbn [rev app nth_error pred obind].
  munfold. array_steps.
  eexists. split; [reflexivity|]. split.
  - reflexivity.
  - field.
Qed.

End ExplicitProperties.

Lemma odeint_explicit_methods_witness :
  exists run,
    odeint_explicit 10 Sample.constant_slope (Fin 1) (1 # 2) 1 "ab2" None None
    = Dispatched run.
Proof.
  apply (proj1 (@odeint_explicit_methods _ _ 10%nat Sample.constant_slope
                  (Fin 1) (1 # 2) 1 "ab2"%string None None)).
  cbn. tauto.
Defined.

(** The history 0, 1, 2 with [dy/dt = 1]. *)
Lemma wrapped_ebdf2_uses_the_time_as_value_witness :
  exists y,
    wrapped_ebdf2 ([] ++ [0; 1; 2]) ([] ++ [Some [Fin 5]; Some [Fin 6]; None])
      Sample.constant_slope Sample.empty_world
    = (Sample.empty_world, Return [Fin y])
    /\ y == (1 - ((2 - 1) / (1 - 0)) ^ 2) * 1
            + (1 + (2 - 1) / (1 - 0)) * (2 - 1) * 1
            + ((2 - 1) / (1 - 0)) ^ 2 * 5
    /\ (2 - 1 == 1 - 0 -> y == 5 + 2 * (2 - 1) * 1).
Proof.
  apply (@wrapped_ebdf2_uses_the_time_as_value _ Sample.constant_slope
           0 1 2 5 6 1 [] [] Sample.empty_world Sample.empty_world);
    [discriminate|reflexivity].
Defined.

(** ** Explicit time stepping over the sum of floats *)

Section RoundedExplicit.
Context {N : Numerics} {S : Type} {W : World S}.
Variable fsum : Q -> Q -> Q.

Local Abbreviation time := (Rounded.nth_time fsum).
Local Abbreviation steps := (Rounded.steps_from fsum).

(** Without an adaptor a pass of the explicit loop commits the sum of
    [t] and [dt] and keeps [dt]. *)
Lemma rounded_explicit_body_fixed (T : Type) func stepper (te : T) st
      (s s' : S) k st' :
  Rounded.explicit_body fsum func stepper te None st s = (s', Return (k, st')) ->
  exists t_n y, idx_neg (ts_of st) 1 = Return t_n
    /\ st' = {| ts_of := ts_of st ++ [fsum t_n (dt_of st)];
                ys_of := ys_of st ++ [y]; dt_of := dt_of st |}.
Proof.
  unfold Rounded.explicit_body. unfold bind at 1. unfold lift at 1.
  destruct (idx_neg (ts_of st) 1) as [t_n|e|]; [|discriminate..].
  unfold bind at 1. intro H. run_in H; [|discriminate..].
  unfold ret in H. injection H as _ _ <-. eauto.
Qed.

Lemma rounded_explicit_loop_fixed (T : Type) func tmax stepper (te : T) fuel :
  forall st (s s' : S) ts ys t0,
    idx_neg (ts_of st) 1 = Return t0 ->
    Rounded.explicit_loop fsum func tmax stepper te None fuel st s
      = (s', Return (ts, ys)) ->
    exists n,
      ts = ts_of st ++ steps t0 (dt_of st) n
      /\ length ys = (length (ys_of st) + n)%nat
      /\ (exists ya, ys = ys_of st ++ ya)
      /\ tmax <= time t0 (dt_of st) n
      /\ forall k, (k < n)%nat -> time t0 (dt_of st) k < tmax.
Proof.
  induction fuel as [|fuel IH]; intros st s s' ts ys t0 Ht0 H; [discriminate|].
  cbn [Rounded.explicit_loop] in H. unfold bind at 1 in H. unfold lift at 1 in H.
  rewrite Ht0 in H. destruct (Qltb t0 tmax) eqn:Hlt.
  - unfold bind at 1 in H. run_in H; [|discriminate..].
    destruct a as [k st1]. cbn [snd] in H.
    apply rounded_explicit_body_fixed in Heqp as [t_n [y [Ht ->]]].
    rewrite Ht0 in Ht. injection Ht as <-.
    apply (IH _ _ _ _ _ (fsum t0 (dt_of st))) in H;
      [|cbn [ts_of]; apply idx_neg_snoc].
    cbn [ts_of ys_of dt_of] in H.
    destruct H as [n [E1 [E2 [[ya E3] [E4 E5]]]]].
    exists (Datatypes.S n). split; [|split; [|split; [|split]]].
    + rewrite rounded_steps_from_cons, E1, <- app_assoc. reflexivity.
    + rewrite E2, length_app. cbn. lia.
    + exists (y :: ya). rewrite E3, <- app_assoc. reflexivity.
    + rewrite rounded_nth_time_shift. exact E4.
    + intros [|j] Hj; [cbn; apply Qltb_lt; exact Hlt|].
      rewrite rounded_nth_time_shift. apply E5. lia.
  - unfold ret in H. injection H as _ <- <-.
    exists O. split; [|split; [|split; [|split]]].
    + unfold Rounded.steps_from. cbn. rewrite app_nil_r. reflexivity.
    + lia.
    + exists []. rewrite app_nil_r. reflexivity.
    + cbn. apply Qltb_ge. exact Hlt.
    + intros k Hk. lia.
Qed.

(** A call of the explicit starting loop takes one step, or none when
    the sum [t_n + 1e-6] is not above [t_n]. *)
Lemma rounded_explicit_start_one_step fuel func ts ys (t_n : Q) (s s' : S) r :
  idx_neg ts 1 = Return t_n ->
  Rounded._odeint_explicit fsum fuel func ts ys (1 # 1000000)
    (fsum t_n (1 # 1000000)) emr_step (@None Q)
    (@None (explicit_adaptor (option Q))) s = (s', Return r) ->
  r = (ts, ys) \/ exists y, r = (ts ++ [fsum t_n (1 # 1000000)], ys ++ [y]).
Proof.
  intros Ht H. destruct r as [ts' ys']. unfold Rounded._odeint_explicit in H.
  eapply rounded_explicit_loop_fixed in H; [|exact Ht].
  cbn [ts_of ys_of dt_of] in H.
  destruct H as [n [E1 [E2 [[ya E3] [E4 E5]]]]].
  destruct n as [|[|n]].
  - left. rewrite E3, length_app in E2.
    destruct ya; [|cbn in E2; lia].
    rewrite E1, E3. unfold Rounded.steps_from. cbn. rewrite !app_nil_r.
    reflexivity.
  - right.
    destruct ya as [|y [|? ?]]; rewrite E3, !length_app in E2; cbn in E2; try lia.
    exists y. rewrite E1, E3. reflexivity.
  - specialize (E5 1%nat ltac:(lia)). cbn in E5. exfalso.
    exact (Qlt_irrefl _ E5).
Qed.

Lemma rounded_explicit_start_loop_steps fuel steps' n_start func :
  forall ts ys (s s' : S) r,
    Rounded.higher_order_explicit_start_loop fsum fuel steps' n_start func ts ys s
      = (s', Return r) ->
    length (snd r) = Nat.max (length ys) n_start
    /\ (exists ya, snd r = ys ++ ya)
    /\ forall t0, idx_neg ts 1 = Return t0 ->
         fst r = ts ++ steps t0 (1 # 1000000) (n_start - length ys).
Proof.
  induction steps' as [|steps' IH]; intros ts ys s s' r H; [discriminate|].
  cbn [Rounded.higher_order_explicit_start_loop] in H.
  destruct (Nat.ltb_spec (length ys) n_start) as [Hlt|Hge].
  - unfold bind at 1 in H. unfold lift at 1 in H.
    destruct (idx_neg ts 1) as [t_n|e|] eqn:Ht; [|discriminate..].
    unfold bind at 1 in H. run_in H; [|discriminate..].
    eapply rounded_explicit_start_one_step in Heqp; [|exact Ht].
    destruct Heqp as [->|[y ->]].
    + cbn [fst snd] in H. apply IH in H. rewrite Ht in H. exact H.
    + cbn [fst snd] in H. apply IH in H as [E1 [[ya E2] E3]].
      split; [|split].
      * rewrite E1, length_app. cbn. lia.
      * exists (y :: ya). rewrite E2, <- app_assoc. reflexivity.
      * intros t0 Ht0. injection Ht0 as <-.
        rewrite (E3 (fsum t_n (1 # 1000000))).
        -- rewrite length_app. cbn [length].
           replace (n_start - length ys)%nat
             with (Datatypes.S (n_start - (length ys + 1)))%nat by lia.
           rewrite rounded_steps_from_cons, <- app_assoc. reflexivity.
        -- apply idx_neg_snoc.
  - unfold ret in H. injection H as _ <-. cbn [fst snd].
    split; [lia|split].
    + exists []. rewrite app_nil_r. reflexivity.
    + intros t0 _. replace (n_start - length ys)%nat with O by lia.
      unfold Rounded.steps_from. cbn. rewrite app_nil_r. reflexivity.
Qed.

(** X28: the times of a trajectory that [odeint_explicit] returns,
    whatever adaptor it was given and whatever the sum [fsum] of two times
    is: 0, then the starting steps of 1e-6 (two for ebdf3, one for ab2 and
    ebdf2), then [n] steps of [dt], every time the sum of the time before
    and the step, where [n] is the first count with which the time is not
    below [tmax]; and one value for each time, the first of them the array
    of the initial value. *)
Theorem odeint_explicit_takes_fixed_steps :
  forall fuel (func : @explicit_func S) y0 dt tmax method a te run
         (s s' : S) ts ys,
    Rounded.odeint_explicit fsum fuel func y0 dt tmax method a te
      = Dispatched run ->
    run s = (s', Return (ts, ys)) ->
    exists k n ya,
      (k = if String.eqb method "ebdf3" then 2%nat else 1%nat)
      /\ ts = [0] ++ steps 0 (1 # 1000000) k
                  ++ steps (time 0 (1 # 1000000) k) dt n
      /\ ys = [y0] :: ya /\ length ys = length ts
      /\ tmax <= time (time 0 (1 # 1000000) k) dt n
      /\ forall j, (j < n)%nat -> time (time 0 (1 # 1000000) k) dt j < tmax.
Proof.
  intros fuel func y0 dt tmax method a te run s s' ts ys Hd Hrun.
  unfold Rounded.odeint_explicit in Hd.
  destruct (explicit_method method) as [[stepper n_start]|] eqn:Hm; [|discriminate].
  injection Hd as <-.
  unfold bind at 1 in Hrun. run_in Hrun; [|discriminate..].
  destruct a0 as [ts1 ys1]. cbn [fst snd] in Hrun.
  unfold Rounded.higher_order_explicit_start in Heqp.
  apply rounded_explicit_start_loop_steps in Heqp as [E1 [[ya E2] E3]].
  specialize (E3 0 eq_refl). cbn [fst snd length] in E1, E2, E3.
  unfold Rounded._odeint_explicit in Hrun.
  assert (Hk : (n_start - 1)%nat
               = if String.eqb method "ebdf3" then 2%nat else 1%nat).
  { unfold explicit_method in Hm.
    destruct (String.eqb_spec method "ab2") as [->|_];
      [injection Hm as _ <-; reflexivity|].
    destruct (String.eqb_spec method "ebdf2") as [->|_];
      [injection Hm as _ <-; reflexivity|].
    destruct (String.eqb method "ebdf3");
      [injection Hm as _ <-; reflexivity|discriminate]. }
  eapply rounded_explicit_loop_fixed in Hrun.
  2:{ cbn [ts_of]. rewrite E3. apply rounded_steps_from_last. reflexivity. }
  cbn [ts_of ys_of dt_of] in Hrun.
  destruct Hrun as [n [F1 [F2 [[yb F3] [F4 F5]]]]].
  exists (n_start - 1)%nat, n, (ya ++ yb).
  split; [exact Hk|]. split; [|split; [|split; [|split]]].
  - rewrite F1, E3, <- app_assoc. reflexivity.
  - rewrite F3, E2. reflexivity.
  - rewrite F2, F1, E3, E1, !length_app. unfold Rounded.steps_from.
    rewrite !length_map, !length_seq. cbn [length].
    assert (1 <= n_start)%nat.
    { destruct (String.eqb method "ebdf3"); lia. }
    lia.
  - exact F4.
  - exact F5.
Qed.

End RoundedExplicit.

(** The ab2 run of [dy/dt = 1] from 0 to 1 with [dt = 0.1], with times
    added as doubles: a starting step and eleven steps of 0.1. *)
Lemma odeint_explicit_takes_fixed_steps_witness :
  (exists k n ya,
    (k = if String.eqb "ab2" "ebdf3" then 2%nat else 1%nat)
    /\ Sample.explicit_double_run_times
       = [0] ++ Rounded.steps_from float_sum 0 (1 # 1000000) k
             ++ Rounded.steps_from float_sum
                  (Rounded.nth_time float_sum 0 (1 # 1000000) k) Sample.tenth n
    /\ Sample.explicit_double_run_values = [Fin 1] :: ya
    /\ length Sample.explicit_double_run_values
       = length Sample.explicit_double_run_times
    /\ 1 <= Rounded.nth_time float_sum
              (Rounded.nth_time float_sum 0 (1 # 1000000) k) Sample.tenth n
    /\ forall j, (j < n)%nat ->
         Rounded.nth_time float_sum
           (Rounded.nth_time float_sum 0 (1 # 1000000) k) Sample.tenth j < 1)
  /\ length Sample.explicit_double_run_times = 12%nat.
Proof.
  split; [|reflexivity].
  refine (@odeint_explicit_takes_fixed_steps _ _ float_sum 20%nat
            Sample.constant_slope (Fin 1) Sample.tenth 1 "ab2"%string None None
            _ Sample.empty_world (fst Sample.explicit_double_run)
            Sample.explicit_double_run_times
            Sample.explicit_double_run_values eq_refl _).
  vm_compute. reflexivity.
Defined.
